(** * Skull and Roses: the round state machine of [skull_and_roses_game.py]

    A shallow embedding of the game controller [InteractiveSkullGame], of the
    [Player] base class and of its two decision-making subclasses, followed by
    the properties of the card movements, of bidding, of challenge resolution
    and of the round and game lifecycle.

    Conventions of the embedding.
    - A Python [Card] object is a record carrying its object identity [oid]
      next to its [card_type]: the class defines no [__eq__], so [card in hand]
      and [hand.remove(card)] compare objects, not tags.
    - The players of a game are the list [players]; a reference to a player
      ([challenger], [skull_revealer], the elements of [other_players]) is the
      position of that player in the list.  The player objects of one game are
      taken to be pairwise distinct objects.
    - Console output ([print], [display_game_state], [display_hand]), and
      with it the [verbose] flag, is not modelled; [game_log] is, with one
      constructor per logged message.
    - A line typed at a prompt is modelled by the class the prompt sorts it
      into ([Input]); the random module by a stream of naturals ([rng]). *)

From stdpp Require Import base list strings.
From Stdlib Require Import ZArith Lia.

Local Open Scope Z_scope.
Local Open Scope nat_scope.

(** ** Cards *)

Inductive CardType := ROSE | SKULL.

#[global] Instance CardType_eq_dec : EqDecision CardType.
Proof. solve_decision. Defined.

Record Card := mkCard { oid : nat; card_type : CardType }.

#[global] Instance Card_eq_dec : EqDecision Card.
Proof. solve_decision. Defined.

Definition is_skull (c : Card) : bool := bool_decide (card_type c = SKULL).

Inductive GameState :=
  INITIAL_PLACEMENT | CARD_PLACEMENT | BIDDING | CHALLENGE | GAME_OVER.

#[global] Instance GameState_eq_dec : EqDecision GameState.
Proof. solve_decision. Defined.

(** [list.remove(x)]: drops the first element equal to [x]; [None] stands for
    the [ValueError] Python raises when there is none. *)
Fixpoint remove_first (x : Card) (l : list Card) : option (list Card) :=
  match l with
  | [] => None
  | y :: l' =>
      if decide (y = x) then Some l'
      else match remove_first x l' with
           | Some r => Some (y :: r)
           | None => None
           end
  end.

(** ** Players *)

(** The classes of the module: the base class, which has no decision methods,
    and its two subclasses.  [strategy] is the string given to
    [SimpleAIPlayer]. *)
Inductive PlayerClass :=
  | BasePlayer
  | InteractiveHumanPlayer
  | SimpleAIPlayer (strategy : string).

Record Stats := mkStats {
  challenges_won : nat;
  challenges_lost : nat;
  cards_lost : nat;
  skulls_played : nat;
  roses_played : nat
}.

Record Player := mkPlayer {
  cls : PlayerClass;
  name : string;
  is_ai : bool;
  hand : list Card;
  played_cards : list Card;   (* the stack; its top is the END of the list *)
  rounds_won : nat;
  is_eliminated : bool;
  has_passed : bool;
  stats : Stats
}.

Definition set_hand (h : list Card) (p : Player) : Player :=
  mkPlayer (cls p) (name p) (is_ai p) h (played_cards p) (rounds_won p)
           (is_eliminated p) (has_passed p) (stats p).
Definition set_played_cards (s : list Card) (p : Player) : Player :=
  mkPlayer (cls p) (name p) (is_ai p) (hand p) s (rounds_won p)
           (is_eliminated p) (has_passed p) (stats p).
Definition set_rounds_won (n : nat) (p : Player) : Player :=
  mkPlayer (cls p) (name p) (is_ai p) (hand p) (played_cards p) n
           (is_eliminated p) (has_passed p) (stats p).
Definition set_is_eliminated (b : bool) (p : Player) : Player :=
  mkPlayer (cls p) (name p) (is_ai p) (hand p) (played_cards p) (rounds_won p)
           b (has_passed p) (stats p).
Definition set_has_passed (b : bool) (p : Player) : Player :=
  mkPlayer (cls p) (name p) (is_ai p) (hand p) (played_cards p) (rounds_won p)
           (is_eliminated p) b (stats p).
Definition set_stats (s : Stats) (p : Player) : Player :=
  mkPlayer (cls p) (name p) (is_ai p) (hand p) (played_cards p) (rounds_won p)
           (is_eliminated p) (has_passed p) s.

Definition incr_challenges_won (s : Stats) : Stats :=
  mkStats (S (challenges_won s)) (challenges_lost s) (cards_lost s)
          (skulls_played s) (roses_played s).
Definition incr_challenges_lost (s : Stats) : Stats :=
  mkStats (challenges_won s) (S (challenges_lost s)) (cards_lost s)
          (skulls_played s) (roses_played s).
Definition incr_cards_lost (s : Stats) : Stats :=
  mkStats (challenges_won s) (challenges_lost s) (S (cards_lost s))
          (skulls_played s) (roses_played s).
Definition incr_skulls_played (s : Stats) : Stats :=
  mkStats (challenges_won s) (challenges_lost s) (cards_lost s)
          (S (skulls_played s)) (roses_played s).
Definition incr_roses_played (s : Stats) : Stats :=
  mkStats (challenges_won s) (challenges_lost s) (cards_lost s)
          (skulls_played s) (S (roses_played s)).

Definition zero_stats : Stats := mkStats 0 0 0 0 0.

(** [Player.__init__]: four fresh card objects, three roses and a skull.
    [fresh] is the identity of the first of them. *)
Definition Player_init (c : PlayerClass) (nm : string) (ai : bool)
    (fresh : nat) : Player :=
  mkPlayer c nm ai
    [mkCard fresh ROSE; mkCard (fresh + 1) ROSE; mkCard (fresh + 2) ROSE;
     mkCard (fresh + 3) SKULL]
    [] 0 false false zero_stats.

(** [InteractiveHumanPlayer(name)] and [SimpleAIPlayer(name, strategy)]. *)
Definition InteractiveHumanPlayer_init (nm : string) (fresh : nat) : Player :=
  Player_init InteractiveHumanPlayer nm false fresh.
Definition SimpleAIPlayer_init (nm strategy : string) (fresh : nat) : Player :=
  Player_init (SimpleAIPlayer strategy) nm true fresh.

Definition add_card_to_hand (card : Card) (p : Player) : Player :=
  set_hand (hand p ++ [card]) p.

(** [Player.play_card]: the returned boolean and the player afterwards. *)
Definition play_card (card : Card) (p : Player) : bool * Player :=
  if bool_decide (card ∈ hand p) then
    match remove_first card (hand p) with
    | Some h =>
        let p1 := set_played_cards (played_cards p ++ [card]) (set_hand h p) in
        let p2 :=
          if is_skull card
          then set_stats (incr_skulls_played (stats p1)) p1
          else set_stats (incr_roses_played (stats p1)) p1 in
        (true, p2)
    | None => (false, p)   (* not reached: [card] is in the hand *)
    end
  else (false, p).

Definition retrieve_cards (p : Player) : Player :=
  set_played_cards [] (set_hand (hand p ++ played_cards p) p).

(** [random.choice(seq)] for the draw [r]: some element of a non-empty
    sequence; [None] stands for the [IndexError] on an empty one. *)
Definition random_choice {A} (r : nat) (l : list A) : option A :=
  l !! (r mod length l).

(** The common tail of [lose_random_card] and [lose_chosen_card]. *)
Definition lose_card (card : Card) (p : Player) : option Card * Player :=
  match remove_first card (hand p) with
  | Some h =>
      let p1 := set_stats (incr_cards_lost (stats p)) (set_hand h p) in
      let p2 := if bool_decide (length h = 0)
                then set_is_eliminated true p1 else p1 in
      (Some card, p2)
  | None => (None, p)
  end.

Definition lose_random_card (r : nat) (p : Player) : option Card * Player :=
  match hand p with
  | [] => (None, p)
  | _ :: _ =>
      match random_choice r (hand p) with
      | Some card => lose_card card p
      | None => (None, p)   (* not reached: the hand is not empty *)
      end
  end.

Definition lose_chosen_card (card : Card) (p : Player) : option Card * Player :=
  if bool_decide (card ∈ hand p) then lose_card card p else (None, p).

Definition has_cards_to_play (p : Player) : bool :=
  bool_decide (0 < length (hand p)).

Definition cards_played_count (p : Player) : nat := length (played_cards p).

Definition has_skull_in_hand (p : Player) : bool := existsb is_skull (hand p).

Definition count_roses_in_hand (p : Player) : nat :=
  length (filter (λ c, card_type c = ROSE) (hand p)).

Definition reset_for_new_round (p : Player) : Player := set_has_passed false p.

(** ** The environment: typed lines and random draws *)

(** What a prompt makes of the line it reads ([input(...).strip()], compared
    case-insensitively, or handed to [int]). *)
Inductive Token :=
  | Tquit            (* q or quit *)
  | Tp               (* the letter p *)
  | Tb               (* the letter b *)
  | Tpass            (* the word pass *)
  | Tint (z : Z)     (* text that [int] accepts, with its value *)
  | Tother.          (* anything else: [int] raises ValueError *)

(** One call of [input]: a line, or Ctrl-C ([KeyboardInterrupt]).  Standard
    input is a terminal that is never closed. *)
Inductive Input := Line (t : Token) | CtrlC.

Record Env := mkEnv {
  stdin : list Input;     (* the lines still to come *)
  rng : nat → nat;        (* the draws of the random module *)
  rpos : nat              (* how many draws were consumed *)
}.

Inductive Exc := ValueError | AttributeError | IndexError | KeyboardInterrupt.

(** The result of running a piece of code from a state [S]: it returns, it
    raises (the mutations done so far stay), or it waits for a line that
    never comes. *)
Inductive Outcome (S A : Type) :=
  | Ret (a : A) (s : S)
  | Raise (e : Exc) (s : S)
  | Blocked.
Arguments Ret {S A} a s.
Arguments Raise {S A} e s.
Arguments Blocked {S A}.

Definition M (S A : Type) : Type := S → Outcome S A.

Definition ret {S A} (a : A) : M S A := λ s, Ret a s.
Definition raise {S A} (e : Exc) : M S A := λ s, Raise e s.
Definition bind {S A B} (m : M S A) (k : A → M S B) : M S B :=
  λ s, match m s with
       | Ret a s' => k a s'
       | Raise e s' => Raise e s'
       | Blocked => Blocked
       end.

Notation "'let!' x ':=' m 'in' k" := (bind m (λ x, k))
  (at level 10, x name, m at level 100, k at level 200).
Notation "'do!' m 'in' k" := (bind m (λ _, k))
  (at level 10, m at level 100, k at level 200).

(** The next draw of the generator. *)
Definition draw : M Env nat :=
  λ e, Ret (rng e (rpos e)) (mkEnv (stdin e) (rng e) (S (rpos e))).

(** [random.random() < p] for a probability of [p] hundredths: the draw is
    read as the hundredths digit pair of a number of [0, 1). *)
Definition random_lt (p : nat) : M Env bool :=
  let! r := draw in ret (bool_decide (r mod 100 < p)).

(** [random.choice(l)] on a sequence known to be non-empty; [d] is never
    returned then. *)
Definition choice {A} (d : A) (l : list A) : M Env A :=
  let! r := draw in ret (default d (random_choice r l)).

(** ** [InteractiveHumanPlayer] *)

(** The snapshot of [get_game_state_info]. *)
Record GameInfo := mkGameInfo {
  gi_cards_in_hand : nat;
  gi_has_skull : bool;
  gi_roses_in_hand : nat;
  gi_cards_played : nat;
  gi_total_cards_on_table : nat;
  gi_active_players : nat;
  gi_current_bid : Z;
  gi_rounds_won : nat
}.

(** [self.hand[card_index]] for [card_index = int(choice) - 1], under the
    test [0 <= card_index < len(self.hand)]. *)
Definition card_at (h : list Card) (z : Z) : option Card :=
  let card_index := (z - 1)%Z in
  if bool_decide (0 ≤ card_index < Z.of_nat (length h))%Z
  then h !! Z.to_nat card_index else None.

(** [display_hand]: the owner named in the heading, and the numbered lines,
    each as the number printed and the kind of card named beside it. *)
Definition display_hand (p : Player) : string * list (nat * CardType) :=
  (name p, imap (λ i card, (i + 1, card_type card)) (hand p)).

(** The prompt loop of [choose_card_to_play]; [None] is the quit signal. *)
Fixpoint human_card_prompt (h : list Card) (ins : list Input)
    : option (option Card * list Input) :=
  match ins with
  | [] => None
  | CtrlC :: rest => Some (None, rest)
  | Line Tquit :: rest => Some (None, rest)
  | Line (Tint z) :: rest =>
      match card_at h z with
      | Some c => Some (Some c, rest)
      | None => human_card_prompt h rest
      end
  | Line _ :: rest => human_card_prompt h rest
  end.

Definition with_stdin (e : Env) (ins : list Input) : Env :=
  mkEnv ins (rng e) (rpos e).

Definition human_choose_card_to_play (p : Player) : M Env (option Card) :=
  λ e, match hand p with
       | [] => Ret None e
       | _ :: _ =>
           match human_card_prompt (hand p) (stdin e) with
           | Some (c, rest) => Ret c (with_stdin e rest)
           | None => Blocked
           end
       end.

(** [decide_play_or_bid]: Ctrl-C is not caught here. *)
Fixpoint human_decide_prompt (ins : list Input)
    : option ((Exc + bool) * list Input) :=
  match ins with
  | [] => None
  | CtrlC :: rest => Some (inl KeyboardInterrupt, rest)
  | Line Tp :: rest => Some (inr false, rest)
  | Line Tb :: rest => Some (inr true, rest)
  | Line Tquit :: rest => Some (inr true, rest)
  | Line _ :: rest => human_decide_prompt rest
  end.

Definition human_decide_play_or_bid : M Env bool :=
  λ e, match human_decide_prompt (stdin e) with
       | Some (inr b, rest) => Ret b (with_stdin e rest)
       | Some (inl x, rest) => Raise x (with_stdin e rest)
       | None => Blocked
       end.

(** The prompt loop of [make_bid]; [None] is a pass, also on quit. *)
Fixpoint human_bid_prompt (current_bid max_possible : Z) (ins : list Input)
    : option (option Z * list Input) :=
  match ins with
  | [] => None
  | CtrlC :: rest => Some (None, rest)
  | Line Tp :: rest | Line Tpass :: rest => Some (None, rest)
  | Line Tquit :: rest => Some (None, rest)
  | Line (Tint bid) :: rest =>
      if bool_decide (current_bid < bid ≤ max_possible)%Z
      then Some (Some bid, rest)
      else human_bid_prompt current_bid max_possible rest
  | Line _ :: rest => human_bid_prompt current_bid max_possible rest
  end.

Definition human_make_bid (current_bid max_possible : Z) : M Env (option Z) :=
  λ e, match human_bid_prompt current_bid max_possible (stdin e) with
       | Some (b, rest) => Ret b (with_stdin e rest)
       | None => Blocked
       end.

(** The prompt loop of [choose_card_to_lose]: [inl tt] asks for the random
    fallback taken on quit and on Ctrl-C. *)
Fixpoint human_lose_prompt (h : list Card) (ins : list Input)
    : option ((unit + Card) * list Input) :=
  match ins with
  | [] => None
  | CtrlC :: rest => Some (inl tt, rest)
  | Line Tquit :: rest => Some (inl tt, rest)
  | Line (Tint z) :: rest =>
      match card_at h z with
      | Some c => Some (inr c, rest)
      | None => human_lose_prompt h rest
      end
  | Line _ :: rest => human_lose_prompt h rest
  end.

Definition human_choose_card_to_lose (p : Player) : M Env (option Card) :=
  λ e, match hand p with
       | [] => Ret None e
       | c0 :: _ =>
           match human_lose_prompt (hand p) (stdin e) with
           | Some (inr c, rest) => Ret (Some c) (with_stdin e rest)
           | Some (inl _, rest) =>
               (let! c := choice c0 (hand p) in ret (Some c)) (with_stdin e rest)
           | None => Blocked
           end
       end.

(** ** [SimpleAIPlayer] *)

Definition skull_prob (strategy : string) : nat :=
  if decide (strategy = "aggressive"%string) then 40
  else if decide (strategy = "conservative"%string) then 20
  else 30.

Definition ai_choose_card_to_play (strategy : string) (p : Player)
    : M Env (option Card) :=
  match hand p with
  | [] => ret None
  | c0 :: _ =>
      let skulls := filter (λ c, card_type c = SKULL) (hand p) in
      let roses := filter (λ c, card_type c = ROSE) (hand p) in
      let! lt := random_lt (skull_prob strategy) in
      if lt && bool_decide (skulls ≠ []) then
        let! c := choice c0 skulls in ret (Some c)
      else if bool_decide (roses ≠ []) then
        let! c := choice c0 roses in ret (Some c)
      else
        let! c := choice c0 (hand p) in ret (Some c)
  end.

Definition bid_probability (strategy : string) (total_cards : nat) : nat :=
  if decide (strategy = "aggressive"%string) then 40 + total_cards * 5
  else if decide (strategy = "conservative"%string) then 20 + total_cards * 3
  else 30 + total_cards * 4.

Definition ai_decide_play_or_bid (strategy : string) (gi : GameInfo)
    : M Env bool :=
  random_lt (bid_probability strategy (gi_total_cards_on_table gi)).

Definition raise_prob (strategy : string) : nat :=
  if decide (strategy = "aggressive"%string) then 50
  else if decide (strategy = "conservative"%string) then 30
  else 40.

Definition ai_make_bid (strategy : string) (current_bid max_possible : Z)
    : M Env (option Z) :=
  if bool_decide (max_possible ≤ current_bid)%Z then ret None
  else
    let! lt := random_lt (raise_prob strategy) in
    if lt then ret (Some (Z.min (current_bid + 1) max_possible)) else ret None.

(** ** The game controller [InteractiveSkullGame] *)

(** The messages handed to [log], one constructor per call site. *)
Inductive LogMsg :=
  | LInitialPlacementPhase
  | LNotEnoughActive
  | LNoCardsEliminated (who : string)
  | LPlacedCard (who : string)
  | LNotEnoughRemaining
  | LAllPlaced
  | LPlayedAnother (who : string) (count : nat)
  | LMustStartBidding (who : string)
  | LBiddingStarted (who : string)
  | LTotalOnTable (n : nat)
  | LBids (who : string) (bid : Z)
  | LPasses (who : string)
  | LIsChallenger (who : string) (bid : Z)
  | LChallengePhase
  | LMustReveal (who : string) (bid : Z)
  | LRevealed (t : CardType)
  | LSkullRevealed
  | LRevealedFrom (who : string) (t : CardType)
  | LChallengeSucceeded (bid : Z)
  | LOwnSkullLoses (who : string)
  | LOtherSkullLoses (revealer who : string)
  | LEliminated (who : string)
  | LWinsRound (who : string) (rounds : nat)
  | LWinsGame (who : string)
  | LWinsByElimination (who : string)
  | LNoRemainingPlayers
  | LStartingRound (n : nat).

Record GameStats := mkGameStats {
  total_rounds : nat;
  total_challenges : nat;
  successful_challenges : nat;
  eliminations : nat
}.

Record Game := mkGame {
  players : list Player;
  current_player_index : nat;
  game_state : GameState;
  current_bid : Z;
  challenger : option nat;
  skull_revealer : option nat;
  round_number : nat;
  game_log : list (nat * LogMsg);   (* "Round n: message" *)
  game_stats : GameStats
}.

Definition set_players (ps : list Player) (g : Game) : Game :=
  mkGame ps (current_player_index g) (game_state g) (current_bid g)
         (challenger g) (skull_revealer g) (round_number g) (game_log g)
         (game_stats g).
Definition set_current_player_index (i : nat) (g : Game) : Game :=
  mkGame (players g) i (game_state g) (current_bid g)
         (challenger g) (skull_revealer g) (round_number g) (game_log g)
         (game_stats g).
Definition set_game_state (s : GameState) (g : Game) : Game :=
  mkGame (players g) (current_player_index g) s (current_bid g)
         (challenger g) (skull_revealer g) (round_number g) (game_log g)
         (game_stats g).
Definition set_current_bid (b : Z) (g : Game) : Game :=
  mkGame (players g) (current_player_index g) (game_state g) b
         (challenger g) (skull_revealer g) (round_number g) (game_log g)
         (game_stats g).
Definition set_challenger (c : option nat) (g : Game) : Game :=
  mkGame (players g) (current_player_index g) (game_state g) (current_bid g)
         c (skull_revealer g) (round_number g) (game_log g) (game_stats g).
Definition set_skull_revealer (c : option nat) (g : Game) : Game :=
  mkGame (players g) (current_player_index g) (game_state g) (current_bid g)
         (challenger g) c (round_number g) (game_log g) (game_stats g).
Definition set_round_number (n : nat) (g : Game) : Game :=
  mkGame (players g) (current_player_index g) (game_state g) (current_bid g)
         (challenger g) (skull_revealer g) n (game_log g) (game_stats g).
Definition set_game_log (l : list (nat * LogMsg)) (g : Game) : Game :=
  mkGame (players g) (current_player_index g) (game_state g) (current_bid g)
         (challenger g) (skull_revealer g) (round_number g) l (game_stats g).
Definition set_game_stats (s : GameStats) (g : Game) : Game :=
  mkGame (players g) (current_player_index g) (game_state g) (current_bid g)
         (challenger g) (skull_revealer g) (round_number g) (game_log g) s.

(** In-place mutation of the player object at position [i]. *)
Definition upd (i : nat) (f : Player → Player) (g : Game) : Game :=
  set_players (alter f i (players g)) g.

Definition log (m : LogMsg) (g : Game) : Game :=
  set_game_log (game_log g ++ [(round_number g, m)]) g.

(** [random.shuffle(x)]: for [i] from [len(x) - 1] down to [1], swap [x[i]]
    with [x[j]] for a drawn [j] of [0 .. i]. *)
Definition swap {A} (i j : nat) (l : list A) : list A :=
  match l !! i, l !! j with
  | Some a, Some b => <[j := a]> (<[i := b]> l)
  | _, _ => l
  end.

Fixpoint shuffle_from {A} (i : nat) (l : list A) : M Env (list A) :=
  match i with
  | 0 => ret l
  | S i' =>
      let! r := draw in
      shuffle_from i' (swap i (r mod (S i)) l)
  end.

Definition shuffle {A} (l : list A) : M Env (list A) :=
  shuffle_from (length l - 1) l.

(** [InteractiveSkullGame.__init__]. *)
Definition InteractiveSkullGame_init (ps : list Player) : M Env Game :=
  if bool_decide (length ps < 2) || bool_decide (6 < length ps)
  then raise ValueError
  else
    let! ps' := shuffle ps in
    ret (mkGame ps' 0 INITIAL_PLACEMENT 0%Z None None 1 []
                (mkGameStats 0 0 0 0)).

Definition get_current_player (g : Game) : option Player :=
  players g !! current_player_index g.

Definition eliminated_at (ps : list Player) (i : nat) : bool :=
  match ps !! i with
  | Some p => is_eliminated p
  | None => true
  end.

(** [get_active_players], as the positions of the players it returns. *)
Definition get_active_players (g : Game) : list nat :=
  filter (λ i, eliminated_at (players g) i = false)
         (seq 0 (length (players g))).

(** [next_player]: [left] is [len(self.players) - 1 - attempts]. *)
Fixpoint next_player_loop (left : nat) (ps : list Player) (idx : nat) : nat :=
  let idx' := (idx + 1) mod length ps in
  if eliminated_at ps idx' then
    match left with
    | 0 => idx'
    | S left' => next_player_loop left' ps idx'
    end
  else idx'.

Definition next_player (g : Game) : Game :=
  set_current_player_index
    (next_player_loop (length (players g) - 1) (players g)
                      (current_player_index g)) g.

Definition total_cards_on_table (g : Game) : nat :=
  sum_list ((λ p, length (played_cards p))
            <$> filter (λ p, is_eliminated p = false) (players g)).

Definition get_game_state_info (p : Player) (g : Game) : GameInfo :=
  mkGameInfo (length (hand p)) (has_skull_in_hand p) (count_roses_in_hand p)
             (length (played_cards p)) (total_cards_on_table g)
             (length (get_active_players g)) (current_bid g) (rounds_won p).

(** *** Running game code: the game and the environment together *)

Definition World : Type := Game * Env.

Definition get_game : M World Game := λ w, Ret (fst w) w.
Definition modify (f : Game → Game) : M World unit :=
  λ w, Ret tt (f (fst w), snd w).
Definition lift {A} (m : M Env A) : M World A :=
  λ w, match m (snd w) with
       | Ret a e => Ret a (fst w, e)
       | Raise x e => Raise x (fst w, e)
       | Blocked => Blocked
       end.

(** The player object at position [i]; a position outside the list names no
    object and ends the call like a stale index. *)
Definition player_at (i : nat) : M World Player :=
  λ w, match players (fst w) !! i with
       | Some p => Ret p w
       | None => Raise IndexError w
       end.

(** *** Phase 1: [initial_card_placement] *)

(** One iteration of the loop over [active_players]; [true] when the method
    returns from inside the loop (the player quit). *)
(** What [initial_card_placement] does with the card chosen by a player
    (the body of [if card:]). *)
Definition initial_apply (i : nat) (player : Player) (card : Card)
    : M World bool :=
  do! modify (upd i (λ p, snd (play_card card p))) in
  do! modify (log (LPlacedCard (name player))) in
  ret false.

Definition initial_place_one (i : nat) : M World bool :=
  let! player := player_at i in
  if negb (has_cards_to_play player) then
    do! modify (log (LNoCardsEliminated (name player))) in
    do! modify (upd i (set_is_eliminated true)) in
    ret false
  else
    let! g := get_game in
    let game_info := get_game_state_info player g in
    let place := initial_apply i player in
    match cls player with
    | InteractiveHumanPlayer =>
        let! card := lift (human_choose_card_to_play player) in
        match card with
        | None => do! modify (set_game_state GAME_OVER) in ret true
        | Some c => place c
        end
    | c =>
        if is_ai player then
          match c with
          | SimpleAIPlayer strategy =>
              let! card := lift (ai_choose_card_to_play strategy player) in
              match card with
              | Some c => place c
              | None => ret false
              end
          | _ => raise AttributeError   (* [Player] has no such method *)
          end
        else
          match hand player with
          | [] => ret false
          | c0 :: _ => let! card := lift (choice c0 (hand player)) in place card
          end
    end.

Fixpoint initial_loop (active : list nat) : M World bool :=
  match active with
  | [] => ret false
  | i :: rest =>
      let! returned := initial_place_one i in
      if returned then ret true else initial_loop rest
  end.

Definition initial_card_placement : M World unit :=
  do! modify (log LInitialPlacementPhase) in
  let! g := get_game in
  let active_players := get_active_players g in
  if bool_decide (length active_players < 2) then
    do! modify (log LNotEnoughActive) in
    modify (set_game_state GAME_OVER)
  else
    let! returned := initial_loop active_players in
    if returned then ret tt
    else
      let! g := get_game in
      if bool_decide (length (get_active_players g) < 2) then
        do! modify (log LNotEnoughRemaining) in
        modify (set_game_state GAME_OVER)
      else
        do! modify (set_game_state CARD_PLACEMENT) in
        modify (log LAllPlaced).

(** *** Phase 2: [card_placement_phase] and [start_bidding_phase] *)

Definition start_bidding_phase (g : Game) : Game :=
  let g1 := set_current_bid 1%Z (set_game_state BIDDING g) in
  match get_current_player g1 with
  | Some current_player =>
      let g2 := log (LBiddingStarted (name current_player)) g1 in
      let g3 := log (LTotalOnTable (total_cards_on_table g2)) g2 in
      let g4 := log (LBids (name current_player) (current_bid g3)) g3 in
      next_player g4
  | None => g1
  end.

(** What [card_placement_phase] does with the card chosen by the current
    player (from [if card:] on). *)
Definition placement_apply (i : nat) (current_player : Player)
    (card : option Card) : M World bool :=
  match card with
  | Some c =>
      do! modify (upd i (λ p, snd (play_card c p))) in
      let! cp := player_at i in
      do! modify (log (LPlayedAnother (name cp) (cards_played_count cp))) in
      do! modify next_player in
      ret true
  | None =>
      do! modify (log (LMustStartBidding (name current_player))) in
      do! modify start_bidding_phase in
      ret true
  end.

Definition card_placement_phase : M World bool :=
  let! g := get_game in
  if negb (bool_decide (game_state g = CARD_PLACEMENT)) then ret false
  else
    let i := current_player_index g in
    let! current_player := player_at i in
    if negb (has_cards_to_play current_player) then
      do! modify start_bidding_phase in ret true
    else
      let game_info := get_game_state_info current_player g in
      let! should_bid :=
        match cls current_player with
        | InteractiveHumanPlayer => lift human_decide_play_or_bid
        | SimpleAIPlayer strategy =>
            lift (ai_decide_play_or_bid strategy game_info)
        | BasePlayer => lift (random_lt 30)
        end in
      if should_bid then
        do! modify start_bidding_phase in ret true
      else
        let played := placement_apply i current_player in
        match cls current_player with
        | InteractiveHumanPlayer =>
            let! card := lift (human_choose_card_to_play current_player) in
            match card with
            | None => do! modify (set_game_state GAME_OVER) in ret false
            | Some c => played (Some c)
            end
        | SimpleAIPlayer strategy =>
            let! card := lift (ai_choose_card_to_play strategy current_player) in
            played card
        | BasePlayer =>
            match hand current_player with
            | [] => played None
            | c0 :: _ =>
                let! card := lift (choice c0 (hand current_player)) in
                played (Some card)
            end
        end.

(** *** Phase 3: [bidding_phase] *)

(** The bid decision of the current player: the answer of its [make_bid], or
    of the fallback for a player that has none. *)
Definition ask_bid (current_player : Player) (cur max_possible_bid : Z)
    : M Env (option Z) :=
  match cls current_player with
  | InteractiveHumanPlayer => human_make_bid cur max_possible_bid
  | SimpleAIPlayer strategy => ai_make_bid strategy cur max_possible_bid
  | BasePlayer =>
      let! lt := random_lt 40 in
      if lt && bool_decide (cur < max_possible_bid)%Z
      then ret (Some (cur + 1)%Z) else ret None
  end.

Definition passed_at (ps : list Player) (i : nat) : bool :=
  match ps !! i with
  | Some p => has_passed p
  | None => true
  end.

(** [[p for p in self.get_active_players() if not p.has_passed]]. *)
Definition active_bidders (g : Game) : list nat :=
  filter (λ i, passed_at (players g) i = false) (get_active_players g).

Definition incr_total_challenges (s : GameStats) : GameStats :=
  mkGameStats (total_rounds s) (S (total_challenges s))
              (successful_challenges s) (eliminations s).

(** What [bidding_phase] does with the answer [new_bid] of the current
    player (from [if new_bid is not None] on). *)
Definition bidding_apply (new_bid : option Z) (g : Game) : Game :=
  let i := current_player_index g in
  let who := default ""%string (name <$> get_current_player g) in
  let g1 :=
    match new_bid with
    | Some b => let g' := set_current_bid b g in
                log (LBids who (current_bid g')) g'
    | None => log (LPasses who) (upd i (set_has_passed true) g)
    end in
  match active_bidders g1 with
  | [c] =>
      let g2 := set_challenger (Some c) g1 in
      let cname := default ""%string (name <$> players g2 !! c) in
      let g3 := log (LIsChallenger cname (current_bid g2)) g2 in
      let g4 := set_game_state CHALLENGE g3 in
      set_game_stats (incr_total_challenges (game_stats g4)) g4
  | _ => next_player g1
  end.

Definition bidding_phase : M World bool :=
  let! g := get_game in
  if negb (bool_decide (game_state g = BIDDING)) then ret false
  else
    let! current_player := player_at (current_player_index g) in
    if has_passed current_player then
      do! modify next_player in ret true
    else
      let max_possible_bid := Z.of_nat (total_cards_on_table g) in
      let! new_bid :=
        lift (ask_bid current_player (current_bid g) max_possible_bid) in
      do! modify (bidding_apply new_bid) in
      ret true.

(** *** Round reset: [start_new_round] *)

Definition set_total_rounds (n : nat) (s : GameStats) : GameStats :=
  mkGameStats n (total_challenges s) (successful_challenges s)
              (eliminations s).

(** The loop [while self.players[i].is_eliminated: i = (i + 1) % len] from
    [i = 0], run where an active player exists: the first such position. *)
Fixpoint first_active (ps : list Player) (idx : nat) : nat :=
  match ps with
  | [] => idx
  | p :: ps' => if is_eliminated p then first_active ps' (S idx) else idx
  end.

Definition start_new_round (g : Game) : Game :=
  let g1 := set_round_number (round_number g + 1) g in
  let g2 := set_game_stats
              (set_total_rounds (round_number g1 - 1) (game_stats g1)) g1 in
  let g3 := set_players (reset_for_new_round <$> players g2) g2 in
  let active_players := get_active_players g3 in
  if bool_decide (length active_players ≤ 1) then
    let g4 :=
      match active_players with
      | i :: _ =>
          log (LWinsByElimination
                 (default ""%string (name <$> players g3 !! i))) g3
      | [] => log LNoRemainingPlayers g3
      end in
    set_game_state GAME_OVER g4
  else
    let idx :=
      match challenger g3 with
      | Some c =>
          if negb (eliminated_at (players g3) c) then c
          else first_active (players g3) 0
      | None => first_active (players g3) 0
      end in
    let g4 := set_current_player_index idx g3 in
    let g5 := set_current_bid 0%Z g4 in
    let g6 := set_challenger None g5 in
    let g7 := set_skull_revealer None g6 in
    let g8 := set_game_state INITIAL_PLACEMENT g7 in
    log (LStartingRound (round_number g8)) g8.

(** *** Phase 4: [challenge_phase] and its two outcomes *)

(** [self.challenger] as a usable reference: [None] has no attributes. *)
Definition the_challenger : M World nat :=
  λ w, match challenger (fst w) with
       | Some c =>
           match players (fst w) !! c with
           | Some _ => Ret c w
           | None => Raise AttributeError w
           end
       | None => Raise AttributeError w
       end.

Definition retrieve_all (g : Game) : Game :=
  set_players (retrieve_cards <$> players g) g.

Definition handle_successful_challenge : M World unit :=
  let! c := the_challenger in
  do! modify (upd c (λ p, set_rounds_won (rounds_won p + 1) p)) in
  let! ch := player_at c in
  do! modify (log (LWinsRound (name ch) (rounds_won ch))) in
  if bool_decide (2 ≤ rounds_won ch) then
    do! modify (log (LWinsGame (name ch))) in
    modify (set_game_state GAME_OVER)
  else
    do! modify retrieve_all in
    modify start_new_round.

(** [self.challenger.lose_random_card()]: a draw is made only for a
    non-empty hand. *)
Definition lose_random_card_of (c : nat) : M World unit :=
  let! ch := player_at c in
  match hand ch with
  | [] => ret tt
  | _ :: _ =>
      let! r := lift draw in
      modify (upd c (λ p, snd (lose_random_card r p)))
  end.

Definition incr_eliminations (s : GameStats) : GameStats :=
  mkGameStats (total_rounds s) (total_challenges s)
              (successful_challenges s) (S (eliminations s)).

(** The first block of [handle_failed_challenge]: the challenger [ch], at
    position [c], loses a card. *)
Definition challenger_loses_card (c : nat) (ch : Player) (g : Game)
    : M World unit :=
  if bool_decide (skull_revealer g = challenger g) then
    do! match cls ch with
        | InteractiveHumanPlayer =>
            let! lost_card := lift (human_choose_card_to_lose ch) in
            match lost_card with
            | Some card => modify (upd c (λ p, snd (lose_chosen_card card p)))
            | None => ret tt
            end
        | _ => lose_random_card_of c
        end in
    modify (log (LOwnSkullLoses (name ch)))
  else
    do! lose_random_card_of c in
    match skull_revealer g with
    | Some r =>
        let! rp := player_at r in
        modify (log (LOtherSkullLoses (name rp) (name ch)))
    | None => raise AttributeError
    end.

Definition handle_failed_challenge : M World unit :=
  let! c := the_challenger in
  let! ch := player_at c in
  let! g := get_game in
  do! challenger_loses_card c ch g in
  let! ch := player_at c in
  do! (if is_eliminated ch then
         do! modify (log (LEliminated (name ch))) in
         modify (λ g, set_game_stats (incr_eliminations (game_stats g)) g)
       else ret tt) in
  do! modify retrieve_all in
  modify start_new_round.

(** [stack.pop()]: the last element and the rest. *)
Definition pop {A} (l : list A) : option (A * list A) :=
  match last l with
  | Some x => Some (x, removelast l)
  | None => None
  end.

(** How the revealing loops end. *)
Inductive RevealEnd :=
  | Pending (cards_to_reveal : nat)   (* no skull so far *)
  | SkullSeen                         (* [handle_failed_challenge] is next *)
  | Crashed (e : Exc).

(** The cards revealed, in the order of their revealing, each with the
    position of the player whose stack it was popped from. *)
Abbreviation Trace := (list (nat * Card)) (only parsing).

(** The move of one reveal: [card = p.played_cards.pop()] and
    [p.hand.append(card)]. *)
Definition reveal_top (card : Card) (rest : list Card) (p : Player) : Player :=
  set_hand (hand p ++ [card]) (set_played_cards rest p).

(** The test of line 604, on the challenger after a reveal. *)
Definition count_check (p : Player) : bool :=
  bool_decide (length (hand p) + length (played_cards p)
               + challenges_lost (stats p) = 4).

(** The loop over the challenger's own stack.  [cards_to_reveal] starts as
    [current_bid]; only [cards_to_reveal > 0] is ever asked of it, so it is
    counted in naturals. *)
Fixpoint reveal_own (c : nat) (cards_to_reveal : nat) (g : Game)
    : Trace * RevealEnd * Game :=
  match cards_to_reveal with
  | 0 => ([], Pending 0, g)
  | S n =>
      match players g !! c with
      | None => ([], Crashed AttributeError, g)
      | Some ch =>
          match pop (played_cards ch) with
          | None => ([], Pending (S n), g)
          | Some (card, rest) =>
              let g1 := upd c (reveal_top card rest) g in
              if negb (count_check (reveal_top card rest ch)) then
                (* building the message of the ValueError reads [self.name],
                   which the game object does not have *)
                ([(c, card)], Crashed AttributeError, g1)
              else
                let g2 := log (LRevealed (card_type card)) g1 in
                if is_skull card then
                  let g3 := log LSkullRevealed g2 in
                  let g4 := set_skull_revealer (challenger g3) g3 in
                  let g5 := upd c (λ p, set_stats
                                    (incr_challenges_lost (stats p)) p) g4 in
                  ([(c, card)], SkullSeen, g5)
                else
                  let '(tr, e, g') := reveal_own c n g2 in
                  ((c, card) :: tr, e, g')
          end
      end
  end.

Definition has_played_at (ps : list Player) (i : nat) : bool :=
  match ps !! i with
  | Some p => bool_decide (played_cards p ≠ [])
  | None => false
  end.

(** [[p for p in active if p != self.challenger and p.played_cards]]. *)
Definition other_players (c : nat) (g : Game) : list nat :=
  filter (λ i, i ≠ c ∧ has_played_at (players g) i = true)
         (get_active_players g).

(** [other_players.remove(target_player)]. *)
Fixpoint remove_player (t : nat) (l : list nat) : list nat :=
  match l with
  | [] => []
  | i :: l' => if decide (i = t) then l' else i :: remove_player t l'
  end.

(** The loop over the other players' stacks. *)
Fixpoint reveal_others (c : nat) (cards_to_reveal : nat) (others : list nat)
    (g : Game) : M Env (Trace * RevealEnd * Game) :=
  match cards_to_reveal with
  | 0 => ret ([], Pending 0, g)
  | S n =>
      match others with
      | [] => ret ([], Pending (S n), g)
      | o0 :: _ =>
          let! target := choice o0 others in
          match players g !! target with
          | None => ret ([], Crashed IndexError, g)
          | Some tp =>
              match pop (played_cards tp) with
              | None => ret ([], Crashed IndexError, g)
              | Some (card, rest) =>
                  let g1 := upd target (reveal_top card rest) g in
                  let g2 := log (LRevealedFrom (name tp) (card_type card)) g1 in
                  if is_skull card then
                    let g3 := log LSkullRevealed g2 in
                    let g4 := set_skull_revealer (Some target) g3 in
                    let g5 := upd c (λ p, set_stats
                                      (incr_challenges_lost (stats p)) p) g4 in
                    ret ([(target, card)], SkullSeen, g5)
                  else
                    let others' :=
                      match rest with
                      | [] => remove_player target others
                      | _ :: _ => others
                      end in
                    let! r := reveal_others c n others' g2 in
                    let '(tr, e, g') := r in
                    ret ((target, card) :: tr, e, g')
              end
          end
      end
  end.

(** Challenge resolution proper: from [cards_to_reveal = self.current_bid]
    to the call of one of the two handlers. *)
Definition resolve (c : nat) (g : Game) : M Env (Trace * RevealEnd * Game) :=
  let '(tr, e, g1) := reveal_own c (Z.to_nat (current_bid g)) g in
  match e with
  | Pending n =>
      let! r := reveal_others c n (other_players c g1) g1 in
      let '(tr', e', g2) := r in
      ret (tr ++ tr', e', g2)
  | _ => ret (tr, e, g1)
  end.

Definition incr_successful_challenges (s : GameStats) : GameStats :=
  mkGameStats (total_rounds s) (total_challenges s)
              (S (successful_challenges s)) (eliminations s).

Definition challenge_phase : M World bool :=
  let! g := get_game in
  if negb (bool_decide (game_state g = CHALLENGE)) then ret false
  else
    let! c := the_challenger in
    let! ch := player_at c in
    do! modify (log LChallengePhase) in
    do! modify (log (LMustReveal (name ch) (current_bid g))) in
    let! g := get_game in
    let! r := lift (resolve c g) in
    let '(_, e, g') := r in
    do! modify (λ _, g') in
    match e with
    | Crashed x => raise x
    | SkullSeen => do! handle_failed_challenge in ret true
    | Pending _ =>
        do! modify (log (LChallengeSucceeded (current_bid g'))) in
        do! modify (upd c (λ p, set_stats (incr_challenges_won (stats p)) p)) in
        do! modify (λ g, set_game_stats
                           (incr_successful_challenges (game_stats g)) g) in
        do! handle_successful_challenge in
        ret true
    end.

(** *** The driver: [play_turn] and [play_interactive_game] *)

Definition someone_won (g : Game) : bool :=
  existsb (λ p, bool_decide (2 ≤ rounds_won p)) (players g).

Definition set_world_state (s : GameState) (w : World) : World :=
  (set_game_state s (fst w), snd w).

(** The phase methods as [play_turn] calls them: their result is dropped. *)
Definition run_phase (s : GameState) : M World unit :=
  match s with
  | INITIAL_PLACEMENT => initial_card_placement
  | CARD_PLACEMENT => do! card_placement_phase in ret tt
  | BIDDING => do! bidding_phase in ret tt
  | CHALLENGE => do! challenge_phase in ret tt
  | GAME_OVER => ret tt
  end.

Definition play_turn : M World bool :=
  λ w,
    if bool_decide (game_state (fst w) = GAME_OVER) then Ret false w
    else
      match run_phase (game_state (fst w)) w with
      | Raise KeyboardInterrupt w' => Ret false (set_world_state GAME_OVER w')
      | Raise e w' => Raise e w'
      | Blocked => Blocked
      | Ret _ w' =>
          if someone_won (fst w')
          then Ret false (set_world_state GAME_OVER w')
          else Ret (negb (bool_decide (game_state (fst w') = GAME_OVER))) w'
      end.

(** [max(active_players, key=lambda p: p.rounds_won)]: the first player
    with the greatest count. *)
Fixpoint max_rounds_won (best : Player) (l : list Player) : Player :=
  match l with
  | [] => best
  | p :: l' =>
      if bool_decide (rounds_won best < rounds_won p)
      then max_rounds_won p l' else max_rounds_won best l'
  end.

(** What [print_final_results] announces: the winner line (the name, and
    whether it is a win by rounds rather than by elimination) and the game
    statistics. *)
Record FinalResults := mkFinalResults {
  winner_line : option (string * bool);
  reported_stats : GameStats
}.

Definition print_final_results (g : Game) : FinalResults :=
  let active_players := filter (λ p, is_eliminated p = false) (players g) in
  mkFinalResults
    match active_players with
    | [] => None
    | p :: l =>
        let winner := max_rounds_won p l in
        Some (name winner, bool_decide (2 ≤ rounds_won winner))
    end
    (game_stats g).

(** How [play_interactive_game] ends. *)
Inductive Ending :=
  | Reported (turn_limit : bool) (r : FinalResults) (w : World)
  | GameError (e : Exc) (w : World)   (* [except Exception]: no results *)
  | Interrupted (w : World)           (* [except KeyboardInterrupt] *)
  | Waiting.                          (* a prompt is never answered *)

Definition max_turns : nat := 500.

(** The loop [while self.play_turn() and turn_count < max_turns]; [left] is
    [max_turns - turn_count].  The result tells whether
    [turn_count >= max_turns] holds after the loop. *)
Fixpoint game_loop (left : nat) (w : World) : Outcome World bool :=
  match play_turn w with
  | Ret true w' =>
      match left with
      | 0 => Ret true w'
      | S left' =>
          if bool_decide (game_state (fst w') = GAME_OVER)
          then Ret (bool_decide (left' = 0)) w'
          else game_loop left' w'
      end
  | Ret false w' => Ret (bool_decide (left = 0)) w'
  | Raise e w' => Raise e w'
  | Blocked => Blocked
  end.

Definition play_interactive_game (w : World) : Ending :=
  match game_loop max_turns w with
  | Ret limit w' => Reported limit (print_final_results (fst w')) w'
  | Raise KeyboardInterrupt w' => Interrupted w'
  | Raise e w' => GameError e w'
  | Blocked => Waiting
  end.

(** [create_interactive_game]: the sample table of one human and three
    programmed players, built and played.  The sixteen card objects are
    created in the order of the list.  An exception of the constructor
    is not caught here ([inl]). *)
Definition create_interactive_game (e : Env) : Exc + Ending :=
  let players :=
    [InteractiveHumanPlayer_init "Human Player" 0;
     SimpleAIPlayer_init "AI Alice" "balanced" 4;
     SimpleAIPlayer_init "AI Bob" "aggressive" 8;
     SimpleAIPlayer_init "AI Charlie" "conservative" 12] in
  match InteractiveSkullGame_init players e with
  | Ret game e' => inr (play_interactive_game (game, e'))
  | Raise x _ => inl x
  | Blocked => inr Waiting
  end.

(** ** Sample players and games *)

Definition sample_env (ins : list Input) : Env := mkEnv ins (λ n, n) 0.

Definition ann : Player := InteractiveHumanPlayer_init "Ann" 0.
Definition bob : Player := SimpleAIPlayer_init "Bob" "aggressive" 4.
Definition cat : Player := SimpleAIPlayer_init "Cat" "conservative" 8.

Definition sample_game (ps : list Player) (i : nat) (s : GameState) (bid : Z)
    (ch : option nat) : Game :=
  mkGame ps i s bid ch None 1 [] (mkGameStats 0 0 0 0).

(** The player after putting down the cards at positions [ks] of the hand,
    one after the other. *)
Fixpoint plays (ks : list nat) (p : Player) : Player :=
  match ks with
  | [] => p
  | k :: ks' =>
      match hand p !! k with
      | Some c => plays ks' (snd (play_card c p))
      | None => p
      end
  end.

(** A table for a challenge: Ann has put down a rose; Bob his skull and
    then a rose on top of it; Cat a rose. *)
Definition table : list Player :=
  [plays [0] ann; plays [3; 0] bob; plays [0] cat].

(** * Properties *)

(** ** Properties of [remove_first] *)

Lemma remove_first_Some (x : Card) (l : list Card) :
  x ∈ l →
  ∃ l1 l2, l = l1 ++ (x :: l2) ∧ (x ∉ l1) ∧ remove_first x l = Some (l1 ++ l2).
Proof.
  induction l as [|y l IH]; intros Hin.
  - by apply elem_of_nil in Hin.
  - simpl. destruct (decide (y = x)) as [->|Hne].
    + exists [], l. split; [done|]. split; [apply not_elem_of_nil | done].
    + apply elem_of_cons in Hin as [->|Hin]; [done|].
      destruct (IH Hin) as (l1 & l2 & -> & Hnot & ->).
      exists (y :: l1), l2. split; [done|]. split; [|done].
      intros [->|?]%elem_of_cons; done.
Qed.

Lemma remove_first_None (x : Card) (l : list Card) : x ∉ l → remove_first x l = None.
Proof.
  induction l as [|y l IH]; intros Hnot; [done|].
  simpl. destruct (decide (y = x)) as [->|Hne].
  - exfalso. apply Hnot. by left.
  - rewrite IH; [done|]. intros ?. apply Hnot. by right.
Qed.

Lemma remove_first_length x l r :
  remove_first x l = Some r → length l = S (length r).
Proof.
  revert r. induction l as [|y l IH]; intros r; simpl; [done|].
  destruct (decide (y = x)); [by intros [= <-]|].
  destruct (remove_first x l) eqn:E; [|done].
  intros [= <-]. simpl. by rewrite (IH _ eq_refl).
Qed.

(** ** [Player.play_card] *)

(** C10. [play_card] is all or nothing.  A card object that is in the hand:
    the call returns [True], the first occurrence of that object leaves the
    hand, the object is put on top of the played stack, one of the two
    played-cards counters goes up by one, and nothing else changes.  A card
    object that is not in the hand: the call returns [False] and the player
    is left as it was, hand, stack and statistics included. *)
Theorem play_card_atomic (p : Player) (card : Card) :
  (card ∈ hand p →
   ∃ l1 l2,
     hand p = l1 ++ (card :: l2) ∧ (card ∉ l1) ∧
     fst (play_card card p) = true ∧
     hand (snd (play_card card p)) = l1 ++ l2 ∧
     played_cards (snd (play_card card p)) = played_cards p ++ [card] ∧
     stats (snd (play_card card p)) =
       (if is_skull card then incr_skulls_played (stats p)
        else incr_roses_played (stats p)) ∧
     cls (snd (play_card card p)) = cls p ∧
     name (snd (play_card card p)) = name p ∧
     is_ai (snd (play_card card p)) = is_ai p ∧
     rounds_won (snd (play_card card p)) = rounds_won p ∧
     is_eliminated (snd (play_card card p)) = is_eliminated p ∧
     has_passed (snd (play_card card p)) = has_passed p) ∧
  (card ∉ hand p → play_card card p = (false, p)).
Proof.
  split.
  - intros Hin. destruct (remove_first_Some _ _ Hin) as (l1 & l2 & Hh & Hnot & Hr).
    exists l1, l2. unfold play_card.
    rewrite bool_decide_eq_true_2 by done. rewrite Hr.
    destruct (is_skull card); simpl; repeat split; done.
  - intros Hnot. unfold play_card. by rewrite bool_decide_eq_false_2.
Qed.

(** A run of [play_card] on both sides of the boundary. *)
Example play_card_runs :
  let p := Player_init BasePlayer "Ann" false 0 in
  fst (play_card (mkCard 3 SKULL) p) = true ∧
  played_cards (snd (play_card (mkCard 3 SKULL) p)) = [mkCard 3 SKULL] ∧
  length (hand (snd (play_card (mkCard 3 SKULL) p))) = 3 ∧
  play_card (mkCard 9 ROSE) p = (false, p).
Proof. repeat split. Qed.

(** ** Construction of a game *)

Lemma swap_Permutation {A} (i j : nat) (l : list A) : swap i j l ≡ₚ l.
Proof.
  unfold swap. destruct (l !! i) eqn:Hi; [|done].
  destruct (l !! j) eqn:Hj; [|done].
  by apply Permutation_insert_swap.
Qed.

Lemma shuffle_from_returns {A} (i : nat) (l : list A) (e : Env) :
  ∃ l', shuffle_from i l e = Ret l' (mkEnv (stdin e) (rng e) (rpos e + i))
        ∧ l' ≡ₚ l.
Proof.
  revert l e. induction i as [|i IH]; intros l e.
  - exists l. split; [|done]. simpl. unfold ret.
    destruct e as [ins r n]; simpl. by rewrite Nat.add_0_r.
  - cbn [shuffle_from]. unfold bind, draw.
    destruct (IH (swap (S i) (rng e (rpos e) mod S (S i)) l)
                 (mkEnv (stdin e) (rng e) (S (rpos e)))) as (l' & Hl' & Hp).
    exists l'. split.
    + cbv beta iota. rewrite Hl'. cbn [stdin rng rpos]. do 2 f_equal. lia.
    + rewrite Hp. apply swap_Permutation.
Qed.

(** C6. A list of fewer than two or of more than six players makes the
    constructor raise [ValueError] at once, with no game object built; any
    list of two to six players yields a game, in the initial-placement
    phase of round 1, whose players are the given ones in a shuffled
    order. *)
Theorem init_checks_player_count (ps : list Player) (e : Env) :
  (length ps < 2 ∨ 6 < length ps →
   InteractiveSkullGame_init ps e = Raise ValueError e) ∧
  (2 ≤ length ps ≤ 6 →
   ∃ g e', InteractiveSkullGame_init ps e = Ret g e' ∧
           players g ≡ₚ ps ∧
           game_state g = INITIAL_PLACEMENT ∧
           current_player_index g = 0 ∧ current_bid g = 0%Z ∧
           challenger g = None ∧ skull_revealer g = None ∧
           round_number g = 1 ∧ game_log g = []).
Proof.
  unfold InteractiveSkullGame_init. split.
  - intros H.
    assert (bool_decide (length ps < 2) || bool_decide (6 < length ps) = true)
      as ->; [|done].
    apply orb_true_iff. destruct H; [left|right]; by apply bool_decide_eq_true.
  - intros [H2 H6].
    rewrite (bool_decide_eq_false_2 (length ps < 2)) by lia.
    rewrite (bool_decide_eq_false_2 (6 < length ps)) by lia. simpl.
    destruct (shuffle_from_returns (length ps - 1) ps e) as (l' & Hl' & Hp).
    unfold bind, shuffle. rewrite Hl'. eexists _, _. split; [reflexivity|].
    simpl. by repeat split.
Qed.

(** The constructor on one, on four and on seven players. *)
Example init_checks_player_count_runs :
  let e := mkEnv [] (λ n, n) 0 in
  let mk n := SimpleAIPlayer_init "p" "balanced" (4 * n) in
  InteractiveSkullGame_init [mk 0] e = Raise ValueError e ∧
  InteractiveSkullGame_init (mk <$> seq 0 7) e = Raise ValueError e ∧
  (∃ g e', InteractiveSkullGame_init (mk <$> seq 0 4) e = Ret g e'
           ∧ length (players g) = 4).
Proof. repeat split. eexists _, _. split; reflexivity. Qed.

(** ** Active players *)

Definition active_indices (ps : list Player) : list nat :=
  filter (λ i, eliminated_at ps i = false) (seq 0 (length ps)).

Lemma get_active_players_eq (g : Game) :
  get_active_players g = active_indices (players g).
Proof. done. Qed.

Lemma eliminated_at_fmap (f : Player → Player) (ps : list Player) (i : nat) :
  (∀ p, is_eliminated (f p) = is_eliminated p) →
  eliminated_at (f <$> ps) i = eliminated_at ps i.
Proof.
  intros Hf. unfold eliminated_at. rewrite list_lookup_fmap.
  destruct (ps !! i); simpl; [apply Hf | done].
Qed.

Lemma active_indices_fmap (f : Player → Player) (ps : list Player) :
  (∀ p, is_eliminated (f p) = is_eliminated p) →
  active_indices (f <$> ps) = active_indices ps.
Proof.
  intros Hf. unfold active_indices. rewrite length_fmap.
  apply list_filter_iff. intros i. by rewrite eliminated_at_fmap.
Qed.

Lemma active_indices_elem (ps : list Player) (i : nat) :
  i ∈ active_indices ps ↔ ∃ p, ps !! i = Some p ∧ is_eliminated p = false.
Proof.
  unfold active_indices. rewrite list_elem_of_filter, elem_of_seq.
  unfold eliminated_at. split.
  - intros [He _]. destruct (ps !! i) as [p|]; [eauto | done].
  - intros (p & Hp & He). rewrite Hp. split; [done|].
    apply lookup_lt_Some in Hp. lia.
Qed.

(** The scan of [first_active] finds the head of the active positions. *)
Lemma first_active_head (pre ps : list Player) (i : nat) (rest : list nat) :
  filter (λ i, eliminated_at (pre ++ ps) i = false)
         (seq (length pre) (length ps)) = i :: rest →
  first_active ps (length pre) = i.
Proof.
  revert pre. induction ps as [|p ps IH]; intros pre; simpl; [done|].
  rewrite filter_cons.
  assert (eliminated_at (pre ++ p :: ps) (length pre) = is_eliminated p) as He.
  { unfold eliminated_at. by rewrite list_lookup_middle. }
  destruct (decide _) as [Hd|Hd]; rewrite He in Hd.
  - rewrite Hd. by intros [= <- _].
  - apply not_false_is_true in Hd. rewrite Hd. intros H.
    specialize (IH (pre ++ [p])). rewrite length_app in IH. simpl in IH.
    rewrite Nat.add_1_r in IH. apply IH. by rewrite <- app_assoc.
Qed.

Lemma first_active_of_active (ps : list Player) (i : nat) (rest : list nat) :
  active_indices ps = i :: rest → first_active ps 0 = i.
Proof. intros H. by apply (first_active_head [] ps i rest). Qed.

(** ** Reasoning about runs *)

Lemma bind_Ret {S A B} (m : M S A) (k : A → M S B) (s s'' : S) (b : B) :
  bind m k s = Ret b s'' ↔ ∃ a s', m s = Ret a s' ∧ k a s' = Ret b s''.
Proof.
  unfold bind. split.
  - destruct (m s) as [a s'| |]; [eauto | done | done].
  - intros (a & s' & -> & H). done.
Qed.

Lemma bind_Raise {S A B} (m : M S A) (k : A → M S B) (s s'' : S) (x : Exc) :
  bind m k s = Raise x s'' ↔
  m s = Raise x s'' ∨ ∃ a s', m s = Ret a s' ∧ k a s' = Raise x s''.
Proof.
  unfold bind. split.
  - destruct (m s) as [a s'|y s'|]; [eauto | | done].
    intros [= -> ->]. by left.
  - intros [-> | (a & s' & -> & H)]; done.
Qed.

Lemma modify_Ret (f : Game → Game) (w w' : World) (u : unit) :
  modify f w = Ret u w' ↔ w' = (f (fst w), snd w).
Proof. unfold modify. destruct u. split; [by intros [= <-] | by intros ->]. Qed.

Lemma get_game_Ret (w w' : World) (g : Game) :
  get_game w = Ret g w' ↔ g = fst w ∧ w' = w.
Proof. unfold get_game. split; [by intros [= <- <-] | by intros [-> ->]]. Qed.

Lemma ret_Ret {S A} (a b : A) (s s' : S) :
  ret a s = Ret b s' ↔ a = b ∧ s = s'.
Proof. unfold ret. split; [by intros [= <- <-] | by intros [-> ->]]. Qed.

Lemma player_at_Ret (i : nat) (w w' : World) (p : Player) :
  player_at i w = Ret p w' ↔ players (fst w) !! i = Some p ∧ w' = w.
Proof.
  unfold player_at. destruct (players (fst w) !! i); split.
  - by intros [= <- <-].
  - by intros [[= <-] ->].
  - done.
  - by intros [? _].
Qed.

Lemma the_challenger_Ret (c : nat) (w w' : World) :
  the_challenger w = Ret c w' ↔
  challenger (fst w) = Some c ∧ is_Some (players (fst w) !! c) ∧ w' = w.
Proof.
  unfold the_challenger. destruct (challenger (fst w)) as [c'|]; [|split].
  - destruct (players (fst w) !! c') eqn:E; split.
    + intros [= <- <-]. rewrite E. eauto.
    + by intros ([= <-] & _ & ->).
    + done.
    + intros ([= <-] & [? H] & _). congruence.
  - done.
  - by intros [? _].
Qed.

Lemma lift_Ret {A} (m : M Env A) (w w' : World) (a : A) :
  lift m w = Ret a w' ↔ ∃ e', m (snd w) = Ret a e' ∧ w' = (fst w, e').
Proof.
  unfold lift. destruct (m (snd w)) as [b e'| |]; split.
  - intros [= <- <-]. eauto.
  - by intros (e'' & [= <- <-] & ->).
  - done.
  - by intros (? & ? & _).
  - done.
  - by intros (? & ? & _).
Qed.

(** ** Round reset *)

Lemma reset_keeps_eliminated (p : Player) :
  is_eliminated (reset_for_new_round p) = is_eliminated p.
Proof. done. Qed.

Lemma start_new_round_players (g : Game) :
  players (start_new_round g) = reset_for_new_round <$> players g.
Proof.
  unfold start_new_round; cbv zeta.
  case_bool_decide; [|done].
  by destruct (get_active_players _).
Qed.

Lemma start_new_round_round_number (g : Game) :
  round_number (start_new_round g) = round_number g + 1.
Proof.
  unfold start_new_round; cbv zeta.
  case_bool_decide; [|done].
  by destruct (get_active_players _).
Qed.

Lemma handle_failed_challenge_resets (w w' : World) (u : unit) :
  handle_failed_challenge w = Ret u w' →
  ∃ g1, fst w' = start_new_round (retrieve_all g1).
Proof.
  unfold handle_failed_challenge. intros H.
  apply bind_Ret in H as (c & w1 & _ & H).
  apply bind_Ret in H as (ch & w2 & _ & H).
  apply bind_Ret in H as (g & w3 & _ & H).
  apply bind_Ret in H as (u1 & w4 & _ & H).
  apply bind_Ret in H as (ch' & w5 & _ & H).
  apply bind_Ret in H as (u2 & w6 & _ & H).
  apply bind_Ret in H as (u3 & w7 & H7 & H).
  apply modify_Ret in H7. apply modify_Ret in H. subst. simpl. eauto.
Qed.

Lemma handle_successful_challenge_resets (w w' : World) (u : unit) :
  handle_successful_challenge w = Ret u w' →
  ∃ c ch, challenger (fst w) = Some c ∧ players (fst w) !! c = Some ch ∧
    if bool_decide (2 ≤ rounds_won ch + 1)
    then game_state (fst w') = GAME_OVER
    else ∃ g1, fst w' = start_new_round (retrieve_all g1).
Proof.
  unfold handle_successful_challenge. intros H.
  apply bind_Ret in H as (c & w1 & Hc & H).
  apply the_challenger_Ret in Hc as (Hc & [ch Hch] & ->).
  apply bind_Ret in H as (u1 & w2 & H2 & H). apply modify_Ret in H2. subst w2.
  apply bind_Ret in H as (ch' & w3 & H3 & H).
  apply player_at_Ret in H3 as [H3 ->]. simpl in H3.
  rewrite list_lookup_alter_eq, Hch in H3. simpl in H3. injection H3 as <-.
  apply bind_Ret in H as (u2 & w4 & H4 & H). apply modify_Ret in H4. subst w4.
  exists c, ch. split; [done|]. split; [done|]. simpl in H.
  destruct (bool_decide (2 ≤ rounds_won ch + 1)).
  - apply bind_Ret in H as (u3 & w5 & H5 & H). apply modify_Ret in H5.
    apply modify_Ret in H. by subst.
  - apply bind_Ret in H as (u3 & w5 & H5 & H). apply modify_Ret in H5.
    apply modify_Ret in H. subst. simpl. eauto.
Qed.

Local Ltac use_act Hact :=
  match goal with
  | |- context [get_active_players ?x] => rewrite (Hact x eq_refl)
  end.

(** C5. [start_new_round] adds one to the round number and clears every
    player's [has_passed].  With at most one active player left it logs that
    player as the winner by elimination, or that none remains, and sets the
    phase to game over.  With two or more it makes the previous challenger
    the first to act when that player is still active, and otherwise the
    first active player of the list; it sets [current_bid] to 0, clears
    [challenger] and [skull_revealer] and sets the phase to initial
    placement.  Both [handle_failed_challenge] and the branch of
    [handle_successful_challenge] that does not end the game finish by
    this reset. *)
Theorem start_new_round_resets (g : Game) :
  let g' := start_new_round g in
  round_number g' = round_number g + 1 ∧
  players g' = reset_for_new_round <$> players g ∧
  Forall (λ p, has_passed p = false) (players g') ∧
  (length (get_active_players g) ≤ 1 →
   game_state g' = GAME_OVER ∧
   match get_active_players g with
   | i :: _ =>
       ∃ p, players g !! i = Some p ∧
            game_log g' = game_log g
                          ++ [(round_number g + 1, LWinsByElimination (name p))]
   | [] =>
       game_log g' = game_log g ++ [(round_number g + 1, LNoRemainingPlayers)]
   end) ∧
  (2 ≤ length (get_active_players g) →
   game_state g' = INITIAL_PLACEMENT ∧ current_bid g' = 0%Z ∧
   challenger g' = None ∧ skull_revealer g' = None ∧
   match challenger g with
   | Some c =>
       if eliminated_at (players g) c
       then ∃ i rest, get_active_players g = i :: rest
                      ∧ current_player_index g' = i
       else current_player_index g' = c
   | None => ∃ i rest, get_active_players g = i :: rest
                       ∧ current_player_index g' = i
   end) ∧
  (∀ w w' u, handle_failed_challenge w = Ret u w' →
             ∃ g1, fst w' = start_new_round (retrieve_all g1)) ∧
  (∀ w w' u c ch,
     handle_successful_challenge w = Ret u w' →
     challenger (fst w) = Some c → players (fst w) !! c = Some ch →
     rounds_won ch + 1 < 2 →
     ∃ g1, fst w' = start_new_round (retrieve_all g1)).
Proof.
  assert (Hact : ∀ g0, players g0 = reset_for_new_round <$> players g →
                       get_active_players g0 = get_active_players g).
  { intros g0 H0. rewrite !get_active_players_eq, H0.
    apply active_indices_fmap, reset_keeps_eliminated. }
  assert (Hel : ∀ c, eliminated_at (reset_for_new_round <$> players g) c
                     = eliminated_at (players g) c).
  { intros c. apply eliminated_at_fmap, reset_keeps_eliminated. }
  assert (Hpl : players (start_new_round g) = reset_for_new_round <$> players g).
  { unfold start_new_round; cbv zeta; use_act Hact.
    case_bool_decide; [|done]. by destruct (get_active_players g). }
  cbv zeta. split_and!.
  - unfold start_new_round; cbv zeta; use_act Hact.
    case_bool_decide; [|done]. by destruct (get_active_players g).
  - done.
  - rewrite Hpl. apply Forall_fmap, Forall_true. done.
  - intros Hle. unfold start_new_round; cbv zeta; use_act Hact.
    rewrite bool_decide_eq_true_2 by done.
    split; [done|].
    destruct (get_active_players g) as [|i rest] eqn:Ha; [done|].
    assert (i ∈ active_indices (players g)) as Hi.
    { rewrite <- get_active_players_eq, Ha. by left. }
    apply active_indices_elem in Hi as (p & Hp & _).
    exists p. split; [done|]. simpl.
    by rewrite list_lookup_fmap, Hp.
  - intros Hge. unfold start_new_round; cbv zeta; use_act Hact.
    rewrite bool_decide_eq_false_2 by lia.
    split_and!; [done..|]. simpl.
    assert (∃ i rest, get_active_players g = i :: rest
                      ∧ first_active (reset_for_new_round <$> players g) 0 = i)
      as Hfirst.
    { destruct (get_active_players g) as [|i rest] eqn:Ha; [simpl in Hge; lia|].
      exists i, rest. split; [done|].
      apply (first_active_of_active _ i rest).
      rewrite active_indices_fmap by apply reset_keeps_eliminated.
      by rewrite <- get_active_players_eq. }
    destruct (challenger g) as [c|]; [|done].
    rewrite Hel. by destruct (eliminated_at (players g) c).
  - intros w w' u. apply handle_failed_challenge_resets.
  - intros w w' u c ch H Hc Hch Hlt.
    apply handle_successful_challenge_resets in H as (c' & ch' & Hc' & Hch' & H).
    rewrite Hc in Hc'. injection Hc' as <-. rewrite Hch in Hch'.
    injection Hch' as <-. by rewrite bool_decide_eq_false_2 in H by lia.
Qed.

(** ** Winning a challenge *)

Lemma play_turn_game_over (w : World) :
  game_state (fst w) = GAME_OVER → play_turn w = Ret false w.
Proof. intros H. unfold play_turn. by rewrite bool_decide_eq_true_2. Qed.

Lemma game_loop_game_over (left : nat) (w : World) :
  game_state (fst w) = GAME_OVER →
  game_loop left w = Ret (bool_decide (left = 0)) w.
Proof. intros H. destruct left; simpl; by rewrite play_turn_game_over. Qed.

(** C4. With [c] the challenger, [handle_successful_challenge] returns, the
    challenger's [rounds_won] is one more than before and that of every
    other player is unchanged.  If the new count is 2 or more, the game is
    over at once: the phase is game over, the challenger is logged as the
    winner of the game, the round number has not moved, and the driver
    takes no further turn but prints the final results. *)
Theorem successful_challenge_counts (g : Game) (e : Env) (c : nat) (ch : Player) :
  challenger g = Some c →
  players g !! c = Some ch →
  ∃ g',
    handle_successful_challenge (g, e) = Ret tt (g', e) ∧
    (∃ ch', players g' !! c = Some ch'
            ∧ rounds_won ch' = rounds_won ch + 1) ∧
    (∀ j p, j ≠ c → players g !! j = Some p →
            ∃ p', players g' !! j = Some p' ∧ rounds_won p' = rounds_won p) ∧
    (2 ≤ rounds_won ch + 1 →
     game_state g' = GAME_OVER ∧
     round_number g' = round_number g ∧
     last (game_log g') = Some (round_number g, LWinsGame (name ch)) ∧
     play_turn (g', e) = Ret false (g', e) ∧
     play_interactive_game (g', e)
       = Reported false (print_final_results g') (g', e)).
Proof.
  intros Hc Hch.
  set (g1 := upd c (λ p, set_rounds_won (rounds_won p + 1) p) g).
  set (ch1 := set_rounds_won (rounds_won ch + 1) ch).
  assert (Hch1 : players g1 !! c = Some ch1).
  { unfold g1, upd. simpl. by rewrite list_lookup_alter_eq, Hch. }
  set (g2 := log (LWinsRound (name ch1) (rounds_won ch1)) g1).
  assert (Hrun : handle_successful_challenge (g, e)
                 = (if bool_decide (2 ≤ rounds_won ch1)
                    then Ret tt (set_game_state GAME_OVER
                                   (log (LWinsGame (name ch1)) g2), e)
                    else Ret tt (start_new_round (retrieve_all g2), e))).
  { unfold handle_successful_challenge, bind, the_challenger, modify, player_at.
    cbn [fst snd]. rewrite Hc, Hch. cbn [fst snd]. fold g1. rewrite Hch1.
    cbn [fst snd].
    by destruct (bool_decide (2 ≤ rounds_won ch1)). }
  destruct (bool_decide (2 ≤ rounds_won ch1)) eqn:Hwin.
  - eexists. split; [exact Hrun|]. split_and!.
    + exists ch1. by split.
    + intros j p Hj Hp. exists p. split; [|done]. simpl.
      by rewrite list_lookup_alter_ne.
    + intros _. split_and!; [done | done | | |].
      * simpl. by rewrite last_snoc.
      * by apply play_turn_game_over.
      * unfold play_interactive_game. by rewrite game_loop_game_over.
  - apply bool_decide_eq_false in Hwin. simpl in Hwin.
    eexists. split; [exact Hrun|]. split_and!.
    + exists (reset_for_new_round (retrieve_cards ch1)). split; [|done].
      rewrite start_new_round_players. simpl.
      by rewrite !list_lookup_fmap, list_lookup_alter_eq, Hch.
    + intros j p Hj Hp.
      exists (reset_for_new_round (retrieve_cards p)). split; [|done].
      rewrite start_new_round_players. simpl.
      by rewrite !list_lookup_fmap, list_lookup_alter_ne, Hp.
    + intros Hge. lia.
Qed.

(** Bob, who has won one round, wins a second challenge. *)
Lemma successful_challenge_counts_witness :
  let g := sample_game [ann; set_rounds_won 1 bob; cat] 1 CHALLENGE 2 (Some 1) in
  ∃ g', handle_successful_challenge (g, sample_env []) = Ret tt (g', sample_env [])
        ∧ game_state g' = GAME_OVER
        ∧ (rounds_won <$> players g') = [0; 2; 0].
Proof.
  intros g.
  destruct (successful_challenge_counts g (sample_env []) 1
              (set_rounds_won 1 bob) eq_refl eq_refl)
    as (g' & Hrun & _ & _ & Hover).
  exists g'. split; [exact Hrun|].
  split; [apply Hover; simpl; lia|].
  vm_compute in Hrun. by injection Hrun as <-.
Defined.

(** ** Challenge resolution *)

Lemma pop_Some {A} (l r : list A) (x : A) :
  pop l = Some (x, r) ↔ l = r ++ [x].
Proof.
  unfold pop. destruct l as [|a l] using rev_ind.
  - simpl. split; [done|]. intros H. by destruct r.
  - rewrite last_snoc, removelast_last. split.
    + by intros [= -> ->].
    + intros [-> [= ->]]%app_inj_tail. done.
Qed.

Lemma pop_None {A} (l : list A) : pop l = None ↔ l = [].
Proof.
  unfold pop. destruct l as [|a l] using rev_ind; [done|].
  rewrite last_snoc. split; [done|]. intros H. by destruct l.
Qed.

(** The cards of a trace that came from the stack of player [i]. *)
Definition owner_cards (i : nat) (tr : Trace) : list Card :=
  snd <$> filter (λ x, fst x = i) tr.

(** [moved tr ps ps']: from [ps] to [ps'] every revealed card of [tr] went
    from the top of its owner's stack to the end of its owner's hand, in the
    order of the trace, and no other card moved. *)
Definition moved (tr : Trace) (ps ps' : list Player) : Prop :=
  ∀ i, match ps !! i with
       | Some p =>
           ∃ p', ps' !! i = Some p' ∧
                 hand p' = hand p ++ owner_cards i tr ∧
                 played_cards p = played_cards p' ++ reverse (owner_cards i tr) ∧
                 is_eliminated p' = is_eliminated p
       | None => ps' !! i = None
       end.

Lemma owner_cards_app (i : nat) (tr1 tr2 : Trace) :
  owner_cards i (tr1 ++ tr2) = owner_cards i tr1 ++ owner_cards i tr2.
Proof. unfold owner_cards. by rewrite filter_app, fmap_app. Qed.

Lemma owner_cards_all (c : nat) (tr : Trace) :
  Forall (λ x, x.1 = c) tr → owner_cards c tr = snd <$> tr.
Proof.
  intros H. unfold owner_cards. f_equal.
  induction H as [|x tr Hx _ IH]; [done|].
  rewrite filter_cons, decide_True by done. by rewrite IH.
Qed.

Lemma owner_cards_none (c : nat) (tr : Trace) :
  Forall (λ x, x.1 ≠ c) tr → owner_cards c tr = [].
Proof.
  intros H. unfold owner_cards.
  induction H as [|x tr Hx _ IH]; [done|].
  by rewrite filter_cons, decide_False.
Qed.

Lemma moved_nil (ps : list Player) : moved [] ps ps.
Proof.
  intros i. destruct (ps !! i) as [p|] eqn:E; [|done].
  exists p. unfold owner_cards. simpl. by rewrite !app_nil_r.
Qed.

Lemma moved_trans (tr1 tr2 : Trace) (ps ps1 ps2 : list Player) :
  moved tr1 ps ps1 → moved tr2 ps1 ps2 → moved (tr1 ++ tr2) ps ps2.
Proof.
  intros H1 H2 i. specialize (H1 i). specialize (H2 i).
  destruct (ps !! i) as [p|].
  - destruct H1 as (p1 & Hp1 & Hh1 & Hs1 & He1). rewrite Hp1 in H2.
    destruct H2 as (p2 & Hp2 & Hh2 & Hs2 & He2). exists p2. split; [done|].
    rewrite owner_cards_app, reverse_app, Hh2, Hh1, Hs1, Hs2, He2, He1.
    by rewrite !app_assoc.
  - by rewrite H1 in H2.
Qed.

(** One reveal. *)
Lemma moved_reveal (ps : list Player) (t : nat) (tp : Player)
    (card : Card) (rest : list Card) :
  ps !! t = Some tp →
  played_cards tp = rest ++ [card] →
  moved [(t, card)] ps (alter (reveal_top card rest) t ps).
Proof.
  intros Ht Hs i. destruct (decide (i = t)) as [->|Hne].
  - rewrite Ht. exists (reveal_top card rest tp).
    rewrite list_lookup_alter_eq, Ht. split; [done|].
    unfold owner_cards. rewrite filter_cons, decide_True by done. simpl.
    split; [done|]. by rewrite Hs.
  - rewrite list_lookup_alter_ne by done.
    destruct (ps !! i) as [p|]; [|done]. exists p. split; [done|].
    unfold owner_cards. rewrite filter_cons, decide_False by done. simpl.
    by rewrite !app_nil_r.
Qed.

(** A change that leaves hands and stacks alone does not disturb [moved]. *)
Lemma moved_alter_r (tr : Trace) (ps ps' : list Player) (c : nat)
    (f : Player → Player) :
  (∀ p, hand (f p) = hand p ∧ played_cards (f p) = played_cards p
        ∧ is_eliminated (f p) = is_eliminated p) →
  moved tr ps ps' → moved tr ps (alter f c ps').
Proof.
  intros Hf H i. specialize (H i). destruct (ps !! i) as [p|].
  - destruct H as (p' & Hp' & Hh & Hs & He).
    destruct (decide (i = c)) as [->|Hne].
    + exists (f p'). rewrite list_lookup_alter_eq, Hp'. split; [done|].
      destruct (Hf p') as (-> & -> & ->). done.
    + exists p'. by rewrite list_lookup_alter_ne.
  - destruct (decide (i = c)) as [->|Hne].
    + by rewrite list_lookup_alter_eq, H.
    + by rewrite list_lookup_alter_ne.
Qed.

Local Ltac split6 := refine (conj _ (conj _ (conj _ (conj _ (conj _ _))))).

Definition rose_entry (x : nat * Card) : Prop := card_type x.2 = ROSE.

Lemma not_skull_rose (card : Card) : is_skull card = false → card_type card = ROSE.
Proof.
  unfold is_skull. intros H%bool_decide_eq_false.
  by destruct (card_type card).
Qed.

Lemma is_skull_true (card : Card) : is_skull card = true → card_type card = SKULL.
Proof. unfold is_skull. by intros H%bool_decide_eq_true. Qed.

(** What the loop over the challenger's own stack does, for a challenger
    that passes the card count test of the loop. *)
Lemma reveal_own_spec (c n : nat) :
  ∀ (g : Game) (ch : Player) tr en g',
    players g !! c = Some ch →
    length (hand ch) + length (played_cards ch) + challenges_lost (stats ch) = 4 →
    reveal_own c n g = (tr, en, g') →
    moved tr (players g) (players g') ∧
    length tr ≤ n ∧
    Forall (λ x, x.1 = c) tr ∧
    challenger g' = challenger g ∧
    current_bid g' = current_bid g ∧
    match en with
    | Pending m =>
        Forall rose_entry tr ∧ m + length tr = n ∧
        skull_revealer g' = skull_revealer g ∧
        (m = 0 ∨ ∃ ch', players g' !! c = Some ch' ∧ played_cards ch' = [])
    | SkullSeen =>
        ∃ tr0 card, tr = tr0 ++ [(c, card)] ∧ card_type card = SKULL ∧
                    Forall rose_entry tr0 ∧ skull_revealer g' = challenger g
    | Crashed _ => False
    end.
Proof.
  induction n as [|n IH]; intros g ch tr en g' Hch Hsum Hrun.
  - simpl in Hrun. injection Hrun as <- <- <-.
    split6; [apply moved_nil | done..| ].
    split_and!; [done | done | done | by left].
  - simpl in Hrun. rewrite Hch in Hrun.
    destruct (pop (played_cards ch)) as [[card rest]|] eqn:Hpop.
    2:{ injection Hrun as <- <- <-. apply pop_None in Hpop.
        split6; [apply moved_nil | simpl; lia | done..| ].
        split_and!; [done | simpl; lia | done |]. right. eauto. }
    apply pop_Some in Hpop.
    assert (count_check (reveal_top card rest ch) = true) as Hck.
    { unfold count_check. apply bool_decide_eq_true. simpl.
      rewrite Hpop in Hsum. rewrite !length_app in *. simpl in *. lia. }
    rewrite Hck in Hrun. simpl in Hrun.
    pose proof (moved_reveal _ _ _ _ _ Hch Hpop) as Hmv.
    destruct (is_skull card) eqn:Hsk.
    + injection Hrun as <- <- <-.
      split6; [ | simpl; lia | by repeat constructor | done | done | ].
      * simpl. by apply moved_alter_r.
      * exists [], card. split_and!; [done | by apply is_skull_true | done | done].
    + destruct (reveal_own c n _) as [[tr1 e1] g1] eqn:Hrest.
      injection Hrun as <- <- <-.
      eapply (IH _ (reveal_top card rest ch)) in Hrest as
        (Hmv1 & Hlen & Hown & Hc1 & Hb1 & Hend).
      2:{ simpl. by rewrite list_lookup_alter_eq, Hch. }
      2:{ simpl. rewrite Hpop in Hsum. rewrite !length_app in *.
          simpl in *. lia. }
      split6.
      * apply (moved_trans [(c, card)] tr1 _ _ _ Hmv Hmv1).
      * simpl. lia.
      * by constructor.
      * done.
      * done.
      * destruct e1 as [m| |x]; [| |done].
        -- destruct Hend as (Hr & Hm & Hs & Hex).
           split_and!; [ | simpl; lia | done | ].
           ++ constructor; [by apply not_skull_rose | done].
           ++ destruct Hex as [->|Hex]; [by left | by right].
        -- destruct Hend as (tr0 & card' & -> & Hsk' & Hr & Hs).
           exists ((c, card) :: tr0), card'. split_and!; [done | done | | done].
           constructor; [by apply not_skull_rose | done].
Qed.

Lemma random_choice_elem {A} (r : nat) (l : list A) :
  l ≠ [] → ∃ x, random_choice r l = Some x ∧ x ∈ l.
Proof.
  intros Hl. unfold random_choice.
  assert (r mod length l < length l) as Hlt.
  { apply Nat.mod_upper_bound. by destruct l. }
  apply lookup_lt_is_Some in Hlt as [x Hx].
  exists x. split; [done|]. by eapply list_elem_of_lookup_2.
Qed.

Lemma remove_player_elem (t x : nat) (l : list nat) :
  x ∈ remove_player t l → x ∈ l.
Proof.
  induction l as [|i l IH]; simpl; [done|].
  destruct (decide (i = t)); [by right|].
  intros [->|H]%elem_of_cons; [by left | right; auto].
Qed.

Lemma remove_player_NoDup (t : nat) (l : list nat) :
  NoDup l → NoDup (remove_player t l) ∧ t ∉ remove_player t l.
Proof.
  induction 1 as [|i l Hi Hnd [IH1 IH2]]; simpl.
  - split; [constructor | apply not_elem_of_nil].
  - destruct (decide (i = t)) as [->|Hne]; [done|]. split.
    + constructor; [|done]. intros H. by apply remove_player_elem in H.
    + intros [->|H]%elem_of_cons; done.
Qed.

(** The list the second loop draws from: distinct players other than the
    challenger, each with a card on the stack. *)
Definition others_ok (c : nat) (others : list nat) (ps : list Player) : Prop :=
  NoDup others ∧
  ∀ o, o ∈ others →
       o ≠ c ∧ ∃ p, ps !! o = Some p ∧ played_cards p ≠ []
                    ∧ is_eliminated p = false.

Lemma other_players_ok (c : nat) (g : Game) :
  others_ok c (other_players c g) (players g).
Proof.
  unfold other_players, get_active_players. split.
  - apply NoDup_filter, NoDup_filter, NoDup_seq.
  - intros o [[Hne Hpl] Hact]%list_elem_of_filter. split; [done|].
    apply active_indices_elem in Hact as (p & Hp & He).
    unfold has_played_at in Hpl. rewrite Hp in Hpl.
    exists p. split; [done|]. by apply bool_decide_eq_true in Hpl.
Qed.

Lemma others_ok_step (c t : nat) (others : list nat) (ps : list Player)
    (card : Card) (rest : list Card) :
  others_ok c others ps →
  others_ok c (match rest with
               | [] => remove_player t others
               | _ :: _ => others
               end) (alter (reveal_top card rest) t ps).
Proof.
  intros [Hnd Hok].
  assert (∀ o, o ∈ others → (o = t → rest ≠ []) →
               o ≠ c ∧ ∃ p, alter (reveal_top card rest) t ps !! o = Some p
                            ∧ played_cards p ≠ []
                            ∧ is_eliminated p = false) as Hstep.
  { intros o Ho Hrest. destruct (Hok o Ho) as (Hne & p & Hp & Hpl & He).
    split; [done|]. destruct (decide (o = t)) as [->|Hot].
    - exists (reveal_top card rest p).
      rewrite list_lookup_alter_eq, Hp. split; [done|]. simpl. auto.
    - exists p. by rewrite list_lookup_alter_ne. }
  destruct rest as [|r rest'].
  - destruct (remove_player_NoDup t others Hnd) as [Hnd' Hnot].
    split; [done|]. intros o Ho. apply Hstep.
    + by eapply remove_player_elem.
    + intros ->. done.
  - split; [done|]. intros o Ho. by apply Hstep.
Qed.

(** One turn of the second loop, for the drawn target [t]. *)
Lemma reveal_others_step (c n t : nat) (others : list nat) (g : Game)
    (e : Env) (tp : Player) (card : Card) (rest : list Card) :
  random_choice (rng e (rpos e)) others = Some t →
  players g !! t = Some tp →
  pop (played_cards tp) = Some (card, rest) →
  let e1 := mkEnv (stdin e) (rng e) (S (rpos e)) in
  let g2 := log (LRevealedFrom (name tp) (card_type card))
                (upd t (reveal_top card rest) g) in
  reveal_others c (S n) others g e =
    if is_skull card then
      Ret ([(t, card)], SkullSeen,
           upd c (λ p, set_stats (incr_challenges_lost (stats p)) p)
               (set_skull_revealer (Some t) (log LSkullRevealed g2))) e1
    else
      match reveal_others c n
              (match rest with
               | [] => remove_player t others
               | _ :: _ => others
               end) g2 e1 with
      | Ret (tr, en, g') e' => Ret ((t, card) :: tr, en, g') e'
      | Raise x e' => Raise x e'
      | Blocked => Blocked
      end.
Proof.
  intros Ht Htp Hpop e1 g2.
  destruct others as [|o0 others0]; [done|].
  cbn [reveal_others]. unfold bind at 1. unfold choice, bind, draw, ret.
  rewrite Ht. cbn [default from_option]. unfold id. rewrite Htp, Hpop.
  destruct (is_skull card); [done|].
  fold e1. fold g2.
  destruct (reveal_others c n _ g2 e1) as [[[tr en] g'] e'| |]; done.
Qed.

(** What the loop over the other players' stacks does. *)
Lemma reveal_others_spec (c n : nat) :
  ∀ (others : list nat) (g : Game) (e : Env),
    others_ok c others (players g) →
    ∃ tr en g' e',
      reveal_others c n others g e = Ret (tr, en, g') e' ∧
      moved tr (players g) (players g') ∧
      length tr ≤ n ∧
      Forall (λ x, x.1 ∈ others) tr ∧
      challenger g' = challenger g ∧
      current_bid g' = current_bid g ∧
      match en with
      | Pending m =>
          Forall rose_entry tr ∧ m + length tr = n ∧
          skull_revealer g' = skull_revealer g
      | SkullSeen =>
          ∃ tr0 o card, tr = tr0 ++ [(o, card)] ∧ card_type card = SKULL ∧
                        Forall rose_entry tr0 ∧ skull_revealer g' = Some o
      | Crashed _ => False
      end.
Proof.
  induction n as [|n IH]; intros others g e Hok.
  - exists [], (Pending 0), g, e. split; [done|].
    split6; [apply moved_nil | done..].
  - destruct (decide (others = [])) as [->|Hne].
    { exists [], (Pending (S n)), g, e. split; [done|].
      split6; [apply moved_nil | simpl; lia | done..| ].
      split_and!; [done | simpl; lia | done]. }
    destruct (random_choice_elem (rng e (rpos e)) others Hne) as (t & Ht & Hin).
    pose proof Hok as [Hnd Hall].
    destruct (Hall t Hin) as (Htc & tp & Htp & Hpl & Hact).
    destruct (pop (played_cards tp)) as [[card rest]|] eqn:Hpop.
    2:{ by apply pop_None in Hpop. }
    pose proof Hpop as Hpop'. apply pop_Some in Hpop'.
    pose proof (moved_reveal _ _ _ _ _ Htp Hpop') as Hmv.
    rewrite (reveal_others_step c n t others g e tp card rest Ht Htp Hpop).
    cbv zeta.
    destruct (is_skull card) eqn:Hsk.
    + eexists _, _, _, _. split; [reflexivity|].
      split6; [ | simpl; lia | by repeat constructor | done | done | ].
      * simpl. by apply moved_alter_r.
      * exists [], t, card.
        split_and!; [done | by apply is_skull_true | done | done].
    + edestruct IH as (tr1 & en1 & g1 & e' & Hrun & Hmv1 & Hlen
                       & Hown & Hc1 & Hb1 & Hend);
        [| rewrite Hrun].
      { simpl. apply others_ok_step, Hok. }
      eexists _, _, _, _. split; [reflexivity|].
      split6.
      * apply (moved_trans [(t, card)] tr1 _ _ _ Hmv Hmv1).
      * simpl. lia.
      * constructor; [done|]. eapply Forall_impl; [exact Hown|].
        intros x Hx. simpl in Hx. destruct rest; [|done].
        by eapply remove_player_elem.
      * done.
      * done.
      * destruct en1 as [m| |x]; [| |done].
        -- destruct Hend as (Hr & Hm & Hs).
           split_and!; [ | simpl; lia | done].
           constructor; [by apply not_skull_rose | done].
        -- destruct Hend as (tr0 & o & card' & -> & Hsk' & Hr & Hs).
           exists ((t, card) :: tr0), o, card'.
           split_and!; [done | done | | done].
           constructor; [by apply not_skull_rose | done].
Qed.

(** Resolution as a whole: the reveals from the challenger's own stack,
    then those from the other stacks. *)
Lemma resolve_spec (g : Game) (e : Env) (c : nat) (ch : Player) :
  challenger g = Some c →
  players g !! c = Some ch →
  length (hand ch) + length (played_cards ch) + challenges_lost (stats ch) = 4 →
  ∃ own oth en g' e',
    resolve c g e = Ret (own ++ oth, en, g') e' ∧
    moved (own ++ oth) (players g) (players g') ∧
    length (own ++ oth) ≤ Z.to_nat (current_bid g) ∧
    Forall (λ x, x.1 = c) own ∧
    Forall (λ x, x.1 ≠ c ∧ eliminated_at (players g) x.1 = false) oth ∧
    (∃ keep, played_cards ch = keep ++ reverse (snd <$> own)) ∧
    (oth ≠ [] → snd <$> own = reverse (played_cards ch)) ∧
    match en with
    | Pending m =>
        Forall rose_entry (own ++ oth) ∧
        m + length (own ++ oth) = Z.to_nat (current_bid g) ∧
        skull_revealer g' = skull_revealer g
    | SkullSeen =>
        ∃ tr0 o card, own ++ oth = tr0 ++ [(o, card)] ∧
                      card_type card = SKULL ∧
                      Forall rose_entry tr0 ∧ skull_revealer g' = Some o
    | Crashed _ => False
    end.
Proof.
  intros Hc Hch Hsum. unfold resolve.
  destruct (reveal_own c (Z.to_nat (current_bid g)) g) as [[tr1 en1] g1] eqn:Hown.
  destruct (reveal_own_spec _ _ _ _ _ _ _ Hch Hsum Hown)
    as (Hmv1 & Hlen1 & Hall1 & Hc1 & Hb1 & Hend1).
  assert (∃ keep, played_cards ch = keep ++ reverse (snd <$> tr1)) as Hkeep.
  { specialize (Hmv1 c). rewrite Hch in Hmv1.
    destruct Hmv1 as (ch1 & _ & _ & Hs & _). exists (played_cards ch1).
    by rewrite <- (owner_cards_all c tr1). }
  destruct en1 as [m| |x]; [| |done].
  - destruct Hend1 as (Hr1 & Hm & Hs1 & Hex).
    destruct (reveal_others_spec c m (other_players c g1) g1 e
                (other_players_ok c g1))
      as (tr2 & en2 & g2 & e' & Hrun & Hmv2 & Hlen2 & Hall2 & Hc2 & Hb2 & Hend2).
    exists tr1, tr2, en2, g2, e'. unfold bind. rewrite Hrun.
    split; [done|]. split_and!; [ | | done | | done | | ].
    + by eapply moved_trans.
    + rewrite length_app. lia.
    + eapply Forall_impl; [exact Hall2|]. intros x Hx. simpl in Hx.
      destruct (other_players_ok c g1) as [_ Hok1].
      destruct (Hok1 _ Hx) as (Hxc & p1 & Hp1 & _ & He1). split; [done|].
      specialize (Hmv1 x.1). unfold eliminated_at.
      destruct (players g !! x.1) as [p|]; [|congruence].
      destruct Hmv1 as (p1' & Hp1' & _ & _ & He). congruence.
    + intros Hne. destruct Hex as [->|(ch1 & Hch1 & Hempty)].
      { destruct tr2; [done | simpl in Hlen2; lia]. }
      specialize (Hmv1 c). rewrite Hch in Hmv1.
      destruct Hmv1 as (ch1' & Hch1' & _ & Hs & _). rewrite Hch1 in Hch1'.
      injection Hch1' as <-. rewrite Hempty in Hs. simpl in Hs.
      rewrite Hs, reverse_involutive. symmetry. by apply owner_cards_all.
    + destruct en2 as [m2| |x]; [| |done].
      * destruct Hend2 as (Hr2 & Hm2 & Hs2).
        split_and!; [by apply Forall_app | rewrite length_app; lia | congruence].
      * destruct Hend2 as (tr0 & o & card & -> & Hsk & Hr & Hs).
        exists (tr1 ++ tr0), o, card.
        split_and!; [by rewrite app_assoc | done | by apply Forall_app | done].
  - destruct Hend1 as (tr0 & card & -> & Hsk & Hr & Hs).
    exists (tr0 ++ [(c, card)]), [], SkullSeen, g1, e.
    rewrite app_nil_r. split; [done|].
    split_and!; [done | done | done | done | done | done | ].
    exists tr0, c, card. split_and!; [done | done | done | congruence].
Qed.

(** How [challenge_phase] uses the resolution: it runs [resolve] after two
    log lines and hands the game to one of the two handlers. *)
Lemma challenge_phase_unfold (g : Game) (e : Env) (c : nat) (ch : Player) :
  game_state g = CHALLENGE →
  challenger g = Some c →
  players g !! c = Some ch →
  let g0 := log (LMustReveal (name ch) (current_bid g)) (log LChallengePhase g) in
  challenge_phase (g, e) =
    match resolve c g0 e with
    | Ret (_, Crashed x, g') e' => Raise x (g', e')
    | Ret (_, SkullSeen, g') e' =>
        (do! handle_failed_challenge in ret true) (g', e')
    | Ret (_, Pending _, g') e' =>
        (do! handle_successful_challenge in ret true)
          (set_game_stats
             (incr_successful_challenges (game_stats g'))
             (upd c (λ p, set_stats (incr_challenges_won (stats p)) p)
                  (log (LChallengeSucceeded (current_bid g')) g')), e')
    | Raise x e' => Raise x (g0, e')
    | Blocked => Blocked
    end.
Proof.
  intros Hst Hc Hch g0.
  unfold challenge_phase, bind at 1, get_game. cbn [fst snd].
  rewrite Hst. cbn [bool_decide negb]. rewrite bool_decide_eq_true_2 by done.
  cbn [negb]. unfold bind at 1, the_challenger. cbn [fst snd]. rewrite Hc, Hch.
  unfold bind at 1, player_at. cbn [fst snd]. rewrite Hch.
  unfold bind at 1, modify at 1. cbn [fst snd].
  unfold bind at 1, modify at 1. cbn [fst snd].
  unfold bind at 1, get_game. cbn [fst snd].
  unfold bind at 1, lift. cbn [fst snd]. fold g0.
  destruct (resolve c g0 e) as [[[tr en] g'] e'| |]; [|done|done].
  unfold bind at 1, modify at 1. cbn [fst snd].
  destruct en; [|done|done].
  unfold bind at 1, modify at 1. cbn [fst snd].
  unfold bind at 1, modify at 1. cbn [fst snd].
  unfold bind at 1, modify at 1. cbn [fst snd]. done.
Qed.

(** C1. Resolving a challenge, for a challenger who passes the card count
    test of the revealing loop (as the challenger of every reachable game
    does, see [reachable_challenge_ready]): the resolution returns; every
    revealed card
    went from the top of its owner's stack into its owner's hand; the
    number of cards revealed is at most the bid; when a skull is revealed it
    is the last card revealed, every card before it is a rose, and
    [skull_revealer] is the player from whose stack it came; when none is
    revealed every revealed card is a rose and [skull_revealer] is left as
    it was. *)
Theorem challenge_reveals_at_most_bid (g : Game) (e : Env) (c : nat)
    (ch : Player) :
  challenger g = Some c →
  players g !! c = Some ch →
  length (hand ch) + length (played_cards ch) + challenges_lost (stats ch) = 4 →
  ∃ tr en g' e',
    resolve c g e = Ret (tr, en, g') e' ∧
    moved tr (players g) (players g') ∧
    length tr ≤ Z.to_nat (current_bid g) ∧
    ((0 ≤ current_bid g)%Z → (Z.of_nat (length tr) ≤ current_bid g)%Z) ∧
    match en with
    | Pending m =>
        Forall rose_entry tr ∧ skull_revealer g' = skull_revealer g
    | SkullSeen =>
        ∃ tr0 o card, tr = tr0 ++ [(o, card)] ∧ card_type card = SKULL ∧
                      Forall rose_entry tr0 ∧ skull_revealer g' = Some o
    | Crashed _ => False
    end.
Proof.
  intros Hc Hch Hsum.
  destruct (resolve_spec g e c ch Hc Hch Hsum)
    as (own & oth & en & g' & e' & Hrun & Hmv & Hlen & _ & _ & _ & _ & Hend).
  exists (own ++ oth), en, g', e'.
  split_and!; [done | done | done | lia | ].
  destruct en as [m| |x]; [|done|done].
  destruct Hend as (Hr & _ & Hs). done.
Qed.

(** Bob challenges at 3 on [table]: his rose, then his own skull. *)
Lemma challenge_reveals_at_most_bid_witness :
  let g := sample_game table 1 CHALLENGE 3 (Some 1) in
  ∃ tr g' e',
    resolve 1 g (sample_env []) = Ret (tr, SkullSeen, g') e' ∧
    length tr ≤ 3 ∧ skull_revealer g' = Some 1.
Proof.
  intros g.
  destruct (challenge_reveals_at_most_bid g (sample_env []) 1
              (plays [3; 0] bob) eq_refl eq_refl eq_refl)
    as (tr & en & g' & e' & Hrun & _ & Hlen & _ & Hend).
  assert (en = SkullSeen ∧ skull_revealer g' = Some 1) as [-> Hs].
  { vm_compute in Hrun. by injection Hrun as <- <- <- <-. }
  exists tr, g', e'. split; [exact Hrun|]. split; [exact Hlen | exact Hs].
Defined.

(** The same resolution, computed. *)
Example resolve_table_bob :
  ∃ g' e',
    resolve 1 (sample_game table 1 CHALLENGE 3 (Some 1)) (sample_env [])
    = Ret ([(1, mkCard 4 ROSE); (1, mkCard 7 SKULL)], SkullSeen, g') e'.
Proof. eexists _, _. vm_compute. reflexivity. Qed.

(** C2. Resolving a challenge, for a challenger who passes the card count
    test (as the challenger of every reachable game does, see
    [reachable_challenge_ready]): the reveals are a first run [own], all
    from the challenger's own
    stack, followed by a run [oth], all from stacks of other, active
    players.  The cards of [own] are the top of the challenger's stack in
    popping order, the card played last first, and every revealed card goes
    from the top of its owner's stack into its owner's hand.  If any card of
    another player is revealed, [own] is the whole stack of the challenger;
    and the reveals, those of [oth] included, number at most the bid. *)
Theorem challenge_reveals_own_stack_first (g : Game) (e : Env) (c : nat)
    (ch : Player) :
  challenger g = Some c →
  players g !! c = Some ch →
  length (hand ch) + length (played_cards ch) + challenges_lost (stats ch) = 4 →
  ∃ own oth en g' e',
    resolve c g e = Ret (own ++ oth, en, g') e' ∧
    moved (own ++ oth) (players g) (players g') ∧
    Forall (λ x, x.1 = c) own ∧
    Forall (λ x, x.1 ≠ c ∧ eliminated_at (players g) x.1 = false) oth ∧
    (∃ keep, played_cards ch = keep ++ reverse (snd <$> own)) ∧
    (oth ≠ [] → snd <$> own = reverse (played_cards ch)) ∧
    length own + length oth ≤ Z.to_nat (current_bid g).
Proof.
  intros Hc Hch Hsum.
  destruct (resolve_spec g e c ch Hc Hch Hsum)
    as (own & oth & en & g' & e' & Hrun & Hmv & Hlen & Ho & Ht & Hk & Hx & _).
  exists own, oth, en, g', e'. rewrite length_app in Hlen. done.
Qed.

(** Ann challenges at 2 on [table]: her own rose, then one from Bob. *)
Example resolve_table_ann :
  ∃ g' e',
    resolve 0 (sample_game table 0 CHALLENGE 2 (Some 0)) (sample_env [])
    = Ret ([(0, mkCard 0 ROSE); (1, mkCard 4 ROSE)], Pending 0, g') e'.
Proof. eexists _, _. vm_compute. reflexivity. Qed.

Lemma challenge_reveals_own_stack_first_witness :
  let g := sample_game table 0 CHALLENGE 2 (Some 0) in
  ∃ own oth en g' e',
    resolve 0 g (sample_env []) = Ret (own ++ oth, en, g') e' ∧
    own ++ oth = [(0, mkCard 0 ROSE); (1, mkCard 4 ROSE)] ∧
    Forall (λ x, x.1 = 0) own ∧ Forall (λ x, x.1 ≠ 0) oth.
Proof.
  intros g.
  destruct (challenge_reveals_own_stack_first g (sample_env []) 0
              (plays [0] ann) eq_refl eq_refl eq_refl)
    as (own & oth & en & g' & e' & Hrun & _ & Ho & Ht & _).
  exists own, oth, en, g', e'. split; [exact Hrun|].
  split; [|split; [exact Ho|]].
  - destruct resolve_table_ann as (g0 & e0 & Hcomp). fold g in Hcomp.
    rewrite Hcomp in Hrun. by injection Hrun as <- _ _ _.
  - eapply Forall_impl; [exact Ht|]. by intros x [? _].
Defined.

(** ** Bidding *)

Lemma human_bid_prompt_legal (cur mx : Z) (ins rest : list Input) (b : Z) :
  human_bid_prompt cur mx ins = Some (Some b, rest) → (cur < b ≤ mx)%Z.
Proof.
  induction ins as [|i ins IH]; simpl; [done|].
  destruct i as [[| | | |z|]|]; try done; try by apply IH.
  case_bool_decide; [|by apply IH]. by intros [= <- _].
Qed.

Definition next_env (e : Env) : Env := mkEnv (stdin e) (rng e) (S (rpos e)).

Lemma random_lt_run (p : nat) (e : Env) :
  random_lt p e = Ret (bool_decide (rng e (rpos e) mod 100 < p)) (next_env e).
Proof. done. Qed.

Lemma choice_run {A} (d : A) (l : list A) (e : Env) :
  choice d l e = Ret (default d (random_choice (rng e (rpos e)) l)) (next_env e).
Proof. done. Qed.

(** No decision-making code of the module answers with an illegal bid. *)
Lemma ask_bid_legal (p : Player) (cur mx : Z) (e e' : Env) (b : Z) :
  ask_bid p cur mx e = Ret (Some b) e' → (cur < b ≤ mx)%Z.
Proof.
  unfold ask_bid. destruct (cls p) as [| |strategy].
  - unfold bind. rewrite random_lt_run.
    destruct (bool_decide (_ < 40)); cbn [andb]; [|done].
    case_bool_decide; [|done]. intros [= <- _]. lia.
  - unfold human_make_bid.
    destruct (human_bid_prompt cur mx (stdin e)) as [[o rest]|] eqn:E; [|done].
    intros [= -> _]. by eapply human_bid_prompt_legal.
  - unfold ai_make_bid. case_bool_decide; [done|].
    unfold bind. rewrite random_lt_run.
    destruct (bool_decide (_ < _)); [|done]. intros [= <- _]. lia.
Qed.

Lemma bidding_apply_current_bid (new_bid : option Z) (g : Game) :
  current_bid (bidding_apply new_bid g) = default (current_bid g) new_bid.
Proof.
  unfold bidding_apply; cbv zeta.
  destruct new_bid as [b|]; simpl.
  - by destruct (active_bidders _) as [|? [|? ?]].
  - by destruct (active_bidders _) as [|? [|? ?]].
Qed.

Lemma bidding_apply_players (new_bid : option Z) (g : Game) :
  players (bidding_apply new_bid g) =
    match new_bid with
    | Some _ => players g
    | None => alter (set_has_passed true) (current_player_index g) (players g)
    end.
Proof.
  unfold bidding_apply; cbv zeta.
  destruct new_bid as [b|]; simpl.
  - by destruct (active_bidders _) as [|? [|? ?]].
  - by destruct (active_bidders _) as [|? [|? ?]].
Qed.

(** What one call of [bidding_phase] that returns has done. *)
Lemma bidding_phase_cases (g : Game) (e : Env) (b : bool) (w' : World) :
  bidding_phase (g, e) = Ret b w' →
  (game_state g ≠ BIDDING ∧ w' = (g, e)) ∨
  (game_state g = BIDDING ∧
   ∃ p, get_current_player g = Some p ∧
        ((has_passed p = true ∧ w' = (next_player g, e)) ∨
         (has_passed p = false ∧
          ∃ new_bid e',
            ask_bid p (current_bid g) (Z.of_nat (total_cards_on_table g)) e
              = Ret new_bid e' ∧
            w' = (bidding_apply new_bid g, e')))).
Proof.
  unfold bidding_phase. intros H.
  apply bind_Ret in H as (g0 & w0 & Hg & H).
  apply get_game_Ret in Hg as [-> ->]. cbn [fst snd] in H.
  case_bool_decide as Hst; cbn [negb] in H.
  2:{ apply ret_Ret in H as [_ <-]. by left. }
  right. split; [done|].
  apply bind_Ret in H as (p & w1 & Hp & H).
  apply player_at_Ret in Hp as [Hp ->]. cbn [fst snd] in *.
  exists p. split; [done|].
  destruct (has_passed p) eqn:Hpass.
  - left. split; [done|].
    apply bind_Ret in H as (u & w2 & Hm & H). apply modify_Ret in Hm.
    apply ret_Ret in H as [_ <-]. by subst.
  - right. split; [done|].
    apply bind_Ret in H as (new_bid & w2 & Hask & H).
    apply lift_Ret in Hask as (e' & Hask & ->). cbn [fst snd] in *.
    apply bind_Ret in H as (u & w3 & Hm & H). apply modify_Ret in Hm.
    apply ret_Ret in H as [_ <-]. subst. eauto.
Qed.

(** [n] successive calls of [bidding_phase]. *)
Fixpoint bidding_calls (n : nat) : M World unit :=
  match n with
  | 0 => ret tt
  | S n' => do! bidding_phase in bidding_calls n'
  end.

Lemma bidding_phase_monotone (g : Game) (e : Env) (b : bool) (w' : World) :
  bidding_phase (g, e) = Ret b w' →
  (current_bid g ≤ current_bid (fst w'))%Z.
Proof.
  intros H. apply bidding_phase_cases in H
    as [[_ ->] | (_ & p & _ & [[_ ->] | (_ & nb & e' & Hask & ->)])];
    [done | done |].
  cbn [fst]. rewrite bidding_apply_current_bid.
  destruct nb as [bid|]; [|done]. apply ask_bid_legal in Hask. simpl. lia.
Qed.

(** C9. A call of [bidding_phase] that asks the current player for a bid
    either gets a bid, which then lies above [current_bid] and at most at
    the number of cards on the table and becomes the new [current_bid]
    with no player changed, or gets a pass, which sets [has_passed] of that
    player and leaves [current_bid] alone.  Hence over any number of
    successive calls [current_bid] never goes down. *)
Theorem bids_only_go_up (g : Game) (e : Env) (n : nat) (w' : World) :
  bidding_calls n (g, e) = Ret tt w' →
  (current_bid g ≤ current_bid (fst w'))%Z ∧
  (∀ p new_bid e',
     game_state g = BIDDING →
     get_current_player g = Some p →
     has_passed p = false →
     ask_bid p (current_bid g) (Z.of_nat (total_cards_on_table g)) e
       = Ret new_bid e' →
     bidding_phase (g, e) = Ret true (bidding_apply new_bid g, e') ∧
     match new_bid with
     | Some bid =>
         (current_bid g < bid ≤ Z.of_nat (total_cards_on_table g))%Z ∧
         current_bid (bidding_apply new_bid g) = bid ∧
         players (bidding_apply new_bid g) = players g
     | None =>
         current_bid (bidding_apply new_bid g) = current_bid g ∧
         players (bidding_apply new_bid g)
           = alter (set_has_passed true) (current_player_index g) (players g)
     end).
Proof.
  intros Hrun. split.
  - revert g e Hrun. induction n as [|n IH]; intros g e Hrun.
    + apply ret_Ret in Hrun as [_ <-]. done.
    + simpl in Hrun. apply bind_Ret in Hrun as (b & [g1 e1] & H1 & Hrun).
      apply bidding_phase_monotone in H1. apply IH in Hrun.
      simpl in *. lia.
  - intros p new_bid e' Hst Hp Hpass Hask. split.
    + unfold bidding_phase, bind at 1, get_game. cbn [fst snd].
      rewrite bool_decide_eq_true_2 by done. cbn [negb].
      unfold bind at 1, player_at. cbn [fst snd].
      unfold get_current_player in Hp. rewrite Hp, Hpass.
      unfold bind at 1, lift. cbn [fst snd]. rewrite Hask. done.
    + rewrite bidding_apply_current_bid, bidding_apply_players.
      destruct new_bid as [bid|]; [|done].
      apply ask_bid_legal in Hask. done.
Qed.

(** Three calls on [table]: Ann types 9, is asked again and bids 2; Bob
    raises to 3 and Cat to 4. *)
Example bidding_table_runs :
  ∃ g' e',
    bidding_calls 3 (sample_game table 0 BIDDING 1 None,
                     sample_env [Line (Tint 9); Line (Tint 2)])
    = Ret tt (g', e') ∧ current_bid g' = 4%Z ∧ stdin e' = [].
Proof. eexists _, _. vm_compute. done. Qed.

Lemma bids_only_go_up_witness :
  ∃ w', bidding_calls 3 (sample_game table 0 BIDDING 1 None,
                         sample_env [Line (Tint 9); Line (Tint 2)])
        = Ret tt w' ∧ (1 ≤ current_bid (fst w'))%Z.
Proof.
  destruct bidding_table_runs as (g' & e' & Hrun & _).
  exists (g', e'). split; [exact Hrun|].
  exact (proj1 (bids_only_go_up _ _ 3 _ Hrun)).
Defined.

(** ** Illegal answers *)

Lemma card_at_elem (h : list Card) (z : Z) (c : Card) :
  card_at h z = Some c → c ∈ h.
Proof.
  unfold card_at. case_bool_decide; [|done].
  intros Hl. by eapply list_elem_of_lookup_2.
Qed.

Lemma human_card_prompt_in_hand (h : list Card) (ins rest : list Input)
    (c : Card) :
  human_card_prompt h ins = Some (Some c, rest) → c ∈ h.
Proof.
  induction ins as [|i ins IH]; simpl; [done|].
  destruct i as [[| | | |z|]|]; try done; try by apply IH.
  destruct (card_at h z) as [c'|] eqn:E; [|by apply IH].
  intros [= -> _]. by eapply card_at_elem.
Qed.

Lemma choice_elem {A} (d : A) (l : list A) (e : Env) :
  l ≠ [] → ∃ x, x ∈ l ∧ choice d l e = Ret x (next_env e).
Proof.
  intros Hl. rewrite choice_run.
  destruct (random_choice_elem (rng e (rpos e)) l Hl) as (x & -> & Hx).
  by exists x.
Qed.

Lemma ai_choose_card_in_hand (strategy : string) (p : Player) (e e' : Env)
    (c : Card) :
  ai_choose_card_to_play strategy p e = Ret (Some c) e' → c ∈ hand p.
Proof.
  unfold ai_choose_card_to_play.
  destruct (hand p) as [|c0 h0] eqn:Hh; [done|]. rewrite <- Hh.
  unfold bind at 1. rewrite random_lt_run.
  set (skulls := filter (λ c, card_type c = SKULL) (hand p)).
  set (roses := filter (λ c, card_type c = ROSE) (hand p)).
  assert (∀ l e1, l ≠ [] → (∀ x, x ∈ l → x ∈ hand p) →
                  (let! c := choice c0 l in ret (Some c)) e1 = Ret (Some c) e'
                  → c ∈ hand p) as Hpick.
  { intros l e1 Hl Hsub. unfold bind.
    destruct (choice_elem c0 l e1 Hl) as (x & Hx & ->).
    intros [= <- _]. by apply Hsub. }
  destruct (bool_decide (_ < _) && bool_decide (skulls ≠ [])) eqn:Hfirst.
  - apply andb_true_iff in Hfirst as [_ Hs%bool_decide_eq_true].
    apply Hpick; [done|]. intros x Hx. by apply list_elem_of_filter in Hx as [_ ?].
  - destruct (bool_decide (roses ≠ [])) eqn:Hr.
    + apply bool_decide_eq_true in Hr.
      apply Hpick; [done|]. intros x Hx.
      by apply list_elem_of_filter in Hx as [_ ?].
    + apply Hpick; [by rewrite Hh | done].
Qed.

Lemma alter_fix {A} (f : A → A) (l : list A) (i : nat) (x : A) :
  l !! i = Some x → f x = x → alter f i l = l.
Proof.
  intros Hi Hf. apply list_eq. intros j.
  destruct (decide (j = i)) as [->|Hne].
  - by rewrite list_lookup_alter_eq, Hi; simpl; rewrite Hf.
  - by rewrite list_lookup_alter_ne.
Qed.

Lemma set_players_same (g : Game) : set_players (players g) g = g.
Proof. by destruct g. Qed.

(** The claim of C7 fails for the core: handed a bid of 100 with four cards
    on the table, [bidding_phase] makes it the current bid and passes the
    turn on. *)
Lemma illegal_bid_is_accepted :
  ¬ (∀ (g : Game) (b : Z),
       game_state g = BIDDING →
       ¬ (current_bid g < b ≤ Z.of_nat (total_cards_on_table g))%Z →
       current_bid (bidding_apply (Some b) g) = current_bid g ∧
       current_player_index (bidding_apply (Some b) g)
         = current_player_index g).
Proof.
  intros H.
  destruct (H (sample_game table 0 BIDDING 1 None) 100%Z eq_refl) as [Hbid _].
  - vm_compute. intros [_ Hle]. by apply Hle.
  - vm_compute in Hbid. discriminate.
Qed.

(** C7, amended.  Illegal answers are stopped inside the decision-making
    classes, and the game controller checks nothing.
    - [InteractiveHumanPlayer.make_bid] asks again when the number typed is
      outside [(current_bid, max_possible]]; every bid that [make_bid] of
      either class, or the fallback for a player without one, returns lies
      in that interval.
    - [InteractiveHumanPlayer.choose_card_to_play] asks again when the
      number typed is not a position of the hand; the card it returns, and
      the card [SimpleAIPlayer.choose_card_to_play] returns, is in the hand.
    - [bidding_phase] makes whatever bid it is handed the current bid.
    - A card that is not in the hand is not played: the player is left
      unchanged and [card_placement_phase] moves the turn on, with no second
      prompt. *)
Theorem illegal_answers_stop_at_the_collaborator :
  (∀ cur mx z rest,
     ¬ (cur < z ≤ mx)%Z →
     human_bid_prompt cur mx (Line (Tint z) :: rest)
       = human_bid_prompt cur mx rest) ∧
  (∀ p cur mx e e' b,
     ask_bid p cur mx e = Ret (Some b) e' → (cur < b ≤ mx)%Z) ∧
  (∀ h z rest,
     ¬ (1 ≤ z ≤ Z.of_nat (length h))%Z →
     human_card_prompt h (Line (Tint z) :: rest) = human_card_prompt h rest) ∧
  (∀ p e e' c,
     human_choose_card_to_play p e = Ret (Some c) e' → c ∈ hand p) ∧
  (∀ strategy p e e' c,
     ai_choose_card_to_play strategy p e = Ret (Some c) e' → c ∈ hand p) ∧
  (∀ g b, current_bid (bidding_apply (Some b) g) = b) ∧
  (∀ g e i p card,
     players g !! i = Some p → card ∉ hand p →
     placement_apply i p (Some card) (g, e)
       = Ret true (next_player
                     (log (LPlayedAnother (name p) (cards_played_count p)) g),
                   e)).
Proof.
  split_and!.
  - intros cur mx z rest Hz. simpl. by rewrite bool_decide_eq_false_2.
  - apply ask_bid_legal.
  - intros h z rest Hz. simpl. unfold card_at.
    rewrite bool_decide_eq_false_2; [done | lia].
  - intros p e e' c. unfold human_choose_card_to_play.
    destruct (hand p) as [|c0 h0] eqn:Hh; [done|]. rewrite <- Hh.
    destruct (human_card_prompt (hand p) (stdin e)) as [[o rest]|] eqn:E;
      [|done].
    intros [= -> _]. by eapply human_card_prompt_in_hand.
  - apply ai_choose_card_in_hand.
  - intros g b. by rewrite bidding_apply_current_bid.
  - intros g e i p card Hp Hnot.
    assert (upd i (λ p, snd (play_card card p)) g = g) as Hsame.
    { unfold upd. rewrite (alter_fix _ _ _ _ Hp); [apply set_players_same|].
      unfold play_card. by rewrite bool_decide_eq_false_2. }
    unfold placement_apply, bind at 1, modify at 1. cbn [fst snd].
    rewrite Hsame. unfold bind at 1, player_at. cbn [fst snd]. rewrite Hp.
    done.
Qed.

(** A card object that is not in Ann's hand, handed to the controller on
    [table]: nothing is played and it is Bob's turn. *)
Example stray_card_is_skipped :
  let g := sample_game table 0 CARD_PLACEMENT 0 None in
  ∃ g', placement_apply 0 (plays [0] ann) (Some (mkCard 99 ROSE))
          (g, sample_env []) = Ret true (g', sample_env [])
        ∧ players g' = players g ∧ current_player_index g' = 1.
Proof. eexists. split; [vm_compute; reflexivity|]. done. Qed.

(** ** Withdrawal *)

Lemma has_cards_to_play_true (p : Player) :
  hand p ≠ [] → has_cards_to_play p = true.
Proof.
  intros H. unfold has_cards_to_play. apply bool_decide_eq_true.
  destruct (hand p); [done | simpl; lia].
Qed.

(** [card_placement_phase] for a human player with cards, by what is typed. *)
Lemma card_placement_human (g : Game) (e : Env) (p : Player) :
  game_state g = CARD_PLACEMENT →
  get_current_player g = Some p →
  cls p = InteractiveHumanPlayer →
  hand p ≠ [] →
  card_placement_phase (g, e) =
    match human_decide_prompt (stdin e) with
    | None => Blocked
    | Some (inl x, rest) => Raise x (g, with_stdin e rest)
    | Some (inr true, rest) =>
        Ret true (start_bidding_phase g, with_stdin e rest)
    | Some (inr false, rest) =>
        match human_card_prompt (hand p) rest with
        | None => Blocked
        | Some (None, rest') =>
            Ret false (set_game_state GAME_OVER g, with_stdin e rest')
        | Some (Some c, rest') =>
            placement_apply (current_player_index g) p (Some c)
              (g, with_stdin e rest')
        end
    end.
Proof.
  intros Hst Hp Hcls Hhand.
  unfold card_placement_phase, bind at 1, get_game. cbn [fst snd].
  rewrite bool_decide_eq_true_2 by done. cbn [negb].
  unfold bind at 1, player_at. cbn [fst snd].
  unfold get_current_player in Hp. rewrite Hp.
  rewrite has_cards_to_play_true by done. cbn [negb]. rewrite Hcls.
  unfold bind at 1, lift, human_decide_play_or_bid. cbn [fst snd].
  destruct (human_decide_prompt (stdin e)) as [[[x|[|]] rest]|].
  - reflexivity.
  - reflexivity.
  - unfold bind at 1, lift, human_choose_card_to_play. cbn [fst snd stdin].
    destruct (hand p) as [|c0 h0] eqn:Hh; [done|].
    change (stdin (with_stdin e rest)) with rest.
    destruct (human_card_prompt (c0 :: h0) rest) as [[[c|] rest']|];
      reflexivity.
  - reflexivity.
Qed.

Lemma set_game_state_same (g : Game) : set_game_state (game_state g) g = g.
Proof. by destruct g. Qed.

(** A phase that leaves the game over makes [play_turn] return [False]. *)
Lemma play_turn_phase_over (g : Game) (e : Env) (u : unit) (w' : World) :
  game_state g ≠ GAME_OVER →
  run_phase (game_state g) (g, e) = Ret u w' →
  game_state (fst w') = GAME_OVER →
  play_turn (g, e) = Ret false w'.
Proof.
  intros Hst Hrun Hover. unfold play_turn. cbn [fst].
  rewrite bool_decide_eq_false_2 by done. rewrite Hrun.
  assert (set_world_state GAME_OVER w' = w') as ->.
  { destruct w' as [g' e']. unfold set_world_state. simpl in *.
    by rewrite <- Hover, set_game_state_same. }
  rewrite bool_decide_eq_true_2 by done. by destruct (someone_won _).
Qed.

Lemma initial_place_one_true (i : nat) (w w' : World) :
  initial_place_one i w = Ret true w' → game_state (fst w') = GAME_OVER.
Proof.
  unfold initial_place_one. intros H.
  apply bind_Ret in H as (p & w1 & Hp & H).
  apply player_at_Ret in Hp as [Hp ->].
  destruct (has_cards_to_play p); cbn [negb] in H.
  2:{ apply bind_Ret in H as (? & ? & _ & H).
      apply bind_Ret in H as (? & ? & _ & H).
      by apply ret_Ret in H as [? _]. }
  apply bind_Ret in H as (g & w1 & Hg & H).
  apply get_game_Ret in Hg as [-> ->].
  assert (∀ c w0, initial_apply i p c w0 ≠ Ret true w') as Hplace.
  { intros c w0 Hc. unfold initial_apply in Hc.
    apply bind_Ret in Hc as (? & ? & _ & Hc).
    apply bind_Ret in Hc as (? & ? & _ & Hc).
    by apply ret_Ret in Hc as [? _]. }
  destruct (cls p) as [| |strategy].
  - destruct (is_ai p); [done|].
    destruct (hand p) as [|c0 h0]; [by apply ret_Ret in H as [? _]|].
    apply bind_Ret in H as (c & w1 & _ & H). by apply Hplace in H.
  - apply bind_Ret in H as (card & w1 & _ & H).
    destruct card as [c|]; [by apply Hplace in H|].
    apply bind_Ret in H as (u & w2 & Hm & H). apply modify_Ret in Hm.
    apply ret_Ret in H as [_ <-]. by subst.
  - destruct (is_ai p).
    + apply bind_Ret in H as (card & w1 & _ & H).
      destruct card as [c|]; [by apply Hplace in H|].
      by apply ret_Ret in H as [? _].
    + destruct (hand p) as [|c0 h0]; [by apply ret_Ret in H as [? _]|].
      apply bind_Ret in H as (c & w1 & _ & H). by apply Hplace in H.
Qed.

Lemma initial_loop_true (active : list nat) (w w' : World) :
  initial_loop active w = Ret true w' → game_state (fst w') = GAME_OVER.
Proof.
  revert w. induction active as [|i active IH]; intros w H; simpl in H.
  - by apply ret_Ret in H as [? _].
  - apply bind_Ret in H as (b & w1 & H1 & H). destruct b.
    + apply ret_Ret in H as [_ <-]. by eapply initial_place_one_true.
    + by eapply IH.
Qed.

Lemma game_loop_stop (left : nat) (w w' : World) :
  play_turn w = Ret false w' →
  game_loop left w = Ret (bool_decide (left = 0)) w'.
Proof. intros H. destruct left; simpl; by rewrite H. Qed.

(** The program tells its user to type quit at any prompt to exit, and
    to press Ctrl-C at any time to quit the game.  The prompt for a card to
    play keeps that promise: quit or Ctrl-C there leaves the loop of the
    initial placement at once with the game over, ends the turn of the card
    placement with the game over, and a turn that has ended the game makes
    the driver print the final results.  Ctrl-C at the play-or-bid prompt,
    which is not caught there, ends the game through [play_turn]. *)
Lemma quit_at_card_prompt_ends_game :
  (∀ i g e p rest,
     players g !! i = Some p → cls p = InteractiveHumanPlayer →
     hand p ≠ [] →
     human_card_prompt (hand p) (stdin e) = Some (None, rest) →
     initial_place_one i (g, e)
       = Ret true (set_game_state GAME_OVER g, with_stdin e rest)) ∧
  (∀ active w w',
     initial_loop active w = Ret true w' → game_state (fst w') = GAME_OVER) ∧
  (∀ g e p rest rest',
     game_state g = CARD_PLACEMENT → get_current_player g = Some p →
     cls p = InteractiveHumanPlayer → hand p ≠ [] →
     human_decide_prompt (stdin e) = Some (inr false, rest) →
     human_card_prompt (hand p) rest = Some (None, rest') →
     play_turn (g, e)
       = Ret false (set_game_state GAME_OVER g, with_stdin e rest')) ∧
  (∀ g e p rest,
     game_state g = CARD_PLACEMENT → get_current_player g = Some p →
     cls p = InteractiveHumanPlayer → hand p ≠ [] →
     human_decide_prompt (stdin e) = Some (inl KeyboardInterrupt, rest) →
     play_turn (g, e)
       = Ret false (set_game_state GAME_OVER g, with_stdin e rest)) ∧
  (∀ g e u w',
     game_state g ≠ GAME_OVER →
     run_phase (game_state g) (g, e) = Ret u w' →
     game_state (fst w') = GAME_OVER →
     play_turn (g, e) = Ret false w') ∧
  (∀ w w',
     play_turn w = Ret false w' →
     play_interactive_game w
       = Reported false (print_final_results (fst w')) w').
Proof.
  split_and!.
  - intros i g e p rest Hp Hcls Hhand Hquit.
    unfold initial_place_one, bind at 1, player_at. cbn [fst snd]. rewrite Hp.
    rewrite has_cards_to_play_true by done. cbn [negb].
    unfold bind at 1, get_game. cbn [fst snd]. rewrite Hcls.
    unfold bind at 1, lift, human_choose_card_to_play. cbn [fst snd].
    destruct (hand p) as [|c0 h0] eqn:Hh; [done|]. by rewrite Hquit.
  - apply initial_loop_true.
  - intros g e p rest rest' Hst Hp Hcls Hhand Hdec Hquit.
    apply (play_turn_phase_over _ _ tt); [congruence | | done].
    rewrite Hst. cbn [run_phase]. unfold bind.
    rewrite (card_placement_human g e p) by done.
    by rewrite Hdec, Hquit.
  - intros g e p rest Hst Hp Hcls Hhand Hdec.
    unfold play_turn. cbn [fst]. rewrite bool_decide_eq_false_2 by congruence.
    rewrite Hst. cbn [run_phase]. unfold bind.
    rewrite (card_placement_human g e p) by done.
    by rewrite Hdec.
  - intros g e u w'. apply play_turn_phase_over.
  - intros w w' H. unfold play_interactive_game.
    by rewrite (game_loop_stop _ _ _ H).
Qed.

(** The other three prompts of the human player do not keep it, in any
    game.  Quit typed at the play-or-bid prompt is answered like the
    choice to bid: the bidding is opened and the turn returns [True].  At
    the bid prompt quit and Ctrl-C are answered like a pass, so that
    [bidding_phase] cannot tell them from one.  At the prompt for the card
    to lose quit and Ctrl-C ask for a random card of the hand. *)
Lemma quit_is_taken_as_an_answer :
  (∀ g e p rest,
     game_state g = CARD_PLACEMENT → get_current_player g = Some p →
     cls p = InteractiveHumanPlayer → hand p ≠ [] →
     stdin e = Line Tquit :: rest →
     card_placement_phase (g, e)
       = Ret true (start_bidding_phase g, with_stdin e rest)) ∧
  (∀ cur mx e rest x,
     x = Line Tquit ∨ x = CtrlC →
     stdin e = x :: rest →
     human_make_bid cur mx e = Ret None (with_stdin e rest) ∧
     human_make_bid cur mx e
       = human_make_bid cur mx (with_stdin e (Line Tpass :: rest))) ∧
  (∀ p e c0 h rest x,
     x = Line Tquit ∨ x = CtrlC →
     hand p = c0 :: h → stdin e = x :: rest →
     human_choose_card_to_lose p e
       = (let! c := choice c0 (hand p) in ret (Some c)) (with_stdin e rest)).
Proof.
  split_and!.
  - intros g e p rest Hst Hp Hcls Hhand Hin.
    rewrite (card_placement_human g e p) by done. by rewrite Hin.
  - intros cur mx e rest x Hx Hin. unfold human_make_bid.
    rewrite Hin. by destruct Hx as [-> | ->].
  - intros p e c0 h rest x Hx Hh Hin. unfold human_choose_card_to_lose.
    rewrite Hh, Hin. by destruct Hx as [-> | ->].
Qed.

(** C8.  Withdrawal does not end the game at every prompt, although the
    program announces that it does and the prompt for a card to play does
    it.  The sample game of [create_interactive_game] is run on what the
    human player types, with programmed players that draw 99 every time
    (they play roses, never open the bidding and always pass), or that draw
    0, 1, 2, ... in turn.

    Quit as the first answer, at the prompt for the first card, ends the
    game in its first round with the final results.

    Quit typed at the play-or-bid prompt opens the bidding in the human
    player's name; the others pass, the human player is the challenger and
    wins the round.  Quit typed at the bid prompt is logged as a pass and
    the bidding goes on.  Quit, or Ctrl-C, at the prompt for the card to
    lose costs the human player a random card.  In each of the three runs a
    second round begins, and the game only ends when quit is typed again,
    at the prompt for a card to play; without that second quit the program
    is waiting at that prompt. *)
Theorem quit_plays_on :
  let always99 : nat → nat := λ _, 99 in
  let counting : nat → nat := λ n, n in
  let human (g : Game) : list Player :=
    filter (λ p, name p = "Human Player"%string) (players g) in
  (∃ rep w,
     create_interactive_game (mkEnv [Line Tquit] always99 0)
       = inr (Reported false rep w) ∧
     game_state (fst w) = GAME_OVER ∧ stdin (snd w) = [] ∧
     round_number (fst w) = 1 ∧ total_challenges (game_stats (fst w)) = 0) ∧
  (create_interactive_game (mkEnv [Line (Tint 1); Line Tquit] always99 0)
     = inr Waiting ∧
   ∃ rep w,
     create_interactive_game
         (mkEnv [Line (Tint 1); Line Tquit; Line Tquit] always99 0)
       = inr (Reported false rep w) ∧
     game_state (fst w) = GAME_OVER ∧ stdin (snd w) = [] ∧
     (1, LBiddingStarted "Human Player") ∈ game_log (fst w) ∧
     (1, LWinsRound "Human Player" 1) ∈ game_log (fst w) ∧
     rounds_won <$> human (fst w) = [1] ∧
     round_number (fst w) = 2 ∧ total_challenges (game_stats (fst w)) = 1) ∧
  (create_interactive_game (mkEnv [Line (Tint 1); Line Tquit] counting 0)
     = inr Waiting ∧
   ∃ rep w,
     create_interactive_game
         (mkEnv [Line (Tint 1); Line Tquit; Line Tquit] counting 0)
       = inr (Reported false rep w) ∧
     game_state (fst w) = GAME_OVER ∧ stdin (snd w) = [] ∧
     (1, LPasses "Human Player") ∈ game_log (fst w) ∧
     (1, LBids "AI Bob" 4%Z) ∈ game_log (fst w) ∧
     round_number (fst w) = 2 ∧ total_challenges (game_stats (fst w)) = 1) ∧
  (∀ x, x = Line Tquit ∨ x = CtrlC →
     create_interactive_game (mkEnv [Line (Tint 4); Line Tb; x] always99 0)
       = inr Waiting ∧
     ∃ rep w,
       create_interactive_game
           (mkEnv [Line (Tint 4); Line Tb; x; Line Tquit] always99 0)
         = inr (Reported false rep w) ∧
       game_state (fst w) = GAME_OVER ∧ stdin (snd w) = [] ∧
       (1, LOwnSkullLoses "Human Player") ∈ game_log (fst w) ∧
       (λ p, (length (hand p), cards_lost (stats p))) <$> human (fst w)
         = [(3, 1)] ∧
       round_number (fst w) = 2 ∧ total_challenges (game_stats (fst w)) = 1).
Proof.
  intros always99 counting human.
  assert (Hlog : ∀ (x : nat * LogMsg) l,
            In x l → x ∈ l) by (intros x l; apply list_elem_of_In).
  split_and!.
  - eexists _, _. split; [vm_compute; reflexivity|]. vm_compute. done.
  - vm_compute; reflexivity.
  - eexists _, _. split; [vm_compute; reflexivity|].
    split_and!; try (vm_compute; reflexivity);
      apply Hlog; vm_compute; tauto.
  - vm_compute; reflexivity.
  - eexists _, _. split; [vm_compute; reflexivity|].
    split_and!; try (vm_compute; reflexivity);
      apply Hlog; vm_compute; tauto.
  - intros x [-> | ->].
    + split; [vm_compute; reflexivity|].
      eexists _, _. split; [vm_compute; reflexivity|].
      split_and!; try (vm_compute; reflexivity);
        apply Hlog; vm_compute; tauto.
    + split; [vm_compute; reflexivity|].
      eexists _, _. split; [vm_compute; reflexivity|].
      split_and!; try (vm_compute; reflexivity);
        apply Hlog; vm_compute; tauto.
Qed.

(** Ann decides to play a card and then quits at the card prompt: the game
    is over and the final results are printed. *)
Example quit_at_card_prompt_runs :
  let w := (sample_game table 0 CARD_PLACEMENT 0 None,
            sample_env [Line Tp; Line Tother; Line Tquit]) in
  ∃ r w', play_interactive_game w = Reported false r w'
          ∧ game_state (fst w') = GAME_OVER ∧ stdin (snd w') = [].
Proof. eexists _, _. vm_compute. done. Qed.

(** ** Invariants of the game *)

Section Keeps.
Variable I : Game → Prop.

(** [keeps m Q]: run from a game that satisfies [I], [m] leaves a game
    that satisfies [I], whether it returns or raises, and a returned
    value satisfies [Q]. *)
Definition keeps {A} (m : M World A) (Q : A → Prop) : Prop :=
  ∀ w, I (fst w) →
       match m w with
       | Ret a w' => I (fst w') ∧ Q a
       | Raise _ w' => I (fst w')
       | Blocked => True
       end.

Lemma keeps_ret {A} (a : A) (Q : A → Prop) : Q a → keeps (ret a) Q.
Proof. intros HQ w Hw. by split. Qed.

Lemma keeps_raise {A} (x : Exc) (Q : A → Prop) : keeps (raise x) Q.
Proof. by intros w Hw. Qed.

Lemma keeps_bind {A B} (m : M World A) (k : A → M World B)
    (Q : A → Prop) (R : B → Prop) :
  keeps m Q → (∀ a, Q a → keeps (k a) R) → keeps (bind m k) R.
Proof.
  intros Hm Hk w Hw. unfold bind. specialize (Hm w Hw).
  destruct (m w) as [a w'|x w'|]; [|done|done].
  destruct Hm as [Hw' Ha]. by apply Hk.
Qed.

Lemma keeps_weaken {A} (m : M World A) (Q Q' : A → Prop) :
  keeps m Q → (∀ a, Q a → Q' a) → keeps m Q'.
Proof.
  intros Hm HQ w Hw. specialize (Hm w Hw).
  destruct (m w) as [a w'|x w'|]; [|done|done].
  destruct Hm. auto.
Qed.

Lemma keeps_modify (f : Game → Game) :
  (∀ g, I g → I (f g)) → keeps (modify f) (λ _, True).
Proof. intros Hf w Hw. split; [by apply Hf | done]. Qed.

Lemma keeps_get_game : keeps get_game I.
Proof. by intros w Hw. Qed.

Lemma keeps_lift {A} (m : M Env A) (Q : A → Prop) :
  (∀ e, match m e with Ret a _ => Q a | _ => True end) →
  keeps (lift m) Q.
Proof.
  intros Hm w Hw. unfold lift. specialize (Hm (snd w)).
  by destruct (m (snd w)).
Qed.

Lemma keeps_lift_any {A} (m : M Env A) : keeps (lift m) (λ _, True).
Proof. apply keeps_lift. intros e. by destruct (m e). Qed.

Lemma keeps_player_at (i : nat) : keeps (player_at i) (λ _, True).
Proof.
  intros w Hw. unfold player_at. by destruct (players (fst w) !! i).
Qed.

Lemma keeps_the_challenger : keeps the_challenger (λ _, True).
Proof.
  intros w Hw. unfold the_challenger.
  destruct (challenger (fst w)) as [c|]; [|done].
  by destruct (players (fst w) !! c).
Qed.
End Keeps.

(** A step of [keeps]: splits a sequence, and closes what the structure of
    the code decides. *)
Ltac keeps_step :=
  lazymatch goal with
  | |- keeps _ (bind get_game _) _ =>
      eapply keeps_bind; [apply keeps_get_game | intros ? ?]
  | |- keeps _ (bind (player_at _) _) _ =>
      eapply keeps_bind; [apply keeps_player_at | intros ? _]
  | |- keeps _ (bind the_challenger _) _ =>
      eapply keeps_bind; [apply keeps_the_challenger | intros ? _]
  | |- keeps _ (bind (lift _) _) _ =>
      eapply keeps_bind; [apply keeps_lift_any | intros ? _]
  | |- keeps _ (bind (modify _) _) _ =>
      eapply keeps_bind; [apply keeps_modify | intros ? _]
  | |- keeps _ (bind _ _) _ => eapply keeps_bind; [ | intros ? ?]
  | |- keeps _ (ret _) _ => by apply keeps_ret
  | |- keeps _ (raise _) _ => apply keeps_raise
  | |- keeps _ (modify _) _ => apply keeps_modify
  | |- keeps _ (lift _) _ => apply keeps_lift_any
  | |- keeps _ (if ?b then _ else _) _ => destruct b
  | |- keeps _ (match ?x with _ => _ end) _ => destruct x
  end.

(** ** Card conservation *)

(** The cards in hand, those on the stack and those lost for good add up to
    the four cards a player starts with. *)
Definition conserved (p : Player) : Prop :=
  length (hand p) + length (played_cards p) + cards_lost (stats p) = 4.

Definition all_conserved (g : Game) : Prop := Forall conserved (players g).

Create HintDb conserve.

Lemma play_card_conserved (card : Card) (p : Player) :
  conserved p → conserved (snd (play_card card p)).
Proof.
  unfold conserved, play_card. intros H.
  case_bool_decide; [|done].
  destruct (remove_first card (hand p)) as [h|] eqn:E; [|done].
  apply remove_first_length in E.
  destruct (is_skull card); simpl; rewrite length_app; simpl; lia.
Qed.

Lemma retrieve_cards_conserved (p : Player) :
  conserved p → conserved (retrieve_cards p).
Proof. unfold conserved. simpl. rewrite length_app. lia. Qed.

Lemma lose_card_conserved (card : Card) (p : Player) :
  conserved p → conserved (snd (lose_card card p)).
Proof.
  unfold conserved, lose_card. intros H.
  destruct (remove_first card (hand p)) as [h|] eqn:E; [|done].
  apply remove_first_length in E.
  case_bool_decide; simpl; lia.
Qed.

Lemma lose_random_card_conserved (r : nat) (p : Player) :
  conserved p → conserved (snd (lose_random_card r p)).
Proof.
  unfold lose_random_card. intros H. destruct (hand p) eqn:E; [done|].
  rewrite <- E. destruct (random_choice r (hand p)); [|done].
  by apply lose_card_conserved.
Qed.

Lemma lose_chosen_card_conserved (card : Card) (p : Player) :
  conserved p → conserved (snd (lose_chosen_card card p)).
Proof.
  unfold lose_chosen_card. intros H. case_bool_decide; [|done].
  by apply lose_card_conserved.
Qed.

Lemma reveal_top_conserved (card : Card) (rest : list Card) (p : Player) :
  played_cards p = rest ++ [card] →
  conserved p → conserved (reveal_top card rest p).
Proof.
  unfold conserved. intros Hs. rewrite Hs. simpl.
  rewrite !length_app. simpl. lia.
Qed.

Lemma same_cards_conserved (f : Player → Player) (p : Player) :
  hand (f p) = hand p → played_cards (f p) = played_cards p →
  cards_lost (stats (f p)) = cards_lost (stats p) →
  conserved p → conserved (f p).
Proof. unfold conserved. by intros -> -> ->. Qed.

Lemma all_conserved_players (g g' : Game) :
  players g' = players g → all_conserved g → all_conserved g'.
Proof. unfold all_conserved. by intros ->. Qed.

Lemma all_conserved_upd (i : nat) (f : Player → Player) (g : Game) :
  (∀ p, conserved p → conserved (f p)) →
  all_conserved g → all_conserved (upd i f g).
Proof.
  intros Hf H. unfold all_conserved, upd. simpl.
  apply Forall_alter; [done|]. intros p _. apply Hf.
Qed.

Lemma all_conserved_fmap (f : Player → Player) (g : Game) :
  (∀ p, conserved p → conserved (f p)) →
  all_conserved g → all_conserved (set_players (f <$> players g) g).
Proof.
  intros Hf H. unfold all_conserved. simpl.
  apply Forall_fmap. eapply Forall_impl; [exact H|]. intros p. apply Hf.
Qed.

Lemma start_bidding_phase_players (g : Game) :
  players (start_bidding_phase g) = players g.
Proof.
  unfold start_bidding_phase; cbv zeta.
  by destruct (get_current_player _).
Qed.

Lemma all_conserved_log (m : LogMsg) (g : Game) :
  all_conserved g → all_conserved (log m g).
Proof. by apply all_conserved_players. Qed.

Lemma all_conserved_set_game_state (s : GameState) (g : Game) :
  all_conserved g → all_conserved (set_game_state s g).
Proof. by apply all_conserved_players. Qed.

Lemma all_conserved_set_game_stats (s : GameStats) (g : Game) :
  all_conserved g → all_conserved (set_game_stats s g).
Proof. by apply all_conserved_players. Qed.

Lemma all_conserved_set_skull_revealer (r : option nat) (g : Game) :
  all_conserved g → all_conserved (set_skull_revealer r g).
Proof. by apply all_conserved_players. Qed.

Lemma all_conserved_next_player (g : Game) :
  all_conserved g → all_conserved (next_player g).
Proof. by apply all_conserved_players. Qed.

Lemma all_conserved_start_bidding_phase (g : Game) :
  all_conserved g → all_conserved (start_bidding_phase g).
Proof. apply all_conserved_players, start_bidding_phase_players. Qed.

Lemma all_conserved_bidding_apply (new_bid : option Z) (g : Game) :
  all_conserved g → all_conserved (bidding_apply new_bid g).
Proof.
  intros H. unfold all_conserved. rewrite bidding_apply_players.
  destruct new_bid; [done|]. apply Forall_alter; [done|]. by intros p _.
Qed.

Lemma all_conserved_retrieve_all (g : Game) :
  all_conserved g → all_conserved (retrieve_all g).
Proof. apply all_conserved_fmap. intros p. apply retrieve_cards_conserved. Qed.

Lemma all_conserved_start_new_round (g : Game) :
  all_conserved g → all_conserved (start_new_round g).
Proof.
  intros H. unfold all_conserved. rewrite start_new_round_players.
  apply Forall_fmap. eapply Forall_impl; [exact H|]. by intros p.
Qed.

#[local] Hint Resolve all_conserved_log all_conserved_set_game_state
  all_conserved_set_game_stats all_conserved_set_skull_revealer
  all_conserved_next_player all_conserved_start_bidding_phase
  all_conserved_bidding_apply all_conserved_retrieve_all
  all_conserved_start_new_round all_conserved_upd
  play_card_conserved retrieve_cards_conserved lose_random_card_conserved
  lose_chosen_card_conserved : conserve.

Lemma reveal_own_conserved (c n : nat) (g : Game) :
  all_conserved g → all_conserved (reveal_own c n g).2.
Proof.
  revert g. induction n as [|n IH]; intros g H; simpl; [done|].
  destruct (players g !! c) as [ch|] eqn:Hch; [|done].
  destruct (pop (played_cards ch)) as [[card rest]|] eqn:Hpop; [|done].
  apply pop_Some in Hpop.
  assert (all_conserved (upd c (reveal_top card rest) g)) as H1.
  { unfold all_conserved, upd. simpl. apply Forall_alter; [done|].
    intros p Hp. rewrite Hch in Hp. injection Hp as <-.
    by apply reveal_top_conserved. }
  destruct (negb _); [done|].
  destruct (is_skull card).
  - simpl. apply all_conserved_upd; [|done]. by intros p.
  - specialize (IH (log (LRevealed (card_type card))
                        (upd c (reveal_top card rest) g))).
    destruct (reveal_own c n _) as [[tr e] g']. simpl in *.
    by apply IH.
Qed.

Lemma reveal_others_conserved (c n : nat) :
  ∀ (others : list nat) (g : Game) (e : Env),
    all_conserved g →
    match reveal_others c n others g e with
    | Ret r _ => all_conserved r.2
    | _ => True
    end.
Proof.
  induction n as [|n IH]; intros others g e H; [done|].
  cbn [reveal_others]. destruct others as [|o0 others0]; [done|].
  unfold bind at 1. rewrite choice_run.
  set (t := default o0 _).
  destruct (players g !! t) as [tp|] eqn:Htp; [|done].
  destruct (pop (played_cards tp)) as [[card rest]|] eqn:Hpop; [|done].
  apply pop_Some in Hpop.
  assert (all_conserved (upd t (reveal_top card rest) g)) as H1.
  { unfold all_conserved, upd. simpl. apply Forall_alter; [done|].
    intros p Hp. rewrite Htp in Hp. injection Hp as <-.
    by apply reveal_top_conserved. }
  destruct (is_skull card).
  - simpl. apply all_conserved_upd; [|done]. by intros p.
  - unfold bind.
    match goal with
    | |- context [reveal_others c n ?o ?g' ?e'] =>
        specialize (IH o g' e'); destruct (reveal_others c n o g' e')
          as [[[tr en] g1] e1| |]
    end; [|done|done].
    simpl in *. by apply IH.
Qed.

Lemma resolve_conserved (c : nat) (g : Game) (e : Env) :
  all_conserved g →
  match resolve c g e with
  | Ret r _ => all_conserved r.2
  | _ => True
  end.
Proof.
  intros H. unfold resolve.
  pose proof (reveal_own_conserved c (Z.to_nat (current_bid g)) g H) as H1.
  destruct (reveal_own c _ g) as [[tr en] g1]. simpl in H1.
  destruct en as [m| |x]; [|done|done].
  unfold bind.
  pose proof (reveal_others_conserved c m (other_players c g1) g1 e H1) as H2.
  destruct (reveal_others c m _ g1 e) as [[[tr2 en2] g2] e2| |]; done.
Qed.

Local Ltac conserve_player :=
  let p := fresh "p" in
  let Hp := fresh "Hp" in
  intros p Hp; cbv beta;
  first [ exact (play_card_conserved _ _ Hp)
        | exact (lose_random_card_conserved _ _ Hp)
        | exact (lose_chosen_card_conserved _ _ Hp)
        | exact Hp ].

Local Ltac conserve_side :=
  intros;
  repeat lazymatch goal with
  | |- all_conserved (upd _ _ _) =>
      apply all_conserved_upd; [conserve_player | ]
  | |- all_conserved (log _ _) => apply all_conserved_log
  | |- all_conserved (set_game_state _ _) => apply all_conserved_set_game_state
  | |- all_conserved (set_game_stats _ _) => apply all_conserved_set_game_stats
  | |- all_conserved (set_skull_revealer _ _) =>
      apply all_conserved_set_skull_revealer
  | |- all_conserved (next_player _) => apply all_conserved_next_player
  | |- all_conserved (start_bidding_phase _) =>
      apply all_conserved_start_bidding_phase
  | |- all_conserved (bidding_apply _ _) => apply all_conserved_bidding_apply
  | |- all_conserved (retrieve_all _) => apply all_conserved_retrieve_all
  | |- all_conserved (start_new_round _) => apply all_conserved_start_new_round
  | |- all_conserved _ => assumption
  end.

Local Ltac conserve :=
  repeat keeps_step; repeat keeps_step; try conserve_side.

Lemma keeps_initial_place_one (i : nat) :
  keeps all_conserved (initial_place_one i) (λ _, True).
Proof. unfold initial_place_one, initial_apply. conserve. Qed.

Lemma keeps_initial_loop (active : list nat) :
  keeps all_conserved (initial_loop active) (λ _, True).
Proof.
  induction active as [|i active IH]; simpl.
  - by apply keeps_ret.
  - eapply keeps_bind; [apply keeps_initial_place_one|].
    intros [] _; [by apply keeps_ret | apply IH].
Qed.

Lemma keeps_initial_card_placement :
  keeps all_conserved initial_card_placement (λ _, True).
Proof.
  unfold initial_card_placement.
  keeps_step; [conserve_side|]. keeps_step. keeps_step; [conserve|].
  eapply keeps_bind; [apply keeps_initial_loop|]. intros ? _. conserve.
Qed.

Lemma keeps_card_placement_phase :
  keeps all_conserved card_placement_phase (λ _, True).
Proof. unfold card_placement_phase, placement_apply. conserve. Qed.

Lemma keeps_bidding_phase : keeps all_conserved bidding_phase (λ _, True).
Proof. unfold bidding_phase. conserve. Qed.

Lemma keeps_handle_successful_challenge :
  keeps all_conserved handle_successful_challenge (λ _, True).
Proof. unfold handle_successful_challenge. conserve. Qed.

Lemma keeps_handle_failed_challenge :
  keeps all_conserved handle_failed_challenge (λ _, True).
Proof.
  unfold handle_failed_challenge, challenger_loses_card, lose_random_card_of.
  conserve.
Qed.

Lemma keeps_challenge_phase : keeps all_conserved challenge_phase (λ _, True).
Proof.
  unfold challenge_phase.
  eapply keeps_bind; [apply keeps_get_game|]. intros g Hg.
  destruct (negb _); [by apply keeps_ret|].
  eapply keeps_bind; [apply keeps_the_challenger|]. intros c _.
  eapply keeps_bind; [apply keeps_player_at|]. intros ch _.
  eapply keeps_bind; [apply keeps_modify; conserve_side|]. intros _ _.
  eapply keeps_bind; [apply keeps_modify; conserve_side|]. intros _ _.
  eapply keeps_bind; [apply keeps_get_game|]. intros g0 Hg0.
  eapply (keeps_bind _ _ _ (λ r, all_conserved r.2)).
  { apply keeps_lift. intros e.
    pose proof (resolve_conserved c g0 e Hg0) as Hres.
    by destruct (resolve c g0 e). }
  intros [[tr en] g'] Hg'. simpl in Hg'.
  eapply keeps_bind; [apply keeps_modify; by intros|]. intros _ _.
  destruct en.
  - eapply keeps_bind; [apply keeps_modify; conserve_side|]. intros _ _.
    eapply keeps_bind; [apply keeps_modify; conserve_side|]. intros _ _.
    eapply keeps_bind; [apply keeps_modify; conserve_side|]. intros _ _.
    eapply keeps_bind; [apply keeps_handle_successful_challenge|].
    intros _ _. by apply keeps_ret.
  - eapply keeps_bind; [apply keeps_handle_failed_challenge|].
    intros _ _. by apply keeps_ret.
  - apply keeps_raise.
Qed.

Lemma keeps_run_phase (s : GameState) :
  keeps all_conserved (run_phase s) (λ _, True).
Proof.
  destruct s; simpl.
  - apply keeps_initial_card_placement.
  - eapply keeps_bind; [apply keeps_card_placement_phase|].
    intros _ _. by apply keeps_ret.
  - eapply keeps_bind; [apply keeps_bidding_phase|].
    intros _ _. by apply keeps_ret.
  - eapply keeps_bind; [apply keeps_challenge_phase|].
    intros _ _. by apply keeps_ret.
  - by apply keeps_ret.
Qed.

Lemma play_turn_conserved (w : World) :
  all_conserved (fst w) →
  match play_turn w with
  | Ret _ w' | Raise _ w' => all_conserved (fst w')
  | Blocked => True
  end.
Proof.
  intros Hw. unfold play_turn. case_bool_decide; [done|].
  pose proof (keeps_run_phase (game_state (fst w)) w Hw) as Hrun.
  destruct (run_phase _ w) as [u w'|x w'|]; [| |done].
  - destruct Hrun as [Hw' _]. by destruct (someone_won _).
  - by destruct x.
Qed.

Lemma game_loop_conserved (left : nat) (w : World) :
  all_conserved (fst w) →
  match game_loop left w with
  | Ret _ w' | Raise _ w' => all_conserved (fst w')
  | Blocked => True
  end.
Proof.
  revert w. induction left as [|left IH]; intros w Hw; simpl;
    pose proof (play_turn_conserved w Hw) as Hturn;
    destruct (play_turn w) as [[|] w'|x w'|]; try done.
  case_bool_decide; [done|]. by apply IH.
Qed.

(** C3. Card conservation, with the counter [cards_lost] of the player's
    statistics as the number of cards lost for good.  A new player holds
    three roses and a skull and satisfies [hand + played + lost = 4].  Each
    card operation keeps the equation for the player it acts on: playing a
    card, retrieving the stack, losing a random or a chosen card, and one
    reveal of a challenge.  A game built from such players satisfies it for
    every player, eliminated or not, and so does the game after every
    turn, however the turn ends, and after any run of the driver's loop. *)
Theorem cards_are_conserved :
  (∀ c nm ai fresh,
     conserved (Player_init c nm ai fresh) ∧
     card_type <$> hand (Player_init c nm ai fresh) = [ROSE; ROSE; ROSE; SKULL]
     ∧ played_cards (Player_init c nm ai fresh) = []) ∧
  (∀ card p, conserved p → conserved (snd (play_card card p))) ∧
  (∀ p, conserved p → conserved (retrieve_cards p)) ∧
  (∀ r p, conserved p → conserved (snd (lose_random_card r p))) ∧
  (∀ card p, conserved p → conserved (snd (lose_chosen_card card p))) ∧
  (∀ card rest p,
     played_cards p = rest ++ [card] →
     conserved p → conserved (reveal_top card rest p)) ∧
  (∀ ps e g e',
     Forall conserved ps →
     InteractiveSkullGame_init ps e = Ret g e' → all_conserved g) ∧
  (∀ w, all_conserved (fst w) →
        match play_turn w with
        | Ret _ w' | Raise _ w' => all_conserved (fst w')
        | Blocked => True
        end) ∧
  (∀ n w, all_conserved (fst w) →
          match game_loop n w with
          | Ret _ w' | Raise _ w' => all_conserved (fst w')
          | Blocked => True
          end).
Proof.
  split_and!.
  - intros c nm ai fresh. by repeat split.
  - apply play_card_conserved.
  - apply retrieve_cards_conserved.
  - apply lose_random_card_conserved.
  - apply lose_chosen_card_conserved.
  - apply reveal_top_conserved.
  - intros ps e g e' Hps. unfold InteractiveSkullGame_init.
    destruct (_ || _); [done|]. unfold bind, shuffle.
    destruct (shuffle_from_returns (length ps - 1) ps e) as (l' & -> & Hp).
    intros [= <- _]. unfold all_conserved. simpl. by rewrite Hp.
  - apply play_turn_conserved.
  - apply game_loop_conserved.
Qed.

(** A whole game of the sample players, played by the driver: the cards
    still add up when it is over. *)
Example cards_are_conserved_runs :
  let w := (sample_game [ann; bob; cat] 0 INITIAL_PLACEMENT 0 None,
            sample_env [Line (Tint 1); Line Tb; Line Tpass; Line Tquit]) in
  ∃ limit r w', play_interactive_game w = Reported limit r w'
                ∧ all_conserved (fst w').
Proof.
  intros w. pose proof (game_loop_conserved max_turns w) as H.
  unfold play_interactive_game.
  destruct (game_loop max_turns w) as [limit w'|x w'|] eqn:E.
  - eexists _, _, _. split; [reflexivity|]. apply H.
    repeat constructor.
  - vm_compute in E. discriminate.
  - vm_compute in E. discriminate.
Qed.

(** ** The card count test of the revealing loop *)

(** The test of line 604 counts [challenges_lost] where the cards lost are
    counted by [cards_lost].  In every game the driver can reach the two
    counters agree, and a player who is not eliminated holds a card. *)
Definition sound_player (p : Player) : Prop :=
  conserved p ∧
  challenges_lost (stats p) = cards_lost (stats p) ∧
  (is_eliminated p = false → hand p ≠ [] ∨ played_cards p ≠ []).

(** In the challenge phase the challenger is an active player. *)
Definition challenger_ready (g : Game) : Prop :=
  game_state g = CHALLENGE →
  ∃ c ch, challenger g = Some c ∧ players g !! c = Some ch
          ∧ is_eliminated ch = false.

Definition sound (g : Game) : Prop :=
  Forall sound_player (players g) ∧ challenger_ready g.

(** The invariant of the two placement phases. *)
Definition sound_placing (g : Game) : Prop :=
  Forall sound_player (players g) ∧ game_state g ≠ CHALLENGE.

Lemma sound_placing_sound (g : Game) : sound_placing g → sound g.
Proof. intros [H Hst]. split; [done|]. by intros ?. Qed.

Lemma play_card_sound (card : Card) (p : Player) :
  sound_player p → sound_player (snd (play_card card p)).
Proof.
  intros (Hc & Hl & Hh). split; [by apply play_card_conserved|].
  unfold play_card. case_bool_decide; [|done].
  destruct (remove_first card (hand p)) as [h|] eqn:E; [|done].
  destruct (is_skull card); simpl; (split; [done|]); intros _; right;
    by destruct (played_cards p).
Qed.

Lemma retrieve_cards_sound (p : Player) :
  sound_player p → sound_player (retrieve_cards p).
Proof.
  intros (Hc & Hl & Hh). split; [by apply retrieve_cards_conserved|].
  split; [done|]. simpl. intros He. left.
  destruct (Hh He) as [H|H]; destruct (hand p), (played_cards p); done.
Qed.

Lemma reveal_top_sound (card : Card) (rest : list Card) (p : Player) :
  played_cards p = rest ++ [card] →
  sound_player p → sound_player (reveal_top card rest p).
Proof.
  intros Hs (Hc & Hl & Hh). split; [by apply reveal_top_conserved|].
  split; [done|]. simpl. intros _. left. by destruct (hand p).
Qed.

Lemma sound_placing_players (g g' : Game) :
  players g' = players g → game_state g' = game_state g →
  sound_placing g → sound_placing g'.
Proof. unfold sound_placing. by intros -> ->. Qed.

Lemma sound_placing_upd (i : nat) (f : Player → Player) (g : Game) :
  (∀ p, sound_player p → sound_player (f p)) →
  sound_placing g → sound_placing (upd i f g).
Proof.
  intros Hf [H Hst]. split; [|done]. simpl.
  apply Forall_alter; [done|]. intros p _. apply Hf.
Qed.

Lemma sound_placing_set_game_state (s : GameState) (g : Game) :
  s ≠ CHALLENGE → sound_placing g → sound_placing (set_game_state s g).
Proof. intros Hs [H _]. by split. Qed.

Lemma start_bidding_phase_state (g : Game) :
  game_state (start_bidding_phase g) = BIDDING.
Proof.
  unfold start_bidding_phase; cbv zeta. by destruct (get_current_player _).
Qed.

Lemma sound_placing_start_bidding_phase (g : Game) :
  sound_placing g → sound_placing (start_bidding_phase g).
Proof.
  intros [H _]. split.
  - by rewrite start_bidding_phase_players.
  - by rewrite start_bidding_phase_state.
Qed.

Lemma sound_placing_log (m : LogMsg) (g : Game) :
  sound_placing g → sound_placing (log m g).
Proof. by apply sound_placing_players. Qed.

Lemma sound_placing_next_player (g : Game) :
  sound_placing g → sound_placing (next_player g).
Proof. by apply sound_placing_players. Qed.

Lemma set_is_eliminated_sound (p : Player) :
  sound_player p → sound_player (set_is_eliminated true p).
Proof. intros (Hc & Hl & _). by repeat split. Qed.

Local Ltac placing_player :=
  let p := fresh "p" in
  let Hp := fresh "Hp" in
  intros p Hp; cbv beta;
  first [ exact (play_card_sound _ _ Hp)
        | exact (set_is_eliminated_sound _ Hp)
        | exact Hp ].

Local Ltac placing_side :=
  intros;
  repeat lazymatch goal with
  | |- sound_placing (upd _ _ _) =>
      apply sound_placing_upd; [placing_player | ]
  | |- sound_placing (log _ _) => apply sound_placing_log
  | |- sound_placing (next_player _) => apply sound_placing_next_player
  | |- sound_placing (set_game_state _ _) =>
      apply sound_placing_set_game_state; [done | ]
  | |- sound_placing (start_bidding_phase _) =>
      apply sound_placing_start_bidding_phase
  | |- sound_placing _ => assumption
  end.

Local Ltac placing :=
  repeat keeps_step; repeat keeps_step; try placing_side.

Lemma placing_initial_place_one (i : nat) :
  keeps sound_placing (initial_place_one i) (λ _, True).
Proof. unfold initial_place_one, initial_apply. placing. Qed.

Lemma placing_initial_loop (active : list nat) :
  keeps sound_placing (initial_loop active) (λ _, True).
Proof.
  induction active as [|i active IH]; simpl.
  - by apply keeps_ret.
  - eapply keeps_bind; [apply placing_initial_place_one|].
    intros [] _; [by apply keeps_ret | apply IH].
Qed.

Lemma placing_initial_card_placement :
  keeps sound_placing initial_card_placement (λ _, True).
Proof.
  unfold initial_card_placement.
  keeps_step; [placing_side|]. keeps_step. keeps_step; [placing|].
  eapply keeps_bind; [apply placing_initial_loop|]. intros ? _. placing.
Qed.

Lemma placing_card_placement_phase :
  keeps sound_placing card_placement_phase (λ _, True).
Proof. unfold card_placement_phase, placement_apply. placing. Qed.

Lemma bidding_apply_challenge (new_bid : option Z) (g : Game) :
  game_state (bidding_apply new_bid g) = CHALLENGE →
  game_state g = CHALLENGE ∨
  ∃ c ch, challenger (bidding_apply new_bid g) = Some c ∧
          players (bidding_apply new_bid g) !! c = Some ch ∧
          is_eliminated ch = false.
Proof.
  unfold bidding_apply; cbv zeta.
  set (g1 := match new_bid with
             | Some b => _
             | None => _
             end).
  assert (game_state g1 = game_state g) as Hst.
  { unfold g1. by destruct new_bid. }
  destruct (active_bidders g1) as [|c [|c' l]] eqn:Ha.
  - simpl. rewrite Hst. by left.
  - intros _. right.
    assert (c ∈ active_bidders g1) as Hc by (rewrite Ha; by left).
    unfold active_bidders in Hc. apply list_elem_of_filter in Hc as [_ Hc].
    rewrite get_active_players_eq in Hc.
    apply active_indices_elem in Hc as (ch & Hch & He).
    exists c, ch. by repeat split.
  - simpl. rewrite Hst. by left.
Qed.

Lemma set_has_passed_sound (b : bool) (p : Player) :
  sound_player p → sound_player (set_has_passed b p).
Proof. done. Qed.

Lemma bidding_phase_sound (g : Game) (e : Env) (b : bool) (w' : World) :
  sound g → bidding_phase (g, e) = Ret b w' → sound (fst w').
Proof.
  intros [Hp Hc] H. apply bidding_phase_cases in H
    as [[_ ->] | (Hst & p & _ & [[_ ->] | (_ & nb & e' & _ & ->)])].
  - done.
  - split; [done|]. intros Hx. simpl in Hx. congruence.
  - cbn [fst]. split.
    + rewrite bidding_apply_players. destruct nb; [done|].
      apply Forall_alter; [done|]. intros q _. apply set_has_passed_sound.
    + intros Hch. apply bidding_apply_challenge in Hch as [Hch|Hch]; [|done].
      congruence.
Qed.

(** The one change a revealed skull makes to the statistics. *)
Definition bump (p : Player) : Player :=
  set_stats (incr_challenges_lost (stats p)) p.

Section RevealKeeps.
Variable P : Player → Prop.
Hypothesis P_reveal :
  ∀ p card rest, played_cards p = rest ++ [card] → P p → P (reveal_top card rest p).

Lemma Forall_reveal (t : nat) (tp : Player) (card : Card) (rest : list Card)
    (g : Game) :
  players g !! t = Some tp → played_cards tp = rest ++ [card] →
  Forall P (players g) → Forall P (players (upd t (reveal_top card rest) g)).
Proof.
  intros Htp Hs H. simpl. apply Forall_alter; [done|].
  intros p Hp. rewrite Htp in Hp. injection Hp as <-. by apply P_reveal.
Qed.

Lemma reveal_own_players (c n : nat) (g : Game) :
  Forall P (players g) →
  match reveal_own c n g with
  | (_, SkullSeen, g') => ∃ ps, Forall P ps ∧ players g' = alter bump c ps
  | (_, _, g') => Forall P (players g')
  end.
Proof.
  revert g. induction n as [|n IH]; intros g H; simpl; [done|].
  destruct (players g !! c) as [ch|] eqn:Hch; [|done].
  destruct (pop (played_cards ch)) as [[card rest]|] eqn:Hpop; [|done].
  apply pop_Some in Hpop.
  pose proof (Forall_reveal c ch card rest g Hch Hpop H) as H1.
  destruct (negb _); [done|].
  destruct (is_skull card).
  - by eexists.
  - specialize (IH (log (LRevealed (card_type card))
                        (upd c (reveal_top card rest) g)) H1).
    by destruct (reveal_own c n _) as [[tr e] g'].
Qed.

Lemma reveal_others_players (c n : nat) :
  ∀ (others : list nat) (g : Game) (e : Env),
    Forall P (players g) →
    match reveal_others c n others g e with
    | Ret (_, SkullSeen, g') _ =>
        ∃ ps, Forall P ps ∧ players g' = alter bump c ps
    | Ret (_, _, g') _ => Forall P (players g')
    | _ => True
    end.
Proof.
  induction n as [|n IH]; intros others g e H; [done|].
  cbn [reveal_others]. destruct others as [|o0 others0]; [done|].
  unfold bind at 1. rewrite choice_run.
  set (t := default o0 _).
  destruct (players g !! t) as [tp|] eqn:Htp; [|done].
  destruct (pop (played_cards tp)) as [[card rest]|] eqn:Hpop; [|done].
  apply pop_Some in Hpop.
  pose proof (Forall_reveal t tp card rest g Htp Hpop H) as H1.
  destruct (is_skull card).
  - by eexists.
  - unfold bind.
    match goal with
    | |- context [reveal_others c n ?o ?g' ?e'] =>
        specialize (IH o g' e' H1); destruct (reveal_others c n o g' e')
          as [[[tr en] g1] e1| |]
    end; done.
Qed.

Lemma resolve_players (c : nat) (g : Game) (e : Env) :
  Forall P (players g) →
  match resolve c g e with
  | Ret (_, SkullSeen, g') _ =>
      ∃ ps, Forall P ps ∧ players g' = alter bump c ps
  | Ret (_, _, g') _ => Forall P (players g')
  | _ => True
  end.
Proof.
  intros H. unfold resolve.
  pose proof (reveal_own_players c (Z.to_nat (current_bid g)) g H) as H1.
  destruct (reveal_own c _ g) as [[tr en] g1].
  destruct en as [m| |x]; [|done|done].
  unfold bind.
  pose proof (reveal_others_players c m (other_players c g1) g1 e H1) as H2.
  destruct (reveal_others c m _ g1 e) as [[[tr2 en2] g2] e2| |]; done.
Qed.
End RevealKeeps.

(** *** A failed challenge costs exactly one card *)

Lemma lose_card_after_bump (card : Card) (p0 : Player) :
  sound_player p0 → card ∈ hand p0 →
  sound_player (snd (lose_card card (bump p0))).
Proof.
  intros (Hc & Hl & Hh) Hin. unfold lose_card. simpl.
  destruct (remove_first_Some _ _ Hin) as (l1 & l2 & Hhand & _ & ->).
  unfold conserved in Hc. rewrite Hhand, length_app in Hc. simpl in Hc.
  case_bool_decide as Hempty; unfold sound_player, conserved; simpl;
    rewrite ?length_app; (split_and!; [lia | lia | ]).
  - done.
  - intros _. left. intros Hnil. rewrite Hnil in Hempty. done.
Qed.

Lemma lose_random_card_after_bump (r : nat) (p0 : Player) :
  sound_player p0 → hand p0 ≠ [] →
  sound_player (snd (lose_random_card r (bump p0))).
Proof.
  intros Hs Hhand. unfold lose_random_card.
  change (hand (bump p0)) with (hand p0).
  destruct (random_choice_elem r (hand p0) Hhand) as (card & -> & Hin).
  destruct (hand p0) eqn:E; [done|].
  apply lose_card_after_bump; [done|]. by rewrite E.
Qed.

Lemma lose_chosen_card_after_bump (card : Card) (p0 : Player) :
  sound_player p0 → card ∈ hand p0 →
  sound_player (snd (lose_chosen_card card (bump p0))).
Proof.
  intros Hs Hin. unfold lose_chosen_card.
  change (hand (bump p0)) with (hand p0).
  rewrite bool_decide_eq_true_2 by done. by apply lose_card_after_bump.
Qed.

Lemma human_lose_prompt_in_hand (h : list Card) (ins rest : list Input)
    (c : Card) :
  human_lose_prompt h ins = Some (inr c, rest) → c ∈ h.
Proof.
  induction ins as [|i ins IH]; simpl; [done|].
  destruct i as [[| | | |z|]|]; try done; try by apply IH.
  destruct (card_at h z) as [c'|] eqn:E; [|by apply IH].
  intros [= -> _]. by eapply card_at_elem.
Qed.

(** [choose_card_to_lose] of a human with cards never raises and, when it
    returns, returns a card of the hand. *)
Lemma human_choose_card_to_lose_run (p : Player) (e : Env) :
  hand p ≠ [] →
  match human_choose_card_to_lose p e with
  | Ret (Some c) _ => c ∈ hand p
  | Ret None _ | Raise _ _ => False
  | Blocked => True
  end.
Proof.
  intros Hhand. unfold human_choose_card_to_lose.
  destruct (hand p) as [|c0 h0] eqn:Hh; [done|]. rewrite <- Hh.
  destruct (human_lose_prompt (hand p) (stdin e)) as [[[[]|c] rest]|] eqn:E;
    [| |done].
  - unfold bind. rewrite choice_run.
    destruct (random_choice_elem (rng (with_stdin e rest) (rpos (with_stdin e rest)))
                (hand p)) as (x & -> & Hx); [by rewrite Hh | done].
  - by eapply human_lose_prompt_in_hand.
Qed.

Lemma Forall_alter_bump (c : nat) (f : Player → Player) (ps : list Player)
    (p0 : Player) :
  Forall sound_player ps → ps !! c = Some p0 →
  sound_player (f (bump p0)) →
  Forall sound_player (alter f c (alter bump c ps)).
Proof.
  intros H Hp0 Hf. rewrite list_alter_alter_eq.
  apply Forall_alter; [done|]. intros p Hp. rewrite Hp0 in Hp.
  by injection Hp as <-.
Qed.

Lemma lose_random_card_of_run (c : nat) (g : Game) (e : Env) (ch : Player) :
  players g !! c = Some ch → hand ch ≠ [] →
  lose_random_card_of c (g, e)
    = Ret tt (upd c (λ p, snd (lose_random_card (rng e (rpos e)) p)) g,
              next_env e).
Proof.
  intros Hch Hhand. unfold lose_random_card_of, bind at 1, player_at.
  cbn [fst snd]. rewrite Hch. by destruct (hand ch).
Qed.

(** The challenger whose [challenges_lost] a skull has just raised, and who
    holds a card, comes out of the card loss with the counters agreeing
    again. *)
Lemma challenger_loses_card_run (c : nat) (p0 : Player) (ps : list Player)
    (g : Game) (e : Env) :
  Forall sound_player ps → ps !! c = Some p0 → hand p0 ≠ [] →
  players g = alter bump c ps →
  match challenger_loses_card c (bump p0) g (g, e) with
  | Ret _ w' =>
      Forall sound_player (players (fst w')) ∧
      game_state (fst w') = game_state g ∧ challenger (fst w') = challenger g
  | Raise x _ => x ≠ KeyboardInterrupt
  | Blocked => True
  end.
Proof.
  intros Hps Hp0 Hhand Hpl.
  assert (players g !! c = Some (bump p0)) as Hch.
  { by rewrite Hpl, list_lookup_alter_eq, Hp0. }
  assert (sound_player p0) as Hs0 by (by eapply Forall_lookup_1).
  assert (∀ r, Forall sound_player
                 (players (upd c (λ p, snd (lose_random_card r p)) g))) as Hrand.
  { intros r. simpl. rewrite Hpl. apply (Forall_alter_bump _ _ _ p0); [done..|].
    by apply lose_random_card_after_bump. }
  unfold challenger_loses_card.
  destruct (bool_decide (skull_revealer g = challenger g)).
  - unfold bind at 1.
    assert (match lose_random_card_of c (g, e) with
            | Ret _ w' =>
                Forall sound_player (players (fst w')) ∧
                game_state (fst w') = game_state g ∧
                challenger (fst w') = challenger g
            | Raise x _ => x ≠ KeyboardInterrupt
            | Blocked => True
            end) as Hlose.
    { rewrite (lose_random_card_of_run c g e (bump p0)) by done.
      split_and!; [apply Hrand | done | done]. }
    change (cls (bump p0)) with (cls p0). destruct (cls p0).
    + by destruct (lose_random_card_of c (g, e)) as [u [g1 e1]| |].
    + unfold bind at 1, lift. cbn [fst snd].
      pose proof (human_choose_card_to_lose_run (bump p0) e Hhand) as Hhum.
      destruct (human_choose_card_to_lose (bump p0) e) as [[card|] e1| |];
        [|done|done|done].
      unfold modify. cbn [fst snd]. split_and!; [|done|done]. simpl.
      rewrite Hpl. apply (Forall_alter_bump _ _ _ p0); [done..|].
      by apply lose_chosen_card_after_bump.
    + by destruct (lose_random_card_of c (g, e)) as [u [g1 e1]| |].
  - unfold bind at 1.
    rewrite (lose_random_card_of_run c g e (bump p0)) by done.
    destruct (skull_revealer g) as [r|]; [|done].
    unfold bind, player_at. cbn [fst snd].
    destruct (_ !! r); [|done]. split_and!; [apply Hrand | done | done].
Qed.

Lemma start_new_round_state (g : Game) :
  game_state (start_new_round g) ≠ CHALLENGE.
Proof.
  unfold start_new_round; cbv zeta.
  case_bool_decide; [|done]. by destruct (get_active_players _).
Qed.

Lemma sound_after_round (g : Game) :
  Forall sound_player (players g) → sound (start_new_round (retrieve_all g)).
Proof.
  intros H. split.
  - rewrite start_new_round_players. simpl.
    apply Forall_fmap, Forall_fmap. eapply Forall_impl; [exact H|].
    intros p Hp. by apply retrieve_cards_sound in Hp.
  - intros Hst. by apply start_new_round_state in Hst.
Qed.

Lemma handle_failed_challenge_sound (c : nat) (p0 : Player)
    (ps : list Player) (g : Game) (e : Env) :
  challenger g = Some c →
  Forall sound_player ps → ps !! c = Some p0 → hand p0 ≠ [] →
  players g = alter bump c ps →
  match handle_failed_challenge (g, e) with
  | Ret _ w' => sound (fst w')
  | Raise x _ => x ≠ KeyboardInterrupt
  | Blocked => True
  end.
Proof.
  intros Hc Hps Hp0 Hhand Hpl.
  assert (players g !! c = Some (bump p0)) as Hch.
  { by rewrite Hpl, list_lookup_alter_eq, Hp0. }
  unfold handle_failed_challenge, bind at 1, the_challenger. cbn [fst snd].
  rewrite Hc, Hch. unfold bind at 1, player_at. cbn [fst snd]. rewrite Hch.
  unfold bind at 1, get_game. cbn [fst snd]. unfold bind at 1.
  pose proof (challenger_loses_card_run c p0 ps g e Hps Hp0 Hhand Hpl) as Hl.
  destruct (challenger_loses_card c (bump p0) g (g, e)) as [u [g1 e1]| |];
    [|done|done].
  cbn [fst] in Hl. destruct Hl as (Hs1 & _ & _).
  unfold bind at 1. cbn [fst snd].
  destruct (players g1 !! c) as [ch1|]; [|done].
  unfold bind at 1.
  assert (∀ g2, players g2 = players g1 →
                sound (start_new_round (retrieve_all g2))) as Hend.
  { intros g2 H2. apply sound_after_round. by rewrite H2. }
  destruct (is_eliminated ch1); by apply Hend.
Qed.

Lemma handle_successful_challenge_sound (g : Game) (e : Env) :
  Forall sound_player (players g) →
  match handle_successful_challenge (g, e) with
  | Ret _ w' => sound (fst w')
  | Raise x _ => x ≠ KeyboardInterrupt
  | Blocked => True
  end.
Proof.
  intros Hps.
  unfold handle_successful_challenge, bind at 1, the_challenger.
  cbn [fst snd]. destruct (challenger g) as [c|]; [|done].
  destruct (players g !! c) as [ch|] eqn:Hch; [|done].
  unfold bind at 1, modify at 1. cbn [fst snd].
  unfold bind at 1, player_at. cbn [fst snd].
  set (g1 := upd c (λ p, set_rounds_won (rounds_won p + 1) p) g).
  assert (Forall sound_player (players g1)) as H1.
  { simpl. apply Forall_alter; [done|]. by intros p _. }
  destruct (players g1 !! c) as [ch1|]; [|done].
  unfold bind at 1, modify at 1. cbn [fst snd].
  destruct (bool_decide (2 ≤ rounds_won ch1)).
  - split; [done|]. by intros ?.
  - by apply sound_after_round.
Qed.

Lemma reveal_own_challenger (c n : nat) (g : Game) :
  challenger (reveal_own c n g).2 = challenger g.
Proof.
  revert g. induction n as [|n IH]; intros g; simpl; [done|].
  destruct (players g !! c) as [ch|]; [|done].
  destruct (pop (played_cards ch)) as [[card rest]|]; [|done].
  destruct (negb _); [done|]. destruct (is_skull card); [done|].
  specialize (IH (log (LRevealed (card_type card))
                      (upd c (reveal_top card rest) g))).
  by destruct (reveal_own c n _) as [[tr e] g'].
Qed.

Lemma reveal_others_challenger (c n : nat) :
  ∀ (others : list nat) (g : Game) (e : Env),
    match reveal_others c n others g e with
    | Ret r _ => challenger r.2 = challenger g
    | _ => True
    end.
Proof.
  induction n as [|n IH]; intros others g e; [done|].
  cbn [reveal_others]. destruct others as [|o0 others0]; [done|].
  unfold bind at 1. rewrite choice_run.
  set (t := default o0 _).
  destruct (players g !! t) as [tp|]; [|done].
  destruct (pop (played_cards tp)) as [[card rest]|]; [|done].
  destruct (is_skull card); [done|].
  unfold bind.
  match goal with
  | |- context [reveal_others c n ?o ?g' ?e'] =>
      specialize (IH o g' e'); destruct (reveal_others c n o g' e')
        as [[[tr en] g1] e1| |]
  end; done.
Qed.

Lemma resolve_challenger (c : nat) (g : Game) (e : Env) :
  match resolve c g e with
  | Ret r _ => challenger r.2 = challenger g
  | _ => True
  end.
Proof.
  unfold resolve.
  pose proof (reveal_own_challenger c (Z.to_nat (current_bid g)) g) as H1.
  destruct (reveal_own c _ g) as [[tr en] g1]. simpl in H1.
  destruct en as [m| |x]; [|done|done].
  unfold bind.
  pose proof (reveal_others_challenger c m (other_players c g1) g1 e) as H2.
  destruct (reveal_others c m _ g1 e) as [[[tr2 en2] g2] e2| |]; [|done|done].
  simpl in *. congruence.
Qed.

(** After a revealed skull the challenger holds a card. *)
Lemma skull_leaves_a_card (g g' : Game) (c : nat) (ch ch' : Player)
    (own oth tr0 : list (nat * Card)) (o : nat) (card : Card) :
  players g !! c = Some ch → players g' !! c = Some ch' →
  sound_player ch → is_eliminated ch = false →
  moved (own ++ oth) (players g) (players g') →
  Forall (λ x, x.1 = c) own →
  (oth ≠ [] → snd <$> own = reverse (played_cards ch)) →
  own ++ oth = tr0 ++ [(o, card)] →
  hand ch' ≠ [].
Proof.
  intros Hch Hch' (_ & _ & Hhas) Hact Hmv Hown Hall Htr Hempty.
  specialize (Hmv c). rewrite Hch in Hmv.
  destruct Hmv as (ch1 & Hch1 & Hhand & _). rewrite Hch' in Hch1.
  injection Hch1 as <-. rewrite Hempty in Hhand.
  symmetry in Hhand. apply app_eq_nil in Hhand as [Hh Ho].
  rewrite owner_cards_app, (owner_cards_all c own Hown) in Ho.
  apply app_eq_nil in Ho as [Ho _]. apply fmap_nil_inv in Ho. subst own.
  simpl in *.
  assert (oth ≠ []) as Hne by (rewrite Htr; by destruct tr0).
  specialize (Hall Hne). symmetry in Hall.
  apply (f_equal reverse) in Hall. rewrite reverse_involutive in Hall.
  rewrite reverse_nil in Hall. destruct (Hhas Hact); congruence.
Qed.

Lemma challenge_phase_sound (g : Game) (e : Env) :
  sound g →
  match challenge_phase (g, e) with
  | Ret _ w' => sound (fst w')
  | Raise x _ => x ≠ KeyboardInterrupt
  | Blocked => True
  end.
Proof.
  intros Hsound. pose proof Hsound as [Hps Hready].
  destruct (decide (game_state g = CHALLENGE)) as [Hst|Hst].
  2:{ unfold challenge_phase, bind, get_game. cbn [fst snd].
      by rewrite bool_decide_eq_false_2. }
  destruct (Hready Hst) as (c & ch & Hc & Hch & Hact).
  rewrite (challenge_phase_unfold g e c ch Hst Hc Hch). cbv zeta.
  set (g0 := log _ (log _ g)).
  assert (sound_player ch) as Hsch by (by eapply Forall_lookup_1).
  assert (length (hand ch) + length (played_cards ch)
          + challenges_lost (stats ch) = 4) as Hsum.
  { destruct Hsch as (Hcons & Hl & _). unfold conserved in Hcons. lia. }
  destruct (resolve_spec g0 e c ch Hc Hch Hsum)
    as (own & oth & en & g' & e' & Hrun & Hmv & _ & Hown & _ & _ & Hall & Hend).
  pose proof (resolve_players sound_player
                (λ p card rest, reveal_top_sound card rest p) c g0 e Hps) as Hpl.
  pose proof (resolve_challenger c g0 e) as Hcg.
  rewrite Hrun in Hpl, Hcg |- *. simpl in Hcg.
  destruct en as [m| |x]; [| |done].
  - unfold bind.
    match goal with
    | |- context [handle_successful_challenge (?g1, e')] =>
        pose proof (handle_successful_challenge_sound g1 e') as Hh;
        destruct (handle_successful_challenge (g1, e')) as [u w1| |]
    end; [|apply Hh|done].
    + apply Hh. simpl. apply Forall_alter; [done|]. by intros p _.
    + simpl. apply Forall_alter; [done|]. by intros p _.
  - destruct Hpl as (ps & Hpss & Hpl).
    destruct Hend as (tr0 & o & card & Htr & _).
    pose proof (Hmv c) as Hmc. change (players g0) with (players g) in Hmc.
    rewrite Hch in Hmc. destruct Hmc as (ch' & Hch' & _).
    assert (hand ch' ≠ []) as Hhand.
    { by eapply (skull_leaves_a_card g0 g' c ch ch' own oth tr0 o card). }
    rewrite Hpl, list_lookup_alter_eq in Hch'.
    destruct (ps !! c) as [p0|] eqn:Hp0; [|done]. injection Hch' as <-.
    unfold bind.
    pose proof (handle_failed_challenge_sound c p0 ps g' e') as Hh.
    destruct (handle_failed_challenge (g', e')) as [u w1| |];
      [|by apply Hh; [congruence|..]|done].
    by apply Hh; [congruence|..].
Qed.

(** *** Every reachable game is sound *)

Definition sound_players (g : Game) : Prop := Forall sound_player (players g).

Lemma sound_players_bidding_phase :
  keeps sound_players bidding_phase (λ _, True).
Proof.
  unfold bidding_phase.
  keeps_step. keeps_step; [by apply keeps_ret|]. keeps_step.
  keeps_step.
  - keeps_step; [by intros|]. by apply keeps_ret.
  - keeps_step. keeps_step; [|by apply keeps_ret].
    intros g' Hg'. unfold sound_players. rewrite bidding_apply_players.
    destruct a1; [done|]. apply Forall_alter; [done|]. by intros p _.
Qed.

Lemma sound_game_over (g : Game) :
  Forall sound_player (players g) → sound (set_game_state GAME_OVER g).
Proof. intros H. split; [done|]. by intros ?. Qed.

Lemma sound_finish (w : World) :
  sound (fst w) →
  sound (fst (if someone_won (fst w) then set_world_state GAME_OVER w else w)).
Proof.
  intros H. destruct (someone_won _); [|done].
  apply sound_game_over, H.
Qed.

(** A turn that returns leaves a sound game. *)
Lemma play_turn_sound (w : World) (b : bool) (w' : World) :
  sound (fst w) → play_turn w = Ret b w' → sound (fst w').
Proof.
  intros Hs. unfold play_turn. case_bool_decide as Hover.
  { by intros [= _ <-]. }
  destruct w as [g e]. cbn [fst] in *.
  assert (∀ (m : M World unit),
            (match m (g, e) with
             | Ret _ w1 => sound (fst w1)
             | Raise x w1 =>
                 x = KeyboardInterrupt → Forall sound_player (players (fst w1))
             | Blocked => True
             end) →
            match m (g, e) with
            | Raise KeyboardInterrupt w'0 =>
                Ret false (set_world_state GAME_OVER w'0)
            | Raise e0 w'0 => Raise e0 w'0
            | Blocked => Blocked
            | Ret _ w'0 =>
                if someone_won (fst w'0)
                then Ret false (set_world_state GAME_OVER w'0)
                else Ret (negb (bool_decide (game_state (fst w'0) = GAME_OVER)))
                         w'0
            end = Ret b w' → sound (fst w')) as Hgen.
  { intros m Hm. destruct (m (g, e)) as [u w1|x w1|]; [| |done].
    - pose proof (sound_finish w1 Hm) as Hf.
      destruct (someone_won (fst w1)); by intros [= _ <-].
    - destruct x; try done. intros [= _ <-]. by apply sound_game_over, Hm. }
  apply Hgen. destruct Hs as [Hps Hready].
  destruct (game_state g) eqn:Hst; cbn [run_phase].
  - pose proof (placing_initial_card_placement (g, e)) as Hk.
    destruct (initial_card_placement (g, e)) as [u w1|x w1|]; [| |done].
    + apply sound_placing_sound, Hk. split; [done|]. simpl. congruence.
    + intros _. apply Hk. split; [done|]. simpl. congruence.
  - unfold bind. pose proof (placing_card_placement_phase (g, e)) as Hk.
    destruct (card_placement_phase (g, e)) as [u w1|x w1|]; [| |done].
    + apply sound_placing_sound, Hk. split; [done|]. simpl. congruence.
    + intros _. apply Hk. split; [done|]. simpl. congruence.
  - unfold bind. pose proof (sound_players_bidding_phase (g, e) Hps) as Hk.
    pose proof (bidding_phase_sound g e) as Hb.
    destruct (bidding_phase (g, e)) as [u w1|x w1|]; [| |done].
    + by eapply Hb.
    + by intros _.
  - unfold bind. pose proof (challenge_phase_sound g e (conj Hps Hready)) as Hk.
    by destruct (challenge_phase (g, e)) as [u w1|x w1|].
  - done.
Qed.

(** The games the program can be in: a game just built from new players,
    and any game a returning turn leads to. *)
Definition new_player (p : Player) : Prop :=
  ∃ c nm ai fresh, p = Player_init c nm ai fresh.

Inductive reachable : World → Prop :=
  | reach_new (ps : list Player) (e : Env) (g : Game) (e' : Env) :
      Forall new_player ps →
      InteractiveSkullGame_init ps e = Ret g e' →
      reachable (g, e')
  | reach_turn (w : World) (b : bool) (w' : World) :
      reachable w → play_turn w = Ret b w' → reachable w'.

Lemma new_player_sound (p : Player) : new_player p → sound_player p.
Proof. intros (c & nm & ai & fresh & ->). repeat split. intros _. by left. Qed.

Lemma reachable_sound (w : World) : reachable w → sound (fst w).
Proof.
  induction 1 as [ps e g e' Hps Hinit | w b w' _ IH Hturn].
  - unfold InteractiveSkullGame_init in Hinit.
    destruct (_ || _); [done|]. unfold bind, shuffle in Hinit.
    destruct (shuffle_from_returns (length ps - 1) ps e) as (l' & Hl & Hp).
    rewrite Hl in Hinit. injection Hinit as <- _. split.
    + simpl. rewrite Hp. eapply Forall_impl; [exact Hps|].
      apply new_player_sound.
    + by intros ?.
  - by eapply play_turn_sound.
Qed.

(** In every reachable game that is in the challenge phase, the challenger
    is an active player who passes the card count test of the revealing
    loop: the hypotheses of the two theorems on challenge resolution
    hold. *)
Lemma reachable_challenge_ready (g : Game) (e : Env) :
  reachable (g, e) → game_state g = CHALLENGE →
  ∃ c ch, challenger g = Some c ∧ players g !! c = Some ch ∧
          is_eliminated ch = false ∧
          length (hand ch) + length (played_cards ch)
            + challenges_lost (stats ch) = 4.
Proof.
  intros Hr Hst. apply reachable_sound in Hr as [Hps Hready].
  destruct (Hready Hst) as (c & ch & Hc & Hch & Hact).
  exists c, ch. split_and!; [done..|].
  apply (Forall_lookup_1 _ _ _ _ Hps) in Hch as (Hcons & Hl & _).
  unfold conserved in Hcons. lia.
Qed.

(** [n] turns of the driver. *)
Fixpoint turns (n : nat) : M World unit :=
  match n with
  | 0 => ret tt
  | S n' => do! play_turn in turns n'
  end.

Lemma reachable_turns (n : nat) (w w' : World) :
  reachable w → turns n w = Ret tt w' → reachable w'.
Proof.
  revert w. induction n as [|n IH]; intros w Hw H; simpl in H.
  - by apply ret_Ret in H as [_ <-].
  - apply bind_Ret in H as (b & w1 & H1 & H).
    eapply IH; [|exact H]. by eapply reach_turn.
Qed.

(** A game of the three sample players reaches a challenge in six turns,
    and its challenger passes the card count test. *)
Example a_reachable_challenge :
  ∃ g0 e0 g e,
    InteractiveSkullGame_init [ann; bob; cat]
      (sample_env [Line (Tint 1); Line Tb; Line Tpass]) = Ret g0 e0 ∧
    turns 6 (g0, e0) = Ret tt (g, e) ∧
    game_state g = CHALLENGE ∧ current_bid g = 3%Z ∧
    ∃ c ch, challenger g = Some c ∧ players g !! c = Some ch ∧
            is_eliminated ch = false ∧
            length (hand ch) + length (played_cards ch)
              + challenges_lost (stats ch) = 4.
Proof.
  pose (env0 := sample_env [Line (Tint 1); Line Tb; Line Tpass]).
  let r := eval vm_compute in (InteractiveSkullGame_init [ann; bob; cat] env0) in
  lazymatch r with
  | Ret ?g0 ?e0 =>
      let r' := eval vm_compute in (turns 6 (g0, e0)) in
      lazymatch r' with
      | Ret _ (?g, ?e) =>
          assert (InteractiveSkullGame_init [ann; bob; cat] env0 = Ret g0 e0)
            as Hinit by (vm_compute; reflexivity);
          assert (turns 6 (g0, e0) = Ret tt (g, e))
            as Hturns by (vm_compute; reflexivity);
          exists g0, e0, g, e
      end
  end.
  split; [exact Hinit|]. split; [exact Hturns|].
  split; [reflexivity|]. split; [reflexivity|].
  eapply reachable_challenge_ready; [|reflexivity].
  eapply reachable_turns; [|exact Hturns].
  eapply reach_new; [|exact Hinit].
  repeat constructor; by eexists _, _, _, _.
Qed.

(** * Further properties of the code *)

(** ** The card operations of [Player] *)

Lemma lose_card_fields (card : Card) (p : Player) :
  card ∈ hand p →
  ∃ l1 l2,
    hand p = l1 ++ card :: l2 ∧ (card ∉ l1) ∧
    fst (lose_card card p) = Some card ∧
    hand (snd (lose_card card p)) = l1 ++ l2 ∧
    played_cards (snd (lose_card card p)) = played_cards p ∧
    stats (snd (lose_card card p)) = incr_cards_lost (stats p) ∧
    is_eliminated (snd (lose_card card p))
      = is_eliminated p || bool_decide (length (hand p) = 1) ∧
    name (snd (lose_card card p)) = name p ∧
    cls (snd (lose_card card p)) = cls p ∧
    is_ai (snd (lose_card card p)) = is_ai p ∧
    rounds_won (snd (lose_card card p)) = rounds_won p ∧
    has_passed (snd (lose_card card p)) = has_passed p.
Proof.
  intros Hin. unfold lose_card.
  destruct (remove_first_Some _ _ Hin) as (l1 & l2 & Hh & Hnot & Hr).
  exists l1, l2. rewrite Hr. split; [done|]. split; [done|].
  rewrite Hh, !length_app. simpl.
  destruct (is_eliminated p) eqn:He; case_bool_decide as H0; simpl;
    rewrite ?He; split_and!; try done; symmetry;
    first [ apply bool_decide_eq_true | apply bool_decide_eq_false ];
    simpl in *; lia.
Qed.

(** [lose_chosen_card] is all or nothing.  For a card object of the hand it
    returns that card, takes its first occurrence out of the hand and adds
    one to [cards_lost]; the player becomes eliminated exactly when this
    was the last card of the hand, whatever lies on the stack, and
    [is_eliminated] is never cleared.  For any other card it returns [None]
    and leaves the player as it was. *)
Theorem lose_chosen_card_all_or_nothing (card : Card) (p : Player) :
  (card ∈ hand p →
   ∃ l1 l2,
     hand p = l1 ++ card :: l2 ∧ (card ∉ l1) ∧
     fst (lose_chosen_card card p) = Some card ∧
     hand (snd (lose_chosen_card card p)) = l1 ++ l2 ∧
     played_cards (snd (lose_chosen_card card p)) = played_cards p ∧
     stats (snd (lose_chosen_card card p)) = incr_cards_lost (stats p) ∧
     is_eliminated (snd (lose_chosen_card card p))
       = is_eliminated p || bool_decide (length (hand p) = 1) ∧
     name (snd (lose_chosen_card card p)) = name p ∧
     cls (snd (lose_chosen_card card p)) = cls p ∧
     is_ai (snd (lose_chosen_card card p)) = is_ai p ∧
     rounds_won (snd (lose_chosen_card card p)) = rounds_won p ∧
     has_passed (snd (lose_chosen_card card p)) = has_passed p) ∧
  (card ∉ hand p → lose_chosen_card card p = (None, p)).
Proof.
  unfold lose_chosen_card. split; intros H.
  - rewrite bool_decide_eq_true_2 by done. by apply lose_card_fields.
  - by rewrite bool_decide_eq_false_2.
Qed.

(** A player down to one card in hand, with two more on the stack, loses
    that card and is eliminated. *)
Example lose_chosen_card_runs :
  let p := plays [0; 0] (snd (lose_chosen_card (mkCard 3 SKULL) ann)) in
  hand p = [mkCard 2 ROSE] ∧ length (played_cards p) = 2 ∧
  is_eliminated p = false ∧
  is_eliminated (snd (lose_chosen_card (mkCard 2 ROSE) p)) = true ∧
  length (played_cards (snd (lose_chosen_card (mkCard 2 ROSE) p))) = 2 ∧
  lose_chosen_card (mkCard 0 ROSE) p = (None, p).
Proof. vm_compute. repeat split. Qed.

(** [lose_random_card] on an empty hand returns [None] and changes nothing;
    on any other hand it loses one card of the hand, exactly as
    [lose_chosen_card] does for that card. *)
Theorem lose_random_card_loses_one (r : nat) (p : Player) :
  (hand p = [] → lose_random_card r p = (None, p)) ∧
  (hand p ≠ [] →
   ∃ card, card ∈ hand p ∧
           lose_random_card r p = lose_chosen_card card p ∧
           fst (lose_random_card r p) = Some card ∧
           length (hand (snd (lose_random_card r p))) + 1 = length (hand p)).
Proof.
  unfold lose_random_card. split; intros H.
  - by rewrite H.
  - destruct (random_choice_elem r (hand p) H) as (card & Hc & Hin).
    exists card. split; [done|].
    assert (match hand p with
            | [] => (None, p)
            | _ :: _ => match random_choice r (hand p) with
                        | Some card => lose_card card p
                        | None => (None, p)
                        end
            end = lose_chosen_card card p) as ->.
    { unfold lose_chosen_card. rewrite bool_decide_eq_true_2 by done.
      destruct (hand p) eqn:E; [done|]. rewrite ?E in Hc. by rewrite Hc. }
    split; [done|].
    unfold lose_chosen_card. rewrite bool_decide_eq_true_2 by done.
    destruct (lose_card_fields card p Hin)
      as (l1 & l2 & Hh & _ & Hret & Hhand & _).
    split; [done|]. rewrite Hhand, Hh, !length_app. simpl. lia.
Qed.

(** Putting a card down and then taking the stack back leaves the player
    with the cards that taking the stack back at once would have given,
    and with an empty stack. *)
Theorem play_then_retrieve (p : Player) (card : Card) :
  hand (retrieve_cards (snd (play_card card p))) ≡ₚ hand (retrieve_cards p) ∧
  played_cards (retrieve_cards (snd (play_card card p))) = [] ∧
  (played_cards p = [] →
   hand (retrieve_cards (snd (play_card card p))) ≡ₚ hand p).
Proof.
  assert (hand (retrieve_cards (snd (play_card card p)))
          ≡ₚ hand p ++ played_cards p) as Hperm.
  { unfold play_card. case_bool_decide as Hin; [|done].
    destruct (remove_first_Some _ _ Hin) as (l1 & l2 & Hh & _ & ->).
    rewrite Hh.
    assert ((l1 ++ l2) ++ played_cards p ++ [card]
            ≡ₚ (l1 ++ card :: l2) ++ played_cards p) as Hmove.
    { rewrite app_assoc, <- Permutation_cons_append, <- !app_assoc.
      apply Permutation_middle. }
    by destruct (is_skull card). }
  split; [done|]. split.
  - unfold play_card. case_bool_decide; [|done].
    destruct (remove_first card (hand p)); [|done]. by destruct (is_skull card).
  - intros Hs. rewrite Hperm, Hs. by rewrite app_nil_r.
Qed.

(** Roses and skulls of a list of cards. *)
Lemma roses_and_skulls (h : list Card) :
  length (filter (λ c, card_type c = ROSE) h)
    + length (filter (λ c, card_type c = SKULL) h) = length h ∧
  (existsb is_skull h = true ↔ ∃ c, c ∈ h ∧ card_type c = SKULL) ∧
  (existsb is_skull h = false ↔
   length (filter (λ c, card_type c = ROSE) h) = length h).
Proof.
  induction h as [|c h (IH1 & IH2 & IH3)].
  - split; [done|]. split; [|done]. split; [done|].
    intros (c & Hc & _). by apply elem_of_nil in Hc.
  - rewrite !filter_cons.
    pose proof (length_filter (λ c, card_type c = ROSE) h) as Hle.
    destruct (card_type c) eqn:Ec.
    + assert (is_skull c = false) as Hs by (unfold is_skull; by rewrite Ec).
      simpl. rewrite Hs. simpl. split; [lia|]. split.
      * rewrite IH2. split.
        -- intros (x & Hx & Hx'). exists x. split; [by right | done].
        -- intros (x & [->|Hx]%elem_of_cons & Hx'); [congruence|eauto].
      * rewrite IH3. lia.
    + assert (is_skull c = true) as Hs by (unfold is_skull; by rewrite Ec).
      simpl. rewrite Hs. simpl. split; [lia|]. split.
      * split; [|done]. intros _. exists c. split; [by left | done].
      * split; [done|]. lia.
Qed.

(** The two views of a hand agree: roses and skulls add up to the hand,
    [has_skull_in_hand] holds exactly when some card of the hand is a
    skull, and fails exactly when [count_roses_in_hand] counts the whole
    hand. *)
Theorem hand_census (p : Player) :
  count_roses_in_hand p + length (filter (λ c, card_type c = SKULL) (hand p))
    = length (hand p) ∧
  (has_skull_in_hand p = true ↔ ∃ c, c ∈ hand p ∧ card_type c = SKULL) ∧
  (has_skull_in_hand p = false ↔ count_roses_in_hand p = length (hand p)).
Proof. apply roses_and_skulls. Qed.

(** ** What the human player is shown and what is accepted *)

(** [display_hand] numbers the cards of the hand from 1, in the order of
    the hand, and names the kind of each.  A number is shown beside a kind
    of card exactly when [choose_card_to_play] and [choose_card_to_lose]
    accept it and answer with a card of that kind, which is the card at
    that place of the hand; no other number is accepted. *)
Theorem display_hand_numbers_the_choices (p : Player) :
  fst (display_hand p) = name p ∧
  length (snd (display_hand p)) = length (hand p) ∧
  (∀ n t,
     (n, t) ∈ snd (display_hand p) ↔
     ∃ c, card_at (hand p) (Z.of_nat n) = Some c ∧ card_type c = t) ∧
  (∀ z c,
     card_at (hand p) z = Some c →
     (1 ≤ z ≤ Z.of_nat (length (hand p)))%Z ∧
     hand p !! (Z.to_nat z - 1) = Some c ∧
     (Z.to_nat z, card_type c) ∈ snd (display_hand p)) ∧
  (∀ n t rest,
     (n, t) ∈ snd (display_hand p) →
     ∃ c, card_type c = t ∧ hand p !! (n - 1) = Some c ∧
          human_card_prompt (hand p) (Line (Tint (Z.of_nat n)) :: rest)
            = Some (Some c, rest) ∧
          human_lose_prompt (hand p) (Line (Tint (Z.of_nat n)) :: rest)
            = Some (inr c, rest)).
Proof.
  assert (Hat : ∀ z c, card_at (hand p) z = Some c ↔
                       (1 ≤ z ≤ Z.of_nat (length (hand p)))%Z ∧
                       hand p !! (Z.to_nat z - 1) = Some c).
  { intros z c. unfold card_at. case_bool_decide as Hz.
    - replace (Z.to_nat (z - 1)) with (Z.to_nat z - 1) by lia.
      split; [intros H; split; [lia | done] | by intros [_ H]].
    - split; [done|]. intros [Hr _]. lia. }
  assert (Hline : ∀ n t, (n, t) ∈ snd (display_hand p) ↔
                         ∃ c, card_at (hand p) (Z.of_nat n) = Some c
                              ∧ card_type c = t).
  { intros n t. unfold display_hand. cbn [snd].
    rewrite elem_of_lookup_imap. split.
    - intros (i & c & [= -> ->] & Hc). exists c. split; [|done].
      apply Hat. pose proof (lookup_lt_Some _ _ _ Hc).
      replace (Z.to_nat (Z.of_nat (i + 1)) - 1) with i by lia.
      split; [lia | done].
    - intros (c & Hc & <-). apply Hat in Hc as [Hr Hc].
      exists (Z.to_nat (Z.of_nat n) - 1), c. split; [|done].
      f_equal. lia. }
  split; [done|]. split; [apply length_imap|]. split; [exact Hline|]. split.
  - intros z c Hc. pose proof Hc as [Hr Hl]%Hat. split; [done|].
    split; [done|]. apply Hline. exists c. split; [|done].
    by rewrite Z2Nat.id by lia.
  - intros n t rest (c & Hc & <-)%Hline. exists c. split; [done|].
    pose proof Hc as [_ Hl]%Hat. rewrite Nat2Z.id in Hl.
    split; [done|]. simpl. by rewrite Hc.
Qed.

(** Ann, holding a rose and her skull, is shown two lines; typing 2 picks
    the skull, and 3 is asked again. *)
Example display_hand_runs :
  let p := plays [0; 0] ann in
  display_hand p = ("Ann"%string, [(1, ROSE); (2, SKULL)]) ∧
  human_card_prompt (hand p) [Line (Tint 3); Line (Tint 2)]
    = Some (Some (mkCard 3 SKULL), []).
Proof. done. Qed.

(** ** The programmed players *)

(** [SimpleAIPlayer.make_bid] passes without a draw once the bid has
    reached the number of cards on the table; otherwise it makes one draw
    and either passes or raises the bid by exactly one (the [min] never
    cuts the raise).  The fallback of [bidding_phase] for a player without
    [make_bid] raises by exactly one as well. *)
Theorem programmed_bids_raise_by_one (strategy : string) (cur mx : Z) (e : Env) :
  ((mx ≤ cur)%Z → ai_make_bid strategy cur mx e = Ret None e) ∧
  ((cur < mx)%Z →
   ai_make_bid strategy cur mx e
     = Ret (if bool_decide (rng e (rpos e) mod 100 < raise_prob strategy)
            then Some (cur + 1)%Z else None) (next_env e)) ∧
  (∀ p e' b,
     cls p ≠ InteractiveHumanPlayer →
     ask_bid p cur mx e = Ret (Some b) e' → b = (cur + 1)%Z ∧ e' = next_env e).
Proof.
  split_and!.
  - intros H. unfold ai_make_bid. by rewrite bool_decide_eq_true_2.
  - intros H. unfold ai_make_bid. rewrite bool_decide_eq_false_2 by lia.
    unfold bind. rewrite random_lt_run.
    destruct (bool_decide (_ < _)); [|done]. unfold ret. do 3 f_equal. lia.
  - intros p e' b Hcls. unfold ask_bid. destruct (cls p) as [| |s]; [|done|].
    + unfold bind. rewrite random_lt_run.
      destruct (bool_decide (_ < 40)); cbn [andb]; [|done].
      case_bool_decide; [|done]. by intros [= <- <-].
    + unfold ai_make_bid. case_bool_decide; [done|].
      unfold bind. rewrite random_lt_run.
      destruct (bool_decide (_ < _)); [|done].
      intros [= <- <-]. split; [lia | done].
Qed.

(** [SimpleAIPlayer.choose_card_to_play] on a hand that is not empty makes
    two draws and answers with a card of the hand.  The card is the skull
    exactly when the hand holds a skull and either the first draw fell
    under the skull probability of the strategy or the hand holds no
    rose. *)
Theorem ai_choose_card_kind (strategy : string) (p : Player) (e : Env) :
  hand p ≠ [] →
  ∃ c, ai_choose_card_to_play strategy p e
         = Ret (Some c) (next_env (next_env e)) ∧
       c ∈ hand p ∧
       (card_type c = SKULL ↔
        has_skull_in_hand p = true ∧
        (rng e (rpos e) mod 100 < skull_prob strategy
         ∨ count_roses_in_hand p = 0)).
Proof.
  intros Hhand. destruct (roses_and_skulls (hand p)) as (Hsum & Hskull & Hnone).
  fold (has_skull_in_hand p) in Hskull, Hnone.
  unfold ai_choose_card_to_play, count_roses_in_hand in *.
  destruct (hand p) as [|c0 h0] eqn:Hh; [done|]. rewrite <- Hh in *.
  unfold bind at 1. rewrite random_lt_run.
  set (skulls := filter (λ c, card_type c = SKULL) (hand p)) in *.
  set (roses := filter (λ c, card_type c = ROSE) (hand p)) in *.
  set (lt := bool_decide (_ < skull_prob strategy)).
  assert (Hpick : ∀ l, l ≠ [] →
            ∃ c, c ∈ l ∧
                 (let! c := choice c0 l in ret (Some c)) (next_env e)
                   = Ret (Some c) (next_env (next_env e))).
  { intros l Hl. destruct (choice_elem c0 l (next_env e) Hl) as (x & Hx & Hrun).
    exists x. split; [done|]. unfold bind. by rewrite Hrun. }
  assert (Hsk : has_skull_in_hand p = true ↔ skulls ≠ []).
  { rewrite Hskull. split.
    - intros (c & Hc & Ht) Hnil.
      assert (c ∈ skulls) as Hin by (by apply list_elem_of_filter).
      rewrite Hnil in Hin. by apply elem_of_nil in Hin.
    - intros Hne. destruct skulls as [|c l] eqn:E; [done|].
      assert (c ∈ skulls) as Hin by (rewrite E; by left).
      apply list_elem_of_filter in Hin as [Ht Hin]. eauto. }
  assert (Hro : roses = [] ↔ length roses = 0).
  { split; [by intros -> | by destruct roses]. }
  destruct (lt && bool_decide (skulls ≠ [])) eqn:Hfirst.
  - apply andb_true_iff in Hfirst as [Hlt%bool_decide_eq_true
                                      Hs%bool_decide_eq_true].
    destruct (Hpick skulls Hs) as (c & Hc & Hrun).
    apply list_elem_of_filter in Hc as [Ht Hin].
    exists c. split; [done|]. split; [done|]. split; [|done].
    intros _. split; [by apply Hsk | by left].
  - destruct (bool_decide (roses ≠ [])) eqn:Hr;
      [apply bool_decide_eq_true in Hr | apply bool_decide_eq_false in Hr].
    + destruct (Hpick roses Hr) as (c & Hc & Hrun).
      apply list_elem_of_filter in Hc as [Ht Hin].
      exists c. split; [done|]. split; [done|]. split; [congruence|].
      intros [Hhas [Hlt|Hzero]].
      * apply Hsk in Hhas.
        apply andb_false_iff in Hfirst as [Hf|Hf].
        -- unfold lt in Hf. by apply bool_decide_eq_false in Hf.
        -- by apply bool_decide_eq_false in Hf.
      * by apply Hro in Hzero.
    + apply dec_stable in Hr.
      destruct (Hpick (hand p) Hhand) as (c & Hin & Hrun).
      exists c. split; [done|]. split; [done|].
      assert (card_type c = SKULL) as Ht.
      { destruct (card_type c) eqn:Ec; [|done].
        assert (c ∈ roses) as Hc by (by apply list_elem_of_filter).
        rewrite Hr in Hc. by apply elem_of_nil in Hc. }
      split; [|done]. intros _. split.
      * apply Hskull. eauto.
      * right. by rewrite Hr.
Qed.

(** Bob, who holds all four cards, puts down his skull when the first draw
    is 0. *)
Lemma ai_choose_card_kind_witness :
  ∃ c e', ai_choose_card_to_play "aggressive" bob (sample_env []) = Ret (Some c) e'
          ∧ card_type c = SKULL.
Proof.
  destruct (ai_choose_card_kind "aggressive" bob (sample_env []))
    as (c & Hrun & _ & Hkind); [done|].
  exists c, (next_env (next_env (sample_env []))). split; [exact Hrun|].
  apply Hkind. split; [reflexivity|]. left. vm_compute. lia.
Defined.

(** A strategy name other than the two the methods test for, such as the
    name of the random strategy announced in the heading of the module, is
    played as the balanced strategy by all three decision methods. *)
Theorem unknown_strategy_is_balanced (strategy : string) :
  strategy ≠ "aggressive"%string → strategy ≠ "conservative"%string →
  (∀ p, ai_choose_card_to_play strategy p
        = ai_choose_card_to_play "balanced" p) ∧
  (∀ gi, ai_decide_play_or_bid strategy gi
         = ai_decide_play_or_bid "balanced" gi) ∧
  (∀ cur mx, ai_make_bid strategy cur mx = ai_make_bid "balanced" cur mx) ∧
  skull_prob strategy = 30 ∧ raise_prob strategy = 40 ∧
  (∀ n, bid_probability strategy n = 30 + n * 4).
Proof.
  intros Ha Hc.
  assert (skull_prob strategy = 30) as Hs.
  { unfold skull_prob. by repeat case_decide. }
  assert (raise_prob strategy = 40) as Hr.
  { unfold raise_prob. by repeat case_decide. }
  assert (∀ n, bid_probability strategy n = 30 + n * 4) as Hb.
  { intros n. unfold bid_probability. by repeat case_decide. }
  split_and!; try done.
  - intros p. unfold ai_choose_card_to_play. by rewrite Hs.
  - intros gi. unfold ai_decide_play_or_bid. by rewrite Hb.
  - intros cur mx. unfold ai_make_bid. by rewrite Hr.
Qed.

Lemma unknown_strategy_is_balanced_witness :
  skull_prob "random" = 30 ∧ raise_prob "random" = 40.
Proof.
  destruct (unknown_strategy_is_balanced "random") as (_ & _ & _ & Hs & Hr & _);
    [done | done |].
  by split.
Defined.

(** ** Whose turn it is: [next_player] *)

Lemma next_player_loop_spec (ps : list Player) (left idx : nat) :
  ps ≠ [] →
  ∃ k, 1 ≤ k ≤ left + 1 ∧
       next_player_loop left ps idx = (idx + k) mod length ps ∧
       (∀ j, 1 ≤ j < k →
             eliminated_at ps ((idx + j) mod length ps) = true) ∧
       (eliminated_at ps ((idx + k) mod length ps) = true → k = left + 1).
Proof.
  intros Hps. assert (length ps ≠ 0) as Hn by (by destruct ps).
  revert idx. induction left as [|left IH]; intros idx;
    cbn [next_player_loop]; cbv zeta;
    destruct (eliminated_at ps ((idx + 1) mod length ps)) eqn:He.
  - exists 1. split; [lia|]. split; [done|]. split; [intros j Hj; lia | done].
  - exists 1. split; [lia|]. split; [done|].
    split; [intros j Hj; lia | congruence].
  - destruct (IH ((idx + 1) mod length ps)) as (k & Hk & Hres & Hskip & Hlast).
    assert (∀ j, ((idx + 1) mod length ps + j) mod length ps
                 = (idx + (j + 1)) mod length ps) as Hshift.
    { intros j. rewrite Nat.Div0.add_mod_idemp_l. f_equal. lia. }
    exists (k + 1). rewrite Hshift in Hres, Hlast. split; [lia|].
    split; [done|]. split.
    + intros j Hj. destruct (decide (j = 1)) as [->|Hne]; [done|].
      replace j with ((j - 1) + 1) by lia. rewrite <- Hshift.
      apply Hskip. lia.
    + intros Hel. apply Hlast in Hel. lia.
  - exists 1. split; [lia|]. split; [done|].
    split; [intros j Hj; lia | congruence].
Qed.

Lemma residue_reached (n i r : nat) :
  r < n → ∃ j, 1 ≤ j ≤ n ∧ (i + j) mod n = r.
Proof.
  intros Hr. pose proof (Nat.div_mod_eq i n) as Hi.
  pose proof (Nat.mod_upper_bound i n ltac:(lia)) as Hq.
  set (q := i mod n) in *.
  assert (∀ j m, q + j = r + m * n → (i + j) mod n = r) as Hmod.
  { intros j m Hj. replace (i + j) with (r + (m + i / n) * n) by lia.
    rewrite Nat.Div0.mod_add. by apply Nat.mod_small. }
  destruct (decide (q < r)) as [Hlt|Hge].
  - exists (r - q). split; [lia|]. apply (Hmod _ 0). lia.
  - exists (r + n - q). split; [lia|]. apply (Hmod _ 1). lia.
Qed.

(** [next_player] moves the turn to the next player, in the cyclic order
    of the list, who is not eliminated: the new index is [k] places on for
    some [k] of [1 .. len(players)], every player passed over is
    eliminated, and the player it stops at is active whenever the game
    has an active player.  When all players are eliminated the index comes
    back to where it was.  Nothing but the index changes. *)
Theorem next_player_finds_next_active (g : Game) :
  players g ≠ [] →
  ∃ k, 1 ≤ k ≤ length (players g) ∧
       current_player_index (next_player g)
         = (current_player_index g + k) mod length (players g) ∧
       current_player_index (next_player g) < length (players g) ∧
       (∀ j, 1 ≤ j < k →
             eliminated_at (players g)
               ((current_player_index g + j) mod length (players g)) = true) ∧
       ((∃ r, eliminated_at (players g) r = false) →
        eliminated_at (players g) (current_player_index (next_player g))
          = false) ∧
       ((∀ r, eliminated_at (players g) r = true) →
        current_player_index (next_player g)
          = current_player_index g mod length (players g)) ∧
       set_current_player_index (current_player_index g) (next_player g) = g.
Proof.
  intros Hps. assert (length (players g) ≠ 0) as Hn by (by destruct (players g)).
  destruct (next_player_loop_spec (players g) (length (players g) - 1)
              (current_player_index g) Hps) as (k & Hk & Hres & Hskip & Hlast).
  replace (length (players g) - 1 + 1) with (length (players g)) in * by lia.
  exists k. unfold next_player. cbn [current_player_index].
  rewrite Hres. split; [done|]. split; [done|].
  split; [apply Nat.mod_upper_bound; lia|]. split; [done|]. split_and!.
  - intros (r & Hr).
    destruct (eliminated_at (players g) _) eqn:He; [|done]. exfalso.
    specialize (Hlast eq_refl). subst k.
    assert (r < length (players g)) as Hlt.
    { unfold eliminated_at in Hr.
      destruct (players g !! r) eqn:E; [|done]. by eapply lookup_lt_Some. }
    destruct (residue_reached (length (players g)) (current_player_index g)
                r Hlt) as (j & Hj & Hjr).
    destruct (decide (j = length (players g))) as [->|Hne].
    + rewrite Hjr in He. congruence.
    + specialize (Hskip j ltac:(lia)). rewrite Hjr in Hskip. congruence.
  - intros Hall. rewrite (Hlast (Hall _)).
    rewrite <- (Nat.mul_1_l (length (players g))) at 1.
    by rewrite Nat.Div0.mod_add.
  - by destruct g.
Qed.

(** On the sample table the turn after Ann's goes to a player of the table
    who is not eliminated. *)
Lemma next_player_finds_next_active_witness :
  let g := sample_game table 0 BIDDING 1 None in
  current_player_index (next_player g) < 3 ∧
  eliminated_at (players g) (current_player_index (next_player g)) = false.
Proof.
  intros g.
  destruct (next_player_finds_next_active g) as (k & _ & _ & Hlt & _ & Hact & _);
    [done|].
  split; [exact Hlt|]. apply Hact. by exists 0.
Defined.

(** It is Bob's turn after Ann's; with Bob and Cat eliminated Ann plays
    again. *)
Example next_player_runs :
  current_player_index (next_player (sample_game table 0 BIDDING 1 None)) = 1 ∧
  current_player_index
    (next_player (sample_game [ann; set_is_eliminated true bob;
                               set_is_eliminated true cat] 0 BIDDING 1 None)) = 0.
Proof. done. Qed.

(** ** The end of the bidding *)

Lemma active_bidders_elem (g : Game) (i : nat) :
  i ∈ active_bidders g ↔
  ∃ p, players g !! i = Some p ∧ is_eliminated p = false ∧ has_passed p = false.
Proof.
  unfold active_bidders. rewrite list_elem_of_filter, get_active_players_eq.
  rewrite active_indices_elem. unfold passed_at. split.
  - intros (Hp & p & Hi & He). rewrite Hi in Hp. eauto.
  - intros (p & Hi & He & Hp). rewrite Hi. eauto.
Qed.

(** What [bidding_phase] does after a bid or a pass.  When exactly one
    active player has not passed, that player becomes the challenger, the
    phase becomes the challenge, one challenge more is counted and the turn
    stays where it was; the challenger is an active player who has not
    passed and the only one.  In every other case the bidding goes on with
    the next player, and neither the challenger nor the count changes. *)
Theorem bidding_names_the_last_bidder (new_bid : option Z) (g : Game) :
  game_state g = BIDDING →
  (game_state (bidding_apply new_bid g) = CHALLENGE ∧
   ∃ c ch,
     active_bidders (bidding_apply new_bid g) = [c] ∧
     challenger (bidding_apply new_bid g) = Some c ∧
     players (bidding_apply new_bid g) !! c = Some ch ∧
     is_eliminated ch = false ∧ has_passed ch = false ∧
     (∀ j q, players (bidding_apply new_bid g) !! j = Some q →
             is_eliminated q = false → has_passed q = false → j = c) ∧
     total_challenges (game_stats (bidding_apply new_bid g))
       = S (total_challenges (game_stats g)) ∧
     current_player_index (bidding_apply new_bid g) = current_player_index g)
  ∨
  (game_state (bidding_apply new_bid g) = BIDDING ∧
   length (active_bidders (bidding_apply new_bid g)) ≠ 1 ∧
   challenger (bidding_apply new_bid g) = challenger g ∧
   game_stats (bidding_apply new_bid g) = game_stats g ∧
   current_player_index (bidding_apply new_bid g)
     = next_player_loop (length (players g) - 1) (players g)
                        (current_player_index g)).
Proof.
  intros Hst. pose proof (bidding_apply_players new_bid g) as Hpl.
  revert Hpl. unfold bidding_apply; cbv zeta.
  set (g1 := match new_bid with
             | Some b => _
             | None => _
             end).
  assert (game_state g1 = BIDDING ∧ challenger g1 = challenger g ∧
          game_stats g1 = game_stats g ∧
          current_player_index g1 = current_player_index g ∧
          length (players g1) = length (players g) ∧
          ∀ i, eliminated_at (players g1) i = eliminated_at (players g) i)
    as (Hst1 & Hc1 & Hgs1 & Hi1 & Hlen1 & Hel1).
  { unfold g1. destruct new_bid; simpl; split_and!; try done.
    - apply length_alter.
    - intros i. unfold eliminated_at.
      destruct (decide (i = current_player_index g)) as [->|Hne].
      + rewrite list_lookup_alter_eq. by destruct (_ !! _).
      + by rewrite list_lookup_alter_ne. }
  assert (∀ g2, players g2 = players g1 →
                active_bidders g2 = active_bidders g1) as Hsame.
  { intros g2 H2. unfold active_bidders, get_active_players. by rewrite H2. }
  destruct (active_bidders g1) as [|c [|c' l]] eqn:Ha; intros Hpl.
  - right. rewrite (Hsame (next_player g1) eq_refl), ?Ha.
    split_and!; try done. simpl. rewrite Hlen1, Hi1.
    clear -Hel1 Hlen1. generalize (length (players g) - 1) (current_player_index g).
    intros left. induction left as [|left IH]; intros idx; simpl;
      rewrite Hlen1, Hel1; [done|].
    destruct (eliminated_at _ _); [apply IH | done].
  - left. split; [done|].
    assert (c ∈ active_bidders g1) as Hc by (rewrite Ha; by left).
    apply active_bidders_elem in Hc as (ch & Hch & He & Hp).
    exists c, ch.
    match goal with
    | |- context [active_bidders ?x] => rewrite (Hsame x eq_refl), ?Ha
    end.
    split_and!; try done.
    + intros j q Hj Hq Hq'.
      assert (j ∈ active_bidders g1) as Hin.
      { apply active_bidders_elem. eauto. }
      rewrite Ha in Hin. by apply list_elem_of_singleton in Hin.
    + simpl. by rewrite Hgs1.
  - right. rewrite (Hsame (next_player g1) eq_refl), ?Ha.
    split_and!; try done. simpl. rewrite Hlen1, Hi1.
    clear -Hel1 Hlen1. generalize (length (players g) - 1) (current_player_index g).
    intros left. induction left as [|left IH]; intros idx; simpl;
      rewrite Hlen1, Hel1; [done|].
    destruct (eliminated_at _ _); [apply IH | done].
Qed.

(** Bob has passed; when Cat passes too, Ann is the challenger. *)
Lemma bidding_names_the_last_bidder_witness :
  let g := sample_game [plays [0] ann; set_has_passed true (plays [0] bob);
                        plays [0] cat] 2 BIDDING 2 None in
  game_state (bidding_apply None g) = CHALLENGE ∧
  challenger (bidding_apply None g) = Some 0.
Proof.
  intros g.
  destruct (bidding_names_the_last_bidder None g eq_refl)
    as [(Hst & c & ch & Ha & Hc & _) | (Hst & _)].
  - split; [exact Hst|]. rewrite Hc. vm_compute in Ha. by injection Ha as <-.
  - vm_compute in Hst. discriminate.
Defined.

(** ** The driver *)

(** [play_turn] answers [True] exactly when the game is not over after the
    turn, and then no player has won two rounds.  It never lets a
    [KeyboardInterrupt] out, and on a game that is over it does nothing. *)
Theorem play_turn_reports_the_state (w : World) :
  (∀ b w', play_turn w = Ret b w' →
           b = negb (bool_decide (game_state (fst w') = GAME_OVER)) ∧
           (b = true → someone_won (fst w') = false)) ∧
  (∀ w', play_turn w ≠ Raise KeyboardInterrupt w') ∧
  (game_state (fst w) = GAME_OVER → play_turn w = Ret false w).
Proof.
  split_and!.
  - intros b w'. unfold play_turn. case_bool_decide as Hover.
    { intros [= <- <-]. by rewrite bool_decide_eq_true_2. }
    destruct (run_phase _ w) as [u w1|x w1|]; [| |done].
    + destruct (someone_won (fst w1)) eqn:Hwon.
      * intros [= <- <-]. by rewrite bool_decide_eq_true_2.
      * by intros [= <- <-].
    + destruct x; try done. intros [= <- <-].
      by rewrite bool_decide_eq_true_2.
  - intros w'. unfold play_turn. case_bool_decide; [done|].
    destruct (run_phase _ w) as [u w1|x w1|]; [| |done].
    + by destruct (someone_won _).
    + by destruct x.
  - apply play_turn_game_over.
Qed.

Lemma play_turn_true (w w' : World) :
  play_turn w = Ret true w' → game_state (fst w') ≠ GAME_OVER.
Proof.
  unfold play_turn. case_bool_decide as Hover; [done|].
  destruct (run_phase _ w) as [u w1|x w1|]; [| |done].
  - destruct (someone_won (fst w1)); [done|].
    case_bool_decide; [done|]. by intros [= <-].
  - by destruct x.
Qed.

Lemma play_turn_false (w w' : World) :
  play_turn w = Ret false w' → game_state (fst w') = GAME_OVER.
Proof.
  unfold play_turn. case_bool_decide as Hover; [by intros [= <-]|].
  destruct (run_phase _ w) as [u w1|x w1|]; [| |done].
  - destruct (someone_won (fst w1)); [by intros [= <-]|].
    case_bool_decide; [by intros [= <-] | done].
  - destruct x; try done. by intros [= <-].
Qed.

Lemma game_loop_turns (left : nat) (w w' : World) (limit : bool) :
  game_loop left w = Ret limit w' →
  ∃ k, 1 ≤ k ≤ left + 1 ∧ turns k w = Ret tt w' ∧
       (limit = true ↔ k = left + 1) ∧
       (game_state (fst w') ≠ GAME_OVER → limit = true).
Proof.
  revert w. induction left as [|left IH]; intros w; cbn [game_loop];
    destruct (play_turn w) as [[|] w1|x w1|] eqn:Hturn; try done.
  - intros [= <- <-]. exists 1. split; [lia|]. split.
    { simpl. unfold bind. by rewrite Hturn. }
    by split.
  - intros [= <- <-]. exists 1. split; [lia|]. split.
    { simpl. unfold bind. by rewrite Hturn. }
    by split.
  - rewrite bool_decide_eq_false_2 by (by eapply play_turn_true).
    intros Hloop. destruct (IH w1 Hloop) as (k & Hk & Hrun & Hlim & Hover).
    exists (S k). split; [lia|]. split.
    { cbn [turns]. unfold bind. by rewrite Hturn. }
    split; [|done]. rewrite Hlim. lia.
  - intros [= <- <-]. exists 1. split; [lia|]. split.
    { simpl. unfold bind. by rewrite Hturn. }
    split.
    + split; [done | lia].
    + intros Hnot. by apply play_turn_false in Hturn.
Qed.

(** [play_interactive_game] prints the final results of the game as it
    stands after at most 501 turns: the turn count is compared with
    [max_turns] only after [play_turn] has been called once more.  The
    turn limit is announced exactly when 501 turns were played, and a game
    that is not over when the results are printed was stopped by the
    limit. *)
Theorem driver_stops_after_501_turns (w w' : World) (limit : bool)
    (r : FinalResults) :
  play_interactive_game w = Reported limit r w' →
  r = print_final_results (fst w') ∧
  ∃ k, 1 ≤ k ≤ 501 ∧ turns k w = Ret tt w' ∧
       (limit = true ↔ k = 501) ∧
       (game_state (fst w') ≠ GAME_OVER → limit = true).
Proof.
  unfold play_interactive_game.
  destruct (game_loop max_turns w) as [l w1|x w1|] eqn:Hloop; [| |done].
  - intros [= <- <- <-]. split; [done|].
    by apply game_loop_turns in Hloop.
  - by destruct x.
Qed.

(** A bidding in which everybody has passed only moves the turn on: the
    driver plays its 501 turns and announces the turn limit. *)
Lemma driver_stops_after_501_turns_witness :
  let w := (sample_game [set_has_passed true ann; set_has_passed true bob]
                        0 BIDDING 1 None, sample_env []) in
  ∃ r w', play_interactive_game w = Reported true r w' ∧
          turns 501 w = Ret tt w' ∧ game_state (fst w') = BIDDING.
Proof.
  intros w.
  destruct (play_interactive_game w) as [limit r w'| | |] eqn:Hrun;
    [|vm_compute in Hrun; discriminate..].
  assert (limit = true ∧ game_state (fst w') = BIDDING) as [-> Hst].
  { vm_compute in Hrun. by injection Hrun as <- _ <-. }
  exists r, w'. split; [done|].
  destruct (driver_stops_after_501_turns w w' true r Hrun)
    as (_ & k & _ & Hturns & Hlim & _).
  destruct Hlim as [Hlim _]. rewrite (Hlim eq_refl) in Hturns. by split.
Defined.

Lemma max_rounds_won_first (l pre mid : list Player) (best : Player) :
  Forall (λ q, rounds_won q < rounds_won best) pre →
  Forall (λ q, rounds_won q ≤ rounds_won best) mid →
  ∃ l1 l2,
    pre ++ best :: mid ++ l = l1 ++ max_rounds_won best l :: l2 ∧
    Forall (λ q, rounds_won q < rounds_won (max_rounds_won best l)) l1 ∧
    Forall (λ q, rounds_won q ≤ rounds_won (max_rounds_won best l)) l2.
Proof.
  revert pre mid best. induction l as [|p l IH]; intros pre mid best Hpre Hmid.
  - exists pre, mid. by rewrite app_nil_r.
  - cbn [max_rounds_won]. case_bool_decide as Hlt.
    + destruct (IH (pre ++ best :: mid) [] p) as (l1 & l2 & Heq & H1 & H2).
      * apply Forall_app. split.
        -- eapply Forall_impl; [exact Hpre|]. intros q Hq. simpl in Hq. lia.
        -- apply Forall_cons. split; [done|].
           eapply Forall_impl; [exact Hmid|]. intros q Hq. simpl in Hq. lia.
      * done.
      * exists l1, l2. split; [|done]. rewrite <- Heq.
        by rewrite <- !app_assoc.
    + destruct (IH pre (mid ++ [p]) best) as (l1 & l2 & Heq & H1 & H2).
      * done.
      * apply Forall_app. split; [done|]. apply Forall_singleton. lia.
      * exists l1, l2. split; [|done]. rewrite <- Heq.
        by rewrite <- !app_assoc.
Qed.

(** [print_final_results] reports the statistics of the game as they are
    and names a winner whenever a player is left who is not eliminated:
    the first, in the order of the list, of the active players with the
    most rounds won.  The winner is announced as winning by rounds when
    that count is two or more, and as winning by elimination otherwise,
    however many players are still active. *)
Theorem final_results_name_the_leader (g : Game) :
  reported_stats (print_final_results g) = game_stats g ∧
  (winner_line (print_final_results g) = None ↔
   Forall (λ p, is_eliminated p = true) (players g)) ∧
  (∀ nm by_rounds,
     winner_line (print_final_results g) = Some (nm, by_rounds) →
     ∃ l1 p l2,
       filter (λ p, is_eliminated p = false) (players g) = l1 ++ p :: l2 ∧
       nm = name p ∧ by_rounds = bool_decide (2 ≤ rounds_won p) ∧
       Forall (λ q, rounds_won q < rounds_won p) l1 ∧
       Forall (λ q, rounds_won q ≤ rounds_won p) l2).
Proof.
  unfold print_final_results. cbn [reported_stats winner_line].
  split; [done|]. split.
  - destruct (filter _ (players g)) as [|p l] eqn:Hf.
    + split; [|done]. intros _. apply Forall_forall. intros p Hp.
      destruct (is_eliminated p) eqn:He; [done|].
      assert (p ∈ filter (λ p, is_eliminated p = false) (players g)) as Hin.
      { by apply list_elem_of_filter. }
      rewrite Hf in Hin. by apply elem_of_nil in Hin.
    + split; [done|]. intros Hall.
      assert (p ∈ filter (λ p, is_eliminated p = false) (players g)) as Hin.
      { rewrite Hf. by left. }
      apply list_elem_of_filter in Hin as [He Hin].
      rewrite Forall_forall in Hall. specialize (Hall p Hin). congruence.
  - intros nm by_rounds.
    destruct (filter _ (players g)) as [|p l]; [done|].
    intros [= <- <-].
    destruct (max_rounds_won_first l [] [] p) as (l1 & l2 & Heq & H1 & H2);
      [done..|].
    exists l1, (max_rounds_won p l), l2. by split_and!.
Qed.

(** With Bob and Cat tied at one round, Bob, who sits first, is named, as
    a winner by elimination. *)
Example final_results_runs :
  winner_line (print_final_results
                 (sample_game [ann; set_rounds_won 1 bob; set_rounds_won 1 cat]
                              0 GAME_OVER 0 None))
  = Some ("Bob"%string, false).
Proof. done. Qed.

(** ** What the controller can do to a game *)

(** The updates of a player object that the code of the module performs. *)
Inductive player_step : Player → Player → Prop :=
  | step_play_card (card : Card) (p : Player) :
      player_step p (snd (play_card card p))
  | step_retrieve_cards (p : Player) : player_step p (retrieve_cards p)
  | step_lose_random_card (r : nat) (p : Player) :
      player_step p (snd (lose_random_card r p))
  | step_lose_chosen_card (card : Card) (p : Player) :
      player_step p (snd (lose_chosen_card card p))
  | step_reset_for_new_round (p : Player) :
      player_step p (reset_for_new_round p)
  | step_pass (p : Player) : player_step p (set_has_passed true p)
  | step_eliminate (p : Player) : player_step p (set_is_eliminated true p)
  | step_round_won (p : Player) :
      player_step p (set_rounds_won (rounds_won p + 1) p)
  | step_challenge_won (p : Player) :
      player_step p (set_stats (incr_challenges_won (stats p)) p)
  | step_challenge_lost (p : Player) :
      player_step p (set_stats (incr_challenges_lost (stats p)) p)
  | step_reveal (card : Card) (rest : list Card) (p : Player) :
      played_cards p = rest ++ [card] →
      player_step p (reveal_top card rest p).

(** The updates of the game object: of one player, of all players, and of
    each attribute of the game. *)
Inductive game_step : Game → Game → Prop :=
  | gs_upd (i : nat) (f : Player → Player) (g : Game) :
      (∀ p, players g !! i = Some p → player_step p (f p)) →
      game_step g (upd i f g)
  | gs_map (f : Player → Player) (g : Game) :
      (∀ p, player_step p (f p)) →
      game_step g (set_players (f <$> players g) g)
  | gs_log (m : LogMsg) (g : Game) : game_step g (log m g)
  | gs_state (s : GameState) (g : Game) : game_step g (set_game_state s g)
  | gs_index (i : nat) (g : Game) :
      game_step g (set_current_player_index i g)
  | gs_bid (b : Z) (g : Game) : game_step g (set_current_bid b g)
  | gs_challenger (c : option nat) (g : Game) :
      game_step g (set_challenger c g)
  | gs_revealer (c : option nat) (g : Game) :
      game_step g (set_skull_revealer c g)
  | gs_challenge_counted (g : Game) :
      game_step g (set_game_stats (incr_total_challenges (game_stats g)) g)
  | gs_success_counted (g : Game) :
      game_step g (set_game_stats (incr_successful_challenges (game_stats g)) g)
  | gs_elimination_counted (g : Game) :
      game_step g (set_game_stats (incr_eliminations (game_stats g)) g)
  | gs_round (g : Game) :
      game_step g
        (set_game_stats (set_total_rounds (round_number g + 1 - 1) (game_stats g))
                        (set_round_number (round_number g + 1) g)).

Section Frame.
Variable I : Game → Prop.
Hypothesis I_step : ∀ g g', game_step g g' → I g → I g'.

Lemma frame_upd (i : nat) (f : Player → Player) (g : Game) :
  (∀ p, player_step p (f p)) → I g → I (upd i f g).
Proof. intros Hf. apply I_step. constructor. intros p _. apply Hf. Qed.

Lemma frame_log (m : LogMsg) (g : Game) : I g → I (log m g).
Proof. apply I_step. constructor. Qed.

Lemma frame_set_game_state (s : GameState) (g : Game) :
  I g → I (set_game_state s g).
Proof. apply I_step. constructor. Qed.

Lemma frame_next_player (g : Game) : I g → I (next_player g).
Proof. apply I_step. constructor. Qed.

Lemma frame_start_bidding_phase (g : Game) : I g → I (start_bidding_phase g).
Proof.
  intros H. unfold start_bidding_phase; cbv zeta.
  assert (I (set_current_bid 1 (set_game_state BIDDING g))) as H1.
  { apply (I_step _ _ (gs_bid _ _)), frame_set_game_state, H. }
  destruct (get_current_player _); [|done].
  by apply frame_next_player, frame_log, frame_log, frame_log.
Qed.

Lemma frame_bidding_apply (new_bid : option Z) (g : Game) :
  I g → I (bidding_apply new_bid g).
Proof.
  intros H. unfold bidding_apply; cbv zeta.
  set (g1 := match new_bid with
             | Some b => _
             | None => _
             end).
  assert (I g1) as H1.
  { unfold g1. destruct new_bid as [b|].
    - by apply frame_log, (I_step _ _ (gs_bid _ _)).
    - apply frame_log, frame_upd; [constructor | done]. }
  destruct (active_bidders g1) as [|c [|c' l]]; try by apply frame_next_player.
  apply (I_step _ _ (gs_challenge_counted _)), frame_set_game_state, frame_log.
  by apply (I_step _ _ (gs_challenger _ _)).
Qed.

Lemma frame_retrieve_all (g : Game) : I g → I (retrieve_all g).
Proof. apply I_step. constructor. constructor. Qed.

Lemma frame_start_new_round (g : Game) : I g → I (start_new_round g).
Proof.
  intros H. unfold start_new_round; cbv zeta.
  set (g2 := set_game_stats _ (set_round_number _ g)).
  assert (I g2) as H2 by (by apply (I_step _ _ (gs_round g))).
  set (g3 := set_players _ g2).
  assert (I g3) as H3.
  { apply (I_step g2); [apply gs_map; constructor | done]. }
  case_bool_decide.
  - apply frame_set_game_state. by destruct (get_active_players g3); apply frame_log.
  - apply frame_log, frame_set_game_state.
    apply (I_step _ _ (gs_revealer _ _)), (I_step _ _ (gs_challenger _ _)).
    by apply (I_step _ _ (gs_bid _ _)), (I_step _ _ (gs_index _ _)).
Qed.

Lemma frame_reveal (t : nat) (tp : Player) (card : Card) (rest : list Card)
    (g : Game) :
  players g !! t = Some tp → played_cards tp = rest ++ [card] →
  I g → I (upd t (reveal_top card rest) g).
Proof.
  intros Htp Hs. apply I_step. constructor. intros p Hp.
  rewrite Htp in Hp. injection Hp as <-. by constructor.
Qed.

Lemma frame_skull (c : nat) (r : option nat) (g : Game) :
  I g →
  I (upd c (λ p, set_stats (incr_challenges_lost (stats p)) p)
         (set_skull_revealer r (log LSkullRevealed g))).
Proof.
  intros H. apply frame_upd; [constructor|].
  by apply (I_step _ _ (gs_revealer _ _)), frame_log.
Qed.

Lemma frame_reveal_own (c n : nat) (g : Game) : I g → I (reveal_own c n g).2.
Proof.
  revert g. induction n as [|n IH]; intros g H; simpl; [done|].
  destruct (players g !! c) as [ch|] eqn:Hch; [|done].
  destruct (pop (played_cards ch)) as [[card rest]|] eqn:Hpop; [|done].
  apply pop_Some in Hpop.
  pose proof (frame_reveal c ch card rest g Hch Hpop H) as H1.
  destruct (negb _); [done|].
  destruct (is_skull card).
  - simpl. by apply frame_skull, frame_log.
  - specialize (IH (log (LRevealed (card_type card))
                        (upd c (reveal_top card rest) g))).
    destruct (reveal_own c n _) as [[tr e] g']. simpl in *.
    by apply IH, frame_log.
Qed.

Lemma frame_reveal_others (c n : nat) :
  ∀ (others : list nat) (g : Game) (e : Env),
    I g →
    match reveal_others c n others g e with
    | Ret r _ => I r.2
    | _ => True
    end.
Proof.
  induction n as [|n IH]; intros others g e H; [done|].
  cbn [reveal_others]. destruct others as [|o0 others0]; [done|].
  unfold bind at 1. rewrite choice_run.
  set (t := default o0 _).
  destruct (players g !! t) as [tp|] eqn:Htp; [|done].
  destruct (pop (played_cards tp)) as [[card rest]|] eqn:Hpop; [|done].
  apply pop_Some in Hpop.
  pose proof (frame_reveal t tp card rest g Htp Hpop H) as H1.
  destruct (is_skull card).
  - simpl. by apply frame_skull, frame_log.
  - unfold bind.
    match goal with
    | |- context [reveal_others c n ?o ?g' ?e'] =>
        specialize (IH o g' e'); destruct (reveal_others c n o g' e')
          as [[[tr en] g1] e1| |]
    end; [|done|done].
    simpl in *. by apply IH, frame_log.
Qed.

Lemma frame_resolve (c : nat) (g : Game) (e : Env) :
  I g →
  match resolve c g e with
  | Ret r _ => I r.2
  | _ => True
  end.
Proof.
  intros H. unfold resolve.
  pose proof (frame_reveal_own c (Z.to_nat (current_bid g)) g H) as H1.
  destruct (reveal_own c _ g) as [[tr en] g1]. simpl in H1.
  destruct en as [m| |x]; [|done|done].
  unfold bind.
  pose proof (frame_reveal_others c m (other_players c g1) g1 e H1) as H2.
  destruct (reveal_others c m _ g1 e) as [[[tr2 en2] g2] e2| |]; done.
Qed.

Local Ltac frame_side :=
  intros;
  repeat lazymatch goal with
  | |- I (upd _ _ _) => apply frame_upd; [intros ?; constructor | ]
  | |- I (log _ _) => apply frame_log
  | |- I (set_game_state _ _) => apply frame_set_game_state
  | |- I (set_game_stats (incr_eliminations _) _) =>
      apply (I_step _ _ (gs_elimination_counted _))
  | |- I (set_game_stats (incr_successful_challenges _) _) =>
      apply (I_step _ _ (gs_success_counted _))
  | |- I (next_player _) => apply frame_next_player
  | |- I (start_bidding_phase _) => apply frame_start_bidding_phase
  | |- I (bidding_apply _ _) => apply frame_bidding_apply
  | |- I (retrieve_all _) => apply frame_retrieve_all
  | |- I (start_new_round _) => apply frame_start_new_round
  | |- I _ => assumption
  end.

Local Ltac frame := repeat keeps_step; repeat keeps_step; try frame_side.

Lemma frame_initial_place_one (i : nat) :
  keeps I (initial_place_one i) (λ _, True).
Proof. unfold initial_place_one, initial_apply. frame. Qed.

Lemma frame_initial_loop (active : list nat) :
  keeps I (initial_loop active) (λ _, True).
Proof.
  induction active as [|i active IH]; simpl.
  - by apply keeps_ret.
  - eapply keeps_bind; [apply frame_initial_place_one|].
    intros [] _; [by apply keeps_ret | apply IH].
Qed.

Lemma frame_initial_card_placement :
  keeps I initial_card_placement (λ _, True).
Proof.
  unfold initial_card_placement.
  keeps_step; [frame_side|]. keeps_step. keeps_step; [frame|].
  eapply keeps_bind; [apply frame_initial_loop|]. intros ? _. frame.
Qed.

Lemma frame_card_placement_phase :
  keeps I card_placement_phase (λ _, True).
Proof. unfold card_placement_phase, placement_apply. frame. Qed.

Lemma frame_bidding_phase : keeps I bidding_phase (λ _, True).
Proof. unfold bidding_phase. frame. Qed.

Lemma frame_handle_successful_challenge :
  keeps I handle_successful_challenge (λ _, True).
Proof. unfold handle_successful_challenge. frame. Qed.

Lemma frame_handle_failed_challenge :
  keeps I handle_failed_challenge (λ _, True).
Proof.
  unfold handle_failed_challenge, challenger_loses_card, lose_random_card_of.
  frame.
Qed.

Lemma frame_challenge_phase : keeps I challenge_phase (λ _, True).
Proof.
  unfold challenge_phase.
  eapply keeps_bind; [apply keeps_get_game|]. intros g Hg.
  destruct (negb _); [by apply keeps_ret|].
  eapply keeps_bind; [apply keeps_the_challenger|]. intros c _.
  eapply keeps_bind; [apply keeps_player_at|]. intros ch _.
  eapply keeps_bind; [apply keeps_modify; frame_side|]. intros _ _.
  eapply keeps_bind; [apply keeps_modify; frame_side|]. intros _ _.
  eapply keeps_bind; [apply keeps_get_game|]. intros g0 Hg0.
  eapply (keeps_bind _ _ _ (λ r, I r.2)).
  { apply keeps_lift. intros e.
    pose proof (frame_resolve c g0 e Hg0) as Hres.
    by destruct (resolve c g0 e). }
  intros [[tr en] g'] Hg'. simpl in Hg'.
  eapply keeps_bind; [apply keeps_modify; by intros|]. intros _ _.
  destruct en.
  - eapply keeps_bind; [apply keeps_modify; frame_side|]. intros _ _.
    eapply keeps_bind; [apply keeps_modify; frame_side|]. intros _ _.
    eapply keeps_bind; [apply keeps_modify; frame_side|]. intros _ _.
    eapply keeps_bind; [apply frame_handle_successful_challenge|].
    intros _ _. by apply keeps_ret.
  - eapply keeps_bind; [apply frame_handle_failed_challenge|].
    intros _ _. by apply keeps_ret.
  - apply keeps_raise.
Qed.

(** An invariant of the updates is an invariant of the turn, however the
    turn ends, and of any run of the driver's loop. *)
Lemma play_turn_frame (w : World) :
  I (fst w) →
  match play_turn w with
  | Ret _ w' | Raise _ w' => I (fst w')
  | Blocked => True
  end.
Proof.
  intros Hw. unfold play_turn. case_bool_decide; [done|].
  assert (keeps I (run_phase (game_state (fst w))) (λ _, True)) as Hk.
  { destruct (game_state (fst w)); simpl.
    - apply frame_initial_card_placement.
    - eapply keeps_bind; [apply frame_card_placement_phase|].
      intros _ _. by apply keeps_ret.
    - eapply keeps_bind; [apply frame_bidding_phase|].
      intros _ _. by apply keeps_ret.
    - eapply keeps_bind; [apply frame_challenge_phase|].
      intros _ _. by apply keeps_ret.
    - by apply keeps_ret. }
  specialize (Hk w Hw).
  destruct (run_phase _ w) as [u w'|x w'|]; [| |done].
  - destruct Hk as [Hw' _].
    destruct (someone_won _); [by apply frame_set_game_state | done].
  - destruct x; try done. by apply frame_set_game_state.
Qed.

Lemma game_loop_frame (left : nat) (w : World) :
  I (fst w) →
  match game_loop left w with
  | Ret _ w' | Raise _ w' => I (fst w')
  | Blocked => True
  end.
Proof.
  revert w. induction left as [|left IH]; intros w Hw; simpl;
    pose proof (play_turn_frame w Hw) as Hturn;
    destruct (play_turn w) as [[|] w'|x w'|]; try done.
  case_bool_decide; [done|]. by apply IH.
Qed.
End Frame.

(** ** What a turn never changes *)

Definition stats_le (s s' : Stats) : Prop :=
  challenges_won s ≤ challenges_won s' ∧
  challenges_lost s ≤ challenges_lost s' ∧
  cards_lost s ≤ cards_lost s' ∧
  skulls_played s ≤ skulls_played s' ∧
  roses_played s ≤ roses_played s'.

(** [evolves p p']: the player object [p'] can be a later state of [p]. *)
Definition evolves (p p' : Player) : Prop :=
  (name p' = name p ∧ cls p' = cls p ∧ is_ai p' = is_ai p) ∧
  ((is_eliminated p = true → is_eliminated p' = true) ∧
   rounds_won p ≤ rounds_won p' ∧ stats_le (stats p) (stats p')) ∧
  hand p' ++ played_cards p' ⊆+ hand p ++ played_cards p.

Lemma evolves_refl (p : Player) : evolves p p.
Proof. unfold evolves, stats_le. split_and!; done. Qed.

Lemma evolves_trans (p1 p2 p3 : Player) :
  evolves p1 p2 → evolves p2 p3 → evolves p1 p3.
Proof.
  unfold evolves, stats_le.
  intros ((? & ? & ?) & (? & ? & ? & ? & ? & ? & ?) & H12)
         ((? & ? & ?) & (? & ? & ? & ? & ? & ? & ?) & H23).
  split_and!; try congruence; try lia; [auto|].
  by trans (hand p2 ++ played_cards p2).
Qed.

Lemma lose_card_evolves (card : Card) (p : Player) :
  evolves p (snd (lose_card card p)).
Proof.
  destruct (decide (card ∈ hand p)) as [Hin|Hnot].
  - destruct (lose_card_fields card p Hin)
      as (l1 & l2 & Hh & _ & _ & Hhand & Hpl & Hst & He & Hn & Hc & Ha & Hr & _).
    unfold evolves, stats_le. rewrite Hhand, Hpl, Hst, He, Hn, Hc, Ha, Hr, Hh.
    split_and!; try done; simpl; try lia.
    + by intros ->.
    + by apply submseteq_skips_r, submseteq_skips_l, submseteq_cons.
  - unfold lose_card. rewrite remove_first_None by done. apply evolves_refl.
Qed.

Lemma player_step_evolves (p p' : Player) : player_step p p' → evolves p p'.
Proof.
  destruct 1 as [card p|p|r p|card p|p|p|p|p|p|p|card rest p Hs].
  - unfold play_card. case_bool_decide as Hin; [|apply evolves_refl].
    destruct (remove_first_Some _ _ Hin) as (l1 & l2 & Hh & _ & ->).
    unfold evolves, stats_le. rewrite Hh.
    assert ((l1 ++ l2) ++ played_cards p ++ [card]
            ⊆+ (l1 ++ card :: l2) ++ played_cards p) as Hmove.
    { apply Permutation_submseteq.
      rewrite app_assoc, <- Permutation_cons_append, <- !app_assoc.
      apply Permutation_middle. }
    destruct (is_skull card); simpl; split_and!; try done; lia.
  - unfold evolves, stats_le. simpl. rewrite app_nil_r. split_and!; done.
  - unfold lose_random_card. destruct (hand p) eqn:E; [apply evolves_refl|].
    rewrite <- ?E. destruct (random_choice r _); [|apply evolves_refl].
    apply lose_card_evolves.
  - unfold lose_chosen_card. case_bool_decide; [|apply evolves_refl].
    apply lose_card_evolves.
  - unfold evolves, stats_le. split_and!; done.
  - unfold evolves, stats_le. split_and!; done.
  - unfold evolves, stats_le. split_and!; done.
  - unfold evolves, stats_le. simpl. split_and!; try done; lia.
  - unfold evolves, stats_le. simpl. split_and!; try done; lia.
  - unfold evolves, stats_le. simpl. split_and!; try done; lia.
  - unfold evolves, stats_le. simpl. rewrite Hs. split_and!; try done.
    rewrite <- app_assoc. apply submseteq_skips_l, Permutation_submseteq.
    apply Permutation_app_comm.
Qed.

Lemma game_step_evolves (ps0 : list Player) (g g' : Game) :
  game_step g g' →
  Forall2 evolves ps0 (players g) → Forall2 evolves ps0 (players g').
Proof.
  destruct 1 as [i f g Hf|f g Hf| | | | | | | | | |]; try done; simpl; intros H.
  - apply Forall2_alter_r; [done|]. intros p0 p _ Hp H0.
    eapply evolves_trans; [exact H0|]. by apply player_step_evolves, Hf.
  - apply Forall2_fmap_r. eapply Forall2_impl; [exact H|].
    intros p0 p H0. simpl. eapply evolves_trans; [exact H0|].
    apply player_step_evolves, Hf.
Qed.

Lemma Forall2_evolves_refl (ps : list Player) : Forall2 evolves ps ps.
Proof. induction ps; constructor; [apply evolves_refl | done]. Qed.

Lemma play_turn_evolves (w : World) :
  match play_turn w with
  | Ret _ w' | Raise _ w' => Forall2 evolves (players (fst w)) (players (fst w'))
  | Blocked => True
  end.
Proof.
  apply (play_turn_frame (λ g, Forall2 evolves (players (fst w)) (players g))).
  - intros g g'. apply game_step_evolves.
  - apply Forall2_evolves_refl.
Qed.

Lemma game_loop_evolves (left : nat) (w : World) :
  match game_loop left w with
  | Ret _ w' | Raise _ w' => Forall2 evolves (players (fst w)) (players (fst w'))
  | Blocked => True
  end.
Proof.
  apply (game_loop_frame (λ g, Forall2 evolves (players (fst w)) (players g))).
  - intros g g'. apply game_step_evolves.
  - apply Forall2_evolves_refl.
Qed.

(** The seating is fixed once the game is built.  A turn, however it ends,
    and the whole loop of the driver leave the list of players with the
    same length and every place with a player of the same name, of the
    same class and with the same [is_ai]. *)
Theorem seating_is_fixed (w : World) :
  match play_turn w with
  | Ret _ w' | Raise _ w' =>
      Forall2 (λ p p', name p' = name p ∧ cls p' = cls p ∧ is_ai p' = is_ai p)
              (players (fst w)) (players (fst w'))
  | Blocked => True
  end ∧
  ∀ n, match game_loop n w with
       | Ret _ w' | Raise _ w' =>
           length (players (fst w')) = length (players (fst w)) ∧
           Forall2 (λ p p', name p' = name p ∧ cls p' = cls p
                            ∧ is_ai p' = is_ai p)
                   (players (fst w)) (players (fst w'))
       | Blocked => True
       end.
Proof.
  split.
  - pose proof (play_turn_evolves w) as H.
    destruct (play_turn w) as [b w'|x w'|]; [| |done];
      (eapply Forall2_impl; [exact H|]); by intros p p' [? _].
  - intros n. pose proof (game_loop_evolves n w) as H.
    destruct (game_loop n w) as [b w'|x w'|]; [| |done];
      (split; [symmetry; by eapply Forall2_length|]);
      (eapply Forall2_impl; [exact H|]); by intros p p' [? _].
Qed.

(** Nothing is undone.  Over a turn, however it ends, and over the whole
    loop of the driver, a player who is eliminated stays eliminated, and
    the rounds won and the five counters of the statistics of every player
    never go down. *)
Theorem nothing_is_undone (w : World) :
  match play_turn w with
  | Ret _ w' | Raise _ w' =>
      Forall2 (λ p p', (is_eliminated p = true → is_eliminated p' = true) ∧
                       rounds_won p ≤ rounds_won p' ∧
                       stats_le (stats p) (stats p'))
              (players (fst w)) (players (fst w'))
  | Blocked => True
  end ∧
  ∀ n, match game_loop n w with
       | Ret _ w' | Raise _ w' =>
           Forall2 (λ p p', (is_eliminated p = true → is_eliminated p' = true) ∧
                            rounds_won p ≤ rounds_won p' ∧
                            stats_le (stats p) (stats p'))
                   (players (fst w)) (players (fst w'))
       | Blocked => True
       end.
Proof.
  split.
  - pose proof (play_turn_evolves w) as H.
    destruct (play_turn w) as [b w'|x w'|]; [| |done];
      (eapply Forall2_impl; [exact H|]); by intros p p' (_ & ? & _).
  - intros n. pose proof (game_loop_evolves n w) as H.
    destruct (game_loop n w) as [b w'|x w'|]; [| |done];
      (eapply Forall2_impl; [exact H|]); by intros p p' (_ & ? & _).
Qed.

(** Cards stay with their owner.  Over a turn, however it ends, and over
    the whole loop of the driver, the card objects a player holds, in hand
    and on the stack together, are among those the same player held
    before, each as often at most: no card is created, and none passes
    from one player to another. *)
Theorem cards_stay_with_their_owner (w : World) :
  match play_turn w with
  | Ret _ w' | Raise _ w' =>
      Forall2 (λ p p', hand p' ++ played_cards p' ⊆+ hand p ++ played_cards p)
              (players (fst w)) (players (fst w'))
  | Blocked => True
  end ∧
  ∀ n, match game_loop n w with
       | Ret _ w' | Raise _ w' =>
           Forall2 (λ p p', hand p' ++ played_cards p'
                            ⊆+ hand p ++ played_cards p)
                   (players (fst w)) (players (fst w'))
       | Blocked => True
       end.
Proof.
  split.
  - pose proof (play_turn_evolves w) as H.
    destruct (play_turn w) as [b w'|x w'|]; [| |done];
      (eapply Forall2_impl; [exact H|]); by intros p p' (_ & _ & ?).
  - intros n. pose proof (game_loop_evolves n w) as H.
    destruct (game_loop n w) as [b w'|x w'|]; [| |done];
      (eapply Forall2_impl; [exact H|]); by intros p p' (_ & _ & ?).
Qed.

(** ** The log and the counters of the game *)

Definition game_stats_le (s s' : GameStats) : Prop :=
  total_challenges s ≤ total_challenges s' ∧
  successful_challenges s ≤ successful_challenges s' ∧
  eliminations s ≤ eliminations s'.

(** [grows g0 g]: the log of [g] extends that of [g0], and no counter of
    [g] is below that of [g0]. *)
Definition grows (g0 g : Game) : Prop :=
  game_log g0 `prefix_of` game_log g ∧
  round_number g0 ≤ round_number g ∧
  game_stats_le (game_stats g0) (game_stats g).

Lemma game_step_grows (g0 g g' : Game) :
  game_step g g' → grows g0 g → grows g0 g'.
Proof.
  unfold grows, game_stats_le.
  destruct 1; intros (Hlog & Hr & Hc & Hs & He); simpl;
    split_and!; try done; try lia.
  by apply prefix_app_r.
Qed.

Lemma grows_refl (g : Game) : grows g g.
Proof. unfold grows, game_stats_le. split_and!; done. Qed.

(** The log is only ever appended to and the counters of the game only go
    up: over a turn, however it ends, and over the whole loop of the
    driver, the earlier [game_log] is a prefix of the later one, and
    [round_number], [total_challenges], [successful_challenges] and
    [eliminations] do not decrease. *)
Theorem log_and_counters_only_grow (w : World) :
  match play_turn w with
  | Ret _ w' | Raise _ w' =>
      game_log (fst w) `prefix_of` game_log (fst w') ∧
      round_number (fst w) ≤ round_number (fst w') ∧
      game_stats_le (game_stats (fst w)) (game_stats (fst w'))
  | Blocked => True
  end ∧
  ∀ n, match game_loop n w with
       | Ret _ w' | Raise _ w' =>
           game_log (fst w) `prefix_of` game_log (fst w') ∧
           round_number (fst w) ≤ round_number (fst w') ∧
           game_stats_le (game_stats (fst w)) (game_stats (fst w'))
       | Blocked => True
       end.
Proof.
  split; [|intros n].
  - apply (play_turn_frame (grows (fst w)) (game_step_grows (fst w))),
      grows_refl.
  - apply (game_loop_frame (grows (fst w)) (game_step_grows (fst w))),
      grows_refl.
Qed.

(** [rounds_counted g]: [total_rounds] is the number of rounds begun before
    the current one. *)
Definition rounds_counted (g : Game) : Prop :=
  total_rounds (game_stats g) + 1 = round_number g.

Lemma game_step_rounds_counted (g g' : Game) :
  game_step g g' → rounds_counted g → rounds_counted g'.
Proof. unfold rounds_counted. destruct 1; simpl; lia. Qed.

(** In every game the program can be in, [total_rounds] of the statistics
    is [round_number - 1]: the round being played is not counted, also
    when the game ends in it by a second round won. *)
Theorem total_rounds_lags_by_one (w : World) :
  reachable w →
  total_rounds (game_stats (fst w)) + 1 = round_number (fst w) ∧
  1 ≤ round_number (fst w).
Proof.
  intros Hr.
  assert (rounds_counted (fst w)) as H; [|unfold rounds_counted in H; lia].
  induction Hr as [ps e g e' Hps Hinit | w b w' _ IH Hturn].
  - unfold InteractiveSkullGame_init in Hinit.
    destruct (_ || _); [done|]. unfold bind, shuffle in Hinit.
    destruct (shuffle_from_returns (length ps - 1) ps e) as (l' & Hl & Hp).
    rewrite Hl in Hinit. by injection Hinit as <- _.
  - pose proof (play_turn_frame rounds_counted game_step_rounds_counted w IH)
      as H. by rewrite Hturn in H.
Qed.

(** ** The cards of a player in the games that can be reached *)

Lemma submseteq_census (l k : list Card) :
  l ⊆+ k → NoDup k →
  NoDup l ∧
  length (filter (λ c, card_type c = SKULL) l)
    ≤ length (filter (λ c, card_type c = SKULL) k) ∧
  length (filter (λ c, card_type c = ROSE) l)
    ≤ length (filter (λ c, card_type c = ROSE) k).
Proof.
  intros [k' Hk]%submseteq_Permutation Hnd. rewrite Hk in Hnd |- *.
  apply NoDup_app in Hnd as (Hnd & _ & _).
  rewrite !filter_app, !length_app. split_and!; [done | lia | lia].
Qed.

(** [dealt p]: the cards [p] holds are among the four of a new player. *)
Definition dealt (p : Player) : Prop :=
  ∃ c nm ai fresh,
    hand p ++ played_cards p ⊆+ hand (Player_init c nm ai fresh).

Lemma reachable_dealt (w : World) :
  reachable w → Forall dealt (players (fst w)).
Proof.
  induction 1 as [ps e g e' Hps Hinit | w b w' _ IH Hturn].
  - unfold InteractiveSkullGame_init in Hinit.
    destruct (_ || _); [done|]. unfold bind, shuffle in Hinit.
    destruct (shuffle_from_returns (length ps - 1) ps e) as (l' & Hl & Hp).
    rewrite Hl in Hinit. injection Hinit as <- _. simpl. rewrite Hp.
    eapply Forall_impl; [exact Hps|].
    intros p (c & nm & ai & fresh & ->). exists c, nm, ai, fresh.
    simpl. by rewrite ?app_nil_r.
  - pose proof (play_turn_evolves w) as H. rewrite Hturn in H.
    eapply Forall2_Forall_r; [exact H|].
    eapply Forall_impl; [exact IH|].
    intros p (c & nm & ai & fresh & Hsub) p' (_ & _ & Hsub').
    exists c, nm, ai, fresh. by trans (hand p ++ played_cards p).
Qed.

(** In every game the program can be in, the cards a player holds, in hand
    and on the stack together, are distinct card objects, at most four of
    them, with at most one skull and at most three roses. *)
Theorem reachable_players_hold_their_own_cards (w : World) :
  reachable w →
  Forall (λ p,
            NoDup (hand p ++ played_cards p) ∧
            length (hand p) + length (played_cards p) ≤ 4 ∧
            length (filter (λ c, card_type c = SKULL)
                           (hand p ++ played_cards p)) ≤ 1 ∧
            length (filter (λ c, card_type c = ROSE)
                           (hand p ++ played_cards p)) ≤ 3)
         (players (fst w)).
Proof.
  intros Hr. eapply Forall_impl; [exact (reachable_dealt w Hr)|].
  intros p (c & nm & ai & fresh & Hsub).
  assert (NoDup (hand (Player_init c nm ai fresh))) as Hnd.
  { simpl. repeat (apply NoDup_cons; split;
                   [rewrite ?elem_of_cons, elem_of_nil;
                    intros H; repeat destruct H as [H|H]; try done;
                    injection H; lia|]).
    apply NoDup_nil_2. }
  destruct (submseteq_census _ _ Hsub Hnd) as (H1 & H2 & H3).
  apply submseteq_length in Hsub. rewrite length_app in Hsub.
  simpl in *. split_and!; [done | lia | lia | lia].
Qed.

(** Witnesses of the three properties of the games that can be reached: the
    game of the three sample players, six turns after it was built. *)
Lemma sample_turns_reachable (g0 : Game) (e0 : Env) (n : nat) (w : World) :
  InteractiveSkullGame_init [ann; bob; cat]
    (sample_env [Line (Tint 1); Line Tb; Line Tpass]) = Ret g0 e0 →
  turns n (g0, e0) = Ret tt w → reachable w.
Proof.
  intros Hinit Hturns. eapply reachable_turns; [|exact Hturns].
  eapply reach_new; [|exact Hinit].
  repeat constructor; by eexists _, _, _, _.
Qed.

Lemma total_rounds_lags_by_one_witness :
  ∃ g0 e0 w,
    InteractiveSkullGame_init [ann; bob; cat]
      (sample_env [Line (Tint 1); Line Tb; Line Tpass]) = Ret g0 e0 ∧
    turns 6 (g0, e0) = Ret tt w ∧
    total_rounds (game_stats (fst w)) + 1 = round_number (fst w).
Proof.
  destruct a_reachable_challenge as (g0 & e0 & g & e & Hinit & Hturns & _).
  exists g0, e0, (g, e). split; [exact Hinit|]. split; [exact Hturns|].
  apply (total_rounds_lags_by_one (g, e)).
  by eapply sample_turns_reachable.
Defined.

Lemma reachable_players_hold_their_own_cards_witness :
  ∃ g0 e0 w,
    InteractiveSkullGame_init [ann; bob; cat]
      (sample_env [Line (Tint 1); Line Tb; Line Tpass]) = Ret g0 e0 ∧
    turns 6 (g0, e0) = Ret tt w ∧
    Forall (λ p, NoDup (hand p ++ played_cards p)) (players (fst w)).
Proof.
  destruct a_reachable_challenge as (g0 & e0 & g & e & Hinit & Hturns & _).
  exists g0, e0, (g, e). split; [exact Hinit|]. split; [exact Hturns|].
  eapply Forall_impl.
  - apply (reachable_players_hold_their_own_cards (g, e)).
    by eapply sample_turns_reachable.
  - by intros p [H _].
Defined.

(** ** Losing a challenge *)

(** In every game the program can be in, each lost challenge has cost the
    player exactly one card ([challenges_lost] equals [cards_lost]), the
    cards in hand, on the stack and lost add up to four, and a player who
    is not eliminated holds a card.  In the challenge phase the challenger
    is set and is a player who is not eliminated. *)
Theorem reachable_players_are_sound (w : World) :
  reachable w →
  Forall (λ p,
            challenges_lost (stats p) = cards_lost (stats p) ∧
            length (hand p) + length (played_cards p)
              + cards_lost (stats p) = 4 ∧
            (is_eliminated p = false →
             0 < length (hand p) + length (played_cards p) ∧
             cards_lost (stats p) ≤ 3))
         (players (fst w)) ∧
  (game_state (fst w) = CHALLENGE →
   ∃ c ch, challenger (fst w) = Some c ∧ players (fst w) !! c = Some ch ∧
           is_eliminated ch = false).
Proof.
  intros [Hps Hready]%reachable_sound. split; [|exact Hready].
  eapply Forall_impl; [exact Hps|].
  intros p (Hc & Hl & Hh). unfold conserved in Hc.
  split; [done|]. split; [done|]. intros He.
  destruct (Hh He) as [H|H].
  - destruct (hand p); [done|]. simpl in *. lia.
  - destruct (played_cards p); [done|]. simpl in *. lia.
Qed.

Lemma reachable_players_are_sound_witness :
  ∃ g0 e0 w,
    InteractiveSkullGame_init [ann; bob; cat]
      (sample_env [Line (Tint 1); Line Tb; Line Tpass]) = Ret g0 e0 ∧
    turns 6 (g0, e0) = Ret tt w ∧
    game_state (fst w) = CHALLENGE ∧
    ∃ c ch, challenger (fst w) = Some c ∧ players (fst w) !! c = Some ch ∧
            is_eliminated ch = false.
Proof.
  destruct a_reachable_challenge as (g0 & e0 & g & e & Hinit & Hturns & Hst & _).
  exists g0, e0, (g, e). split; [exact Hinit|]. split; [exact Hturns|].
  split; [exact Hst|].
  apply (reachable_players_are_sound (g, e)); [|exact Hst].
  by eapply sample_turns_reachable.
Defined.

Lemma upd_lookup (c : nat) (f : Player → Player) (g : Game) (ch : Player) :
  players g !! c = Some ch →
  players (upd c f g) !! c = Some (f ch) ∧
  ∀ j, j ≠ c → players (upd c f g) !! j = players g !! j.
Proof.
  intros Hch. simpl. split.
  - by rewrite list_lookup_alter_eq, Hch.
  - intros j Hj. by rewrite list_lookup_alter_ne.
Qed.

(** [same_but_players g g1]: [g1] differs from [g] in its players and in
    its log at most. *)
Definition same_but_players (g g1 : Game) : Prop :=
  game_stats g1 = game_stats g ∧ round_number g1 = round_number g ∧
  challenger g1 = challenger g.

Lemma lose_random_card_of_Ret (c : nat) (ch : Player) (g : Game) (e : Env)
    (u : unit) (w1 : World) :
  players g !! c = Some ch → hand ch ≠ [] →
  lose_random_card_of c (g, e) = Ret u w1 →
  ∃ card, card ∈ hand ch ∧
          fst w1 = upd c (λ p, snd (lose_random_card (rng e (rpos e)) p)) g ∧
          snd (lose_random_card (rng e (rpos e)) ch)
            = snd (lose_chosen_card card ch).
Proof.
  intros Hch Hhand. rewrite (lose_random_card_of_run c g e ch Hch Hhand).
  intros [= _ <-]. cbn [fst].
  destruct (random_choice_elem (rng e (rpos e)) (hand ch) Hhand)
    as (card & Hc & Hin).
  exists card. split; [done|]. split; [done|].
  unfold lose_random_card, lose_chosen_card.
  rewrite bool_decide_eq_true_2 by done.
  destruct (hand ch) eqn:E; [done|]. rewrite ?E in Hc. by rewrite Hc.
Qed.

Lemma challenger_loses_card_Ret (c : nat) (ch : Player) (g : Game) (e : Env)
    (u : unit) (w1 : World) :
  players g !! c = Some ch → hand ch ≠ [] →
  challenger_loses_card c ch g (g, e) = Ret u w1 →
  ∃ card, card ∈ hand ch ∧
          players (fst w1) !! c = Some (snd (lose_chosen_card card ch)) ∧
          (∀ j, j ≠ c → players (fst w1) !! j = players g !! j) ∧
          same_but_players g (fst w1).
Proof.
  intros Hch Hhand. unfold challenger_loses_card.
  assert (∀ u0 w0, lose_random_card_of c (g, e) = Ret u0 w0 →
            ∃ card, card ∈ hand ch ∧
              players (fst w0) !! c = Some (snd (lose_chosen_card card ch)) ∧
              (∀ j, j ≠ c → players (fst w0) !! j = players g !! j) ∧
              same_but_players g (fst w0)) as Hrand.
  { intros u0 w0 H0.
    destruct (lose_random_card_of_Ret c ch g e u0 w0 Hch Hhand H0)
      as (card & Hin & -> & Heq).
    exists card. split; [done|].
    destruct (upd_lookup c (λ p, snd (lose_random_card (rng e (rpos e)) p))
                g ch Hch) as [Hc Hj].
    rewrite Hc, Heq. by split_and!. }
  assert (∀ m w0 w2 (u2 : unit),
            (∃ card, card ∈ hand ch ∧
              players (fst w0) !! c = Some (snd (lose_chosen_card card ch)) ∧
              (∀ j, j ≠ c → players (fst w0) !! j = players g !! j) ∧
              same_but_players g (fst w0)) →
            modify (log m) w0 = Ret u2 w2 →
            ∃ card, card ∈ hand ch ∧
              players (fst w2) !! c = Some (snd (lose_chosen_card card ch)) ∧
              (∀ j, j ≠ c → players (fst w2) !! j = players g !! j) ∧
              same_but_players g (fst w2)) as Hlog.
  { intros m w0 w2 u2 (card & Hin & Hc & Hj & Hs) ->%modify_Ret. by exists card. }
  case_bool_decide as Hown.
  - intros H. apply bind_Ret in H as (u1 & w0 & H0 & H).
    eapply Hlog; [|exact H]. clear H.
    destruct (cls ch); try by eapply Hrand.
    apply bind_Ret in H0 as (lost & w3 & Hl & H0).
    apply lift_Ret in Hl as (e3 & Hl & ->). cbn [fst snd] in Hl.
    pose proof (human_choose_card_to_lose_run ch e Hhand) as Hhum.
    rewrite Hl in Hhum. destruct lost as [card|]; [|done].
    apply modify_Ret in H0 as ->. cbn [fst].
    destruct (upd_lookup c (λ p, snd (lose_chosen_card card p)) g ch Hch)
      as [Hc Hj].
    exists card. by split_and!.
  - intros H. apply bind_Ret in H as (u1 & w0 & H0 & H).
    destruct (Hrand _ _ H0) as (card & Hin & Hc & Hj & Hs).
    destruct (skull_revealer g) as [r|]; [|done].
    apply bind_Ret in H as (rp & w3 & [_ ->]%player_at_Ret & H).
    eapply Hlog; [|exact H]. by exists card.
Qed.

Lemma start_new_round_eliminations (g : Game) :
  eliminations (game_stats (start_new_round g)) = eliminations (game_stats g).
Proof.
  unfold start_new_round; cbv zeta.
  case_bool_decide; [|done]. by destruct (get_active_players _).
Qed.

(** What a failed challenge costs.  When [handle_failed_challenge] returns,
    the challenger, who held a card in hand, has lost exactly one card of
    the hand as it was after the revealing, and every player, the
    challenger included, has the stack back in hand and [has_passed]
    cleared; nobody else has lost anything.  The challenger is eliminated
    when the lost card was the only card of the hand, whatever was still on
    the stack, and that elimination is counted; the next round is begun. *)
Theorem failed_challenge_costs_one_card (g : Game) (e : Env) (c : nat)
    (ch : Player) (g' : Game) (e' : Env) :
  challenger g = Some c → players g !! c = Some ch → hand ch ≠ [] →
  handle_failed_challenge (g, e) = Ret tt (g', e') →
  ∃ card,
    card ∈ hand ch ∧
    players g' !! c
      = Some (reset_for_new_round
                (retrieve_cards (snd (lose_chosen_card card ch)))) ∧
    (∀ j p, j ≠ c → players g !! j = Some p →
            players g' !! j = Some (reset_for_new_round (retrieve_cards p))) ∧
    (∀ ch', players g' !! c = Some ch' →
            cards_lost (stats ch') = S (cards_lost (stats ch)) ∧
            played_cards ch' = [] ∧
            length (hand ch') + 1
              = length (hand ch) + length (played_cards ch) ∧
            is_eliminated ch'
              = is_eliminated ch || bool_decide (length (hand ch) = 1) ∧
            eliminations (game_stats g')
              = eliminations (game_stats g)
                + (if is_eliminated ch' then 1 else 0)) ∧
    round_number g' = round_number g + 1.
Proof.
  intros Hc Hch Hhand H. unfold handle_failed_challenge in H.
  apply bind_Ret in H as (c0 & w0 & Hc0 & H).
  apply the_challenger_Ret in Hc0 as (Hc0 & _ & ->). cbn [fst] in Hc0.
  rewrite Hc in Hc0. injection Hc0 as <-.
  apply bind_Ret in H as (ch0 & w0 & [Hch0 ->]%player_at_Ret & H).
  cbn [fst] in Hch0. rewrite Hch in Hch0. injection Hch0 as <-.
  apply bind_Ret in H as (g0 & w0 & [-> ->]%get_game_Ret & H). cbn [fst] in H.
  apply bind_Ret in H as (u1 & [g1 e1] & Hlose & H).
  destruct (challenger_loses_card_Ret c ch g e u1 (g1, e1) Hch Hhand Hlose)
    as (card & Hin & Hc1 & Hj1 & Hgs1 & Hrn1 & _). cbn [fst] in *.
  apply bind_Ret in H as (ch1 & w0 & [Hch1 ->]%player_at_Ret & H).
  cbn [fst] in Hch1. rewrite Hc1 in Hch1. injection Hch1 as <-.
  apply bind_Ret in H as (u2 & [g2 e2] & Helim & H).
  assert (players g2 = players g1 ∧ round_number g2 = round_number g1 ∧
          eliminations (game_stats g2)
            = eliminations (game_stats g1)
              + (if is_eliminated (snd (lose_chosen_card card ch))
                 then 1 else 0)) as (Hp2 & Hrn2 & He2).
  { destruct (is_eliminated _).
    - apply bind_Ret in Helim as (u3 & w3 & ->%modify_Ret & Helim).
      apply modify_Ret in Helim. injection Helim as -> _. simpl.
      split_and!; [done | done | lia].
    - apply ret_Ret in Helim as [_ [= <- _]]. split_and!; [done | done | lia]. }
  apply bind_Ret in H as (u3 & w3 & ->%modify_Ret & H).
  apply modify_Ret in H. injection H as -> _. cbn [fst].
  assert (∀ j p, players g1 !! j = Some p →
            players (start_new_round (retrieve_all g2)) !! j
              = Some (reset_for_new_round (retrieve_cards p))) as Hfinal.
  { intros j p Hp. rewrite start_new_round_players. simpl.
    by rewrite !list_lookup_fmap, Hp2, Hp. }
  exists card. split; [done|]. split; [by apply Hfinal|]. split_and!.
  - intros j p Hj Hp. apply Hfinal. by rewrite Hj1.
  - intros ch'. rewrite (Hfinal c _ Hc1). intros [= <-].
    assert (lose_chosen_card card ch = lose_card card ch) as Heq.
    { unfold lose_chosen_card. by rewrite bool_decide_eq_true_2. }
    rewrite Heq in *.
    destruct (lose_card_fields card ch Hin)
      as (l1 & l2 & Hh & _ & _ & Hhand' & Hpl' & Hst' & Hel' & _).
    simpl. rewrite Hhand', Hpl', Hst', Hel', Hh, !length_app. simpl.
    split_and!; [done | done | lia | done |].
    rewrite start_new_round_eliminations. simpl. rewrite He2, Hgs1.
    by rewrite Hel', Hh, !length_app.
  - rewrite start_new_round_round_number. simpl. lia.
Qed.

(** Ann has put down her four cards, the skull last, and has turned it over
    as the challenger: she loses the skull, the only card of her hand, and is
    eliminated with her three roses back in hand. *)
Lemma failed_challenge_costs_one_card_witness :
  let ann4 := bump (reveal_top (mkCard 3 SKULL)
                      [mkCard 0 ROSE; mkCard 1 ROSE; mkCard 2 ROSE]
                      (plays [0; 0; 0; 0] ann)) in
  let g := set_skull_revealer (Some 0)
             (sample_game [ann4; plays [0; 0; 0; 0] bob] 1 CHALLENGE 1 (Some 0)) in
  ∃ g' e' ch',
    handle_failed_challenge (g, sample_env [Line (Tint 1)]) = Ret tt (g', e') ∧
    players g' !! 0 = Some ch' ∧
    is_eliminated ch' = true ∧ length (hand ch') = 3 ∧
    cards_lost (stats ch') = 1.
Proof.
  intros ann4 g.
  destruct (handle_failed_challenge (g, sample_env [Line (Tint 1)]))
    as [[] [g' e']| |] eqn:Hrun; [|vm_compute in Hrun; discriminate..].
  destruct (failed_challenge_costs_one_card g _ 0 ann4 g' e' eq_refl eq_refl
              ltac:(done) Hrun) as (card & _ & Hc & _ & Hfacts & _).
  eexists g', e', _. split; [done|]. split; [exact Hc|].
  destruct (Hfacts _ Hc) as (Hlost & _ & Hlen & Hel & _).
  split; [by rewrite Hel|]. split; [|by rewrite Hlost].
  change (length (hand ann4) + length (played_cards ann4)) with 4 in Hlen.
  lia.
Defined.

(** The same from the start: Ann and Bob each put down all four cards, Ann
    opens the bidding, Bob passes, and Ann turns over her skull.  After ten
    turns the game is over; Ann is eliminated holding three roses and Bob
    is named the winner by elimination. *)
Example full_hand_eliminated_runs :
  ∃ g0 e0 g e,
    InteractiveSkullGame_init [ann; bob]
      (mkEnv [Line (Tint 1); Line Tp; Line (Tint 1); Line Tp; Line (Tint 1);
              Line Tp; Line (Tint 1); Line (Tint 1)] (λ _, 99) 0) = Ret g0 e0 ∧
    turns 10 (g0, e0) = Ret tt (g, e) ∧
    reachable (g, e) ∧
    game_state g = GAME_OVER ∧
    (λ p, (name p, is_eliminated p, length (hand p)))
      <$> players g = [("Ann"%string, true, 3); ("Bob"%string, false, 4)] ∧
    winner_line (print_final_results g) = Some ("Bob"%string, false).
Proof.
  pose (env0 := mkEnv [Line (Tint 1); Line Tp; Line (Tint 1); Line Tp;
                       Line (Tint 1); Line Tp; Line (Tint 1); Line (Tint 1)]
                      (λ _, 99) 0).
  let r := eval vm_compute in (InteractiveSkullGame_init [ann; bob] env0) in
  lazymatch r with
  | Ret ?g0 ?e0 =>
      let r' := eval vm_compute in (turns 10 (g0, e0)) in
      lazymatch r' with
      | Ret _ (?g, ?e) =>
          assert (InteractiveSkullGame_init [ann; bob] env0 = Ret g0 e0)
            as Hinit by (vm_compute; reflexivity);
          assert (turns 10 (g0, e0) = Ret tt (g, e))
            as Hturns by (vm_compute; reflexivity);
          exists g0, e0, g, e
      end
  end.
  split; [exact Hinit|]. split; [exact Hturns|].
  split; [|vm_compute; repeat split].
  eapply reachable_turns; [|exact Hturns].
  eapply reach_new; [|exact Hinit].
  repeat constructor; by eexists _, _, _, _.
Qed.

(** ** The initial placement *)

(** What the loop of [initial_card_placement] does to one player: it
    eliminates a player whose hand is empty and has every other player put
    down one card of the hand. *)
Definition placed (p p' : Player) : Prop :=
  (hand p = [] ∧ p' = set_is_eliminated true p) ∨
  (∃ c, c ∈ hand p ∧ p' = snd (play_card c p)).

Lemma initial_apply_Ret (i : nat) (player p : Player) (c : Card)
    (w w' : World) (b : bool) :
  players (fst w) !! i = Some p →
  initial_apply i player c w = Ret b w' →
  b = false ∧ players (fst w') !! i = Some (snd (play_card c p)) ∧
  (∀ j, j ≠ i → players (fst w') !! j = players (fst w) !! j) ∧
  game_state (fst w') = game_state (fst w).
Proof.
  intros Hp H. unfold initial_apply in H.
  apply bind_Ret in H as (u1 & w1 & ->%modify_Ret & H).
  apply bind_Ret in H as (u2 & w2 & ->%modify_Ret & H).
  apply ret_Ret in H as [<- <-]. cbn [fst].
  destruct (upd_lookup i (λ p, snd (play_card c p)) (fst w) p Hp) as [Hi Hj].
  by split_and!.
Qed.

Lemma has_cards_to_play_false (p : Player) :
  has_cards_to_play p = false → hand p = [].
Proof.
  unfold has_cards_to_play. intros H%bool_decide_eq_false.
  destruct (hand p); [done|]. simpl in H. lia.
Qed.

Lemma initial_place_one_false (i : nat) (p : Player) (w w' : World) :
  players (fst w) !! i = Some p →
  initial_place_one i w = Ret false w' →
  (∃ p', players (fst w') !! i = Some p' ∧ placed p p') ∧
  (∀ j, j ≠ i → players (fst w') !! j = players (fst w) !! j) ∧
  game_state (fst w') = game_state (fst w).
Proof.
  intros Hp H. unfold initial_place_one in H.
  apply bind_Ret in H as (p0 & w1 & [Hp0 ->]%player_at_Ret & H).
  rewrite Hp in Hp0. injection Hp0 as <-.
  destruct (has_cards_to_play p) eqn:Hhas; cbn [negb] in H.
  2:{ apply has_cards_to_play_false in Hhas.
      apply bind_Ret in H as (u1 & w1 & ->%modify_Ret & H).
      apply bind_Ret in H as (u2 & w2 & ->%modify_Ret & H).
      apply ret_Ret in H as [_ <-]. cbn [fst].
      destruct (upd_lookup i (set_is_eliminated true) (log (LNoCardsEliminated (name p)) (fst w)) p Hp)
        as [Hi Hj].
      split_and!; [|done|done]. eexists. split; [exact Hi|]. by left. }
  apply bind_Ret in H as (g & w1 & [-> ->]%get_game_Ret & H).
  assert (hand p ≠ []) as Hne.
  { intros Hnil. unfold has_cards_to_play in Hhas. by rewrite Hnil in Hhas. }
  assert (Hplace : ∀ c w0 e0,
            c ∈ hand p → w0 = (fst w, e0) →
            initial_apply i p c w0 = Ret false w' →
            (∃ p', players (fst w') !! i = Some p' ∧ placed p p') ∧
            (∀ j, j ≠ i → players (fst w') !! j = players (fst w) !! j) ∧
            game_state (fst w') = game_state (fst w)).
  { intros c w0 e0 Hc -> H0.
    destruct (initial_apply_Ret i p p c (fst w, e0) w' false Hp H0)
      as (_ & Hi & Hj & Hst).
    split_and!; [|done|done]. eexists. split; [exact Hi|]. right. eauto. }
  destruct (cls p) as [| |strategy] eqn:Hcls.
  - destruct (is_ai p); [done|].
    destruct (hand p) as [|c0 h0] eqn:Hh; [done|].
    apply bind_Ret in H as (c & w1 & (e1 & Hc & ->)%lift_Ret & H).
    destruct (choice_elem c0 (c0 :: h0) (snd w)) as (x & Hx & Hrun); [done|].
    rewrite Hrun in Hc. injection Hc as <- <-.
    eapply Hplace; [|reflexivity|exact H]. by rewrite ?Hh.
  - apply bind_Ret in H as (card & w1 & (e1 & Hc & ->)%lift_Ret & H).
    destruct card as [c|].
    + eapply Hplace; [|reflexivity|exact H].
      unfold human_choose_card_to_play in Hc.
      destruct (hand p) as [|c0 h0] eqn:Hh; [done|]. rewrite <- Hh in *.
      destruct (human_card_prompt (hand p) (stdin (snd w)))
        as [[o rest]|] eqn:E; [|done].
      injection Hc as -> _. by eapply human_card_prompt_in_hand.
    + apply bind_Ret in H as (? & ? & _ & H). by apply ret_Ret in H as [? _].
  - destruct (is_ai p).
    + apply bind_Ret in H as (card & w1 & (e1 & Hc & ->)%lift_Ret & H).
      destruct card as [c|].
      * eapply Hplace; [|reflexivity|exact H].
        by eapply ai_choose_card_in_hand.
      * unfold ai_choose_card_to_play in Hc.
        destruct (hand p) as [|c0 h0] eqn:Hh; [done|].
        unfold bind in Hc. rewrite random_lt_run in Hc.
        repeat (destruct (_ && _) || destruct (bool_decide _));
          rewrite choice_run in Hc; done.
    + destruct (hand p) as [|c0 h0] eqn:Hh; [done|].
      apply bind_Ret in H as (c & w1 & (e1 & Hc & ->)%lift_Ret & H).
      destruct (choice_elem c0 (c0 :: h0) (snd w)) as (x & Hx & Hrun); [done|].
      rewrite Hrun in Hc. injection Hc as <- <-.
      eapply Hplace; [|reflexivity|exact H]. by rewrite ?Hh.
Qed.

Lemma initial_loop_false (active : list nat) (w w' : World) :
  NoDup active →
  initial_loop active w = Ret false w' →
  game_state (fst w') = game_state (fst w) ∧
  ∀ i p, players (fst w) !! i = Some p →
         ∃ p', players (fst w') !! i = Some p' ∧
               (i ∉ active → p' = p) ∧ (i ∈ active → placed p p').
Proof.
  revert w. induction active as [|i active IH]; intros w Hnd H; simpl in H.
  - apply ret_Ret in H as [_ <-]. split; [done|]. intros i p Hp.
    exists p. split; [done|]. split; [done|]. by intros ?%elem_of_nil.
  - apply NoDup_cons in Hnd as [Hi Hnd].
    apply bind_Ret in H as (b & w1 & H1 & H). destruct b.
    { by apply ret_Ret in H as [? _]. }
    destruct (IH w1 Hnd H) as [Hst Hrest]. split.
    + rewrite Hst.
      destruct (players (fst w) !! i) as [p|] eqn:Hp.
      * by destruct (initial_place_one_false i p w w1 Hp H1) as (_ & _ & ?).
      * unfold initial_place_one, bind, player_at in H1. by rewrite Hp in H1.
    + intros j p Hp. destruct (decide (j = i)) as [->|Hne].
      * destruct (initial_place_one_false i p w w1 Hp H1)
          as ((p1 & Hp1 & Hpl) & _ & _).
        destruct (Hrest i p1 Hp1) as (p' & Hp' & Hsame & _).
        exists p'. split; [done|]. split.
        -- intros Hnot. exfalso. apply Hnot. by left.
        -- intros _. by rewrite (Hsame Hi).
      * assert (players (fst w1) !! j = Some p) as Hp1.
        { destruct (players (fst w) !! i) as [q|] eqn:Hq.
          - destruct (initial_place_one_false i q w w1 Hq H1) as (_ & Hj & _).
            by rewrite Hj.
          - unfold initial_place_one, bind, player_at in H1.
            by rewrite Hq in H1. }
        destruct (Hrest j p Hp1) as (p' & Hp' & Hsame & Hin).
        exists p'. split; [done|]. split.
        -- intros Hnot. apply Hsame. intros Hc. apply Hnot. by right.
        -- intros [?|Hc]%elem_of_cons; [done | by apply Hin].
Qed.

Lemma initial_card_placement_Ret (g : Game) (e : Env) (u : unit) (w' : World) :
  initial_card_placement (g, e) = Ret u w' →
  game_state (fst w') = GAME_OVER ∨
  (game_state (fst w') = CARD_PLACEMENT ∧
   2 ≤ length (get_active_players (fst w')) ∧
   ∀ i p, players g !! i = Some p →
          ∃ p', players (fst w') !! i = Some p' ∧
                (is_eliminated p = true → p' = p) ∧
                (is_eliminated p = false → placed p p')).
Proof.
  intros H. unfold initial_card_placement in H.
  apply bind_Ret in H as (u1 & w1 & ->%modify_Ret & H).
  apply bind_Ret in H as (g1 & w1 & [-> ->]%get_game_Ret & H).
  cbn [fst snd] in H.
  change (get_active_players (log LInitialPlacementPhase g))
    with (get_active_players g) in H.
  case_bool_decide as Hact.
  { apply bind_Ret in H as (u2 & w2 & ->%modify_Ret & H).
    apply modify_Ret in H as ->. by left. }
  apply bind_Ret in H as (returned & w2 & Hloop & H).
  destruct returned.
  { apply ret_Ret in H as [_ ->]. left. by apply initial_loop_true in Hloop. }
  apply bind_Ret in H as (g2 & w3 & [-> ->]%get_game_Ret & H).
  case_bool_decide as Hact2.
  { apply bind_Ret in H as (u2 & w3 & ->%modify_Ret & H).
    apply modify_Ret in H as ->. by left. }
  apply bind_Ret in H as (u2 & w3 & ->%modify_Ret & H).
  apply modify_Ret in H as ->. cbn [fst]. right. split; [done|].
  split; [change (get_active_players _) with (get_active_players (fst w2)); lia|].
  assert (NoDup (get_active_players g)) as Hnd.
  { apply NoDup_filter, NoDup_seq. }
  destruct (initial_loop_false _ _ _ Hnd Hloop) as [_ Hall].
  intros i p Hp. destruct (Hall i p Hp) as (p' & Hp' & Hout & Hin).
  exists p'. split; [done|].
  assert (i ∈ get_active_players g ↔ is_eliminated p = false) as Hiff.
  { rewrite get_active_players_eq, active_indices_elem. split.
    - intros (q & Hq & He). rewrite Hp in Hq. by injection Hq as <-.
    - intros He. eauto. }
  split.
  - intros He. apply Hout. rewrite Hiff. congruence.
  - intros He. by apply Hin, Hiff.
Qed.

(** When [initial_card_placement] leaves the game in the card placement
    phase, every player who was not eliminated and held a card has put
    down exactly one card of the hand, a player who was not eliminated and
    held none is now eliminated, and an eliminated player is untouched; at
    least two players are still active.  In every other case it leaves the
    game over.  With fewer than two active players to begin with the game
    is over at once and nobody is asked. *)
Theorem initial_placement_places_one_card_each (g : Game) (e : Env) :
  (length (get_active_players g) < 2 →
   initial_card_placement (g, e)
     = Ret tt (set_game_state GAME_OVER
                 (log LNotEnoughActive (log LInitialPlacementPhase g)), e)) ∧
  (∀ g' e',
     initial_card_placement (g, e) = Ret tt (g', e') →
     game_state g' = GAME_OVER ∨
     (game_state g' = CARD_PLACEMENT ∧
      2 ≤ length (get_active_players g') ∧
      ∀ i p, players g !! i = Some p →
             ∃ p', players g' !! i = Some p' ∧
                   (is_eliminated p = true → p' = p) ∧
                   (is_eliminated p = false → placed p p') ∧
                   (is_eliminated p = false → hand p ≠ [] →
                    length (hand p') + 1 = length (hand p) ∧
                    length (played_cards p') = length (played_cards p) + 1))).
Proof.
  split.
  - intros Hlt. unfold initial_card_placement, bind, modify, get_game.
    cbn [fst snd].
    change (get_active_players (log LInitialPlacementPhase g))
      with (get_active_players g).
    by rewrite bool_decide_eq_true_2.
  - intros g' e' H.
    destruct (initial_card_placement_Ret g e tt (g', e') H)
      as [Hover | (Hst & Hact & Hall)]; [by left|].
    right. split; [done|]. split; [done|]. intros i p Hp.
    destruct (Hall i p Hp) as (p' & Hp' & Hel & Hpl).
    exists p'. split_and!; try done.
    intros He Hhand. destruct (Hpl He) as [[Hnil _]|(c & Hc & ->)]; [done|].
    unfold play_card. rewrite bool_decide_eq_true_2 by done.
    destruct (remove_first_Some _ _ Hc) as (l1 & l2 & Hh & _ & ->).
    rewrite Hh. destruct (is_skull c); simpl; rewrite !length_app; simpl; lia.
Qed.

(** Ann types 1 and the two programmed players draw: each of the three has
    one card down. *)
Example initial_placement_runs :
  ∃ g' e',
    initial_card_placement
      (sample_game [ann; bob; cat] 0 INITIAL_PLACEMENT 0 None,
       sample_env [Line (Tint 1)]) = Ret tt (g', e') ∧
    game_state g' = CARD_PLACEMENT ∧
    (λ p, (length (hand p), length (played_cards p))) <$> players g'
      = [(3, 1); (3, 1); (3, 1)].
Proof. eexists _, _. vm_compute. repeat split. Qed.

(** ** The phases of a round *)

(** [follows s s']: a turn taken in phase [s] can leave the game in phase
    [s']. *)
Definition follows (s s' : GameState) : Prop :=
  match s with
  | INITIAL_PLACEMENT => s' = CARD_PLACEMENT ∨ s' = GAME_OVER
  | CARD_PLACEMENT => s' = CARD_PLACEMENT ∨ s' = BIDDING ∨ s' = GAME_OVER
  | BIDDING => s' = BIDDING ∨ s' = CHALLENGE ∨ s' = GAME_OVER
  | CHALLENGE => s' = INITIAL_PLACEMENT ∨ s' = GAME_OVER
  | GAME_OVER => s' = GAME_OVER
  end.

(** A round begins clean: nothing on the table, nobody has passed, no bid,
    no challenger and no skull revealer. *)
Definition clean (g : Game) : Prop :=
  Forall (λ p, played_cards p = [] ∧ has_passed p = false) (players g) ∧
  current_bid g = 0%Z ∧ challenger g = None ∧ skull_revealer g = None.

Lemma start_new_round_clean (g1 : Game) :
  game_state (start_new_round (retrieve_all g1)) = GAME_OVER ∨
  (game_state (start_new_round (retrieve_all g1)) = INITIAL_PLACEMENT ∧
   clean (start_new_round (retrieve_all g1))).
Proof.
  assert (Forall (λ p, played_cards p = [] ∧ has_passed p = false)
                 (players (start_new_round (retrieve_all g1)))) as Hpl.
  { rewrite start_new_round_players. simpl.
    apply Forall_fmap, Forall_fmap, Forall_true. by intros p. }
  revert Hpl. unfold start_new_round; cbv zeta. case_bool_decide.
  - intros _. left. by destruct (get_active_players _).
  - intros Hpl. right. by split.
Qed.

Lemma challenge_phase_Ret (g : Game) (e : Env) (b : bool) (w' : World) :
  game_state g = CHALLENGE →
  challenge_phase (g, e) = Ret b w' →
  game_state (fst w') = GAME_OVER ∨
  ∃ g1, fst w' = start_new_round (retrieve_all g1).
Proof.
  intros Hst H. unfold challenge_phase in H.
  apply bind_Ret in H as (g0 & w0 & [-> ->]%get_game_Ret & H).
  cbn [fst] in H. rewrite bool_decide_eq_true_2 in H by done. cbn [negb] in H.
  apply bind_Ret in H as (c & w0 & (_ & _ & ->)%the_challenger_Ret & H).
  apply bind_Ret in H as (ch & w0 & [_ ->]%player_at_Ret & H).
  apply bind_Ret in H as (u1 & w1 & ->%modify_Ret & H).
  apply bind_Ret in H as (u2 & w2 & ->%modify_Ret & H).
  apply bind_Ret in H as (g2 & w3 & [-> ->]%get_game_Ret & H).
  apply bind_Ret in H as ([[tr en] g3] & w3 & _ & H).
  apply bind_Ret in H as (u3 & w4 & ->%modify_Ret & H).
  destruct en as [m| |x]; [| |done].
  - apply bind_Ret in H as (u4 & w5 & ->%modify_Ret & H).
    apply bind_Ret in H as (u5 & w6 & ->%modify_Ret & H).
    apply bind_Ret in H as (u6 & w7 & ->%modify_Ret & H).
    apply bind_Ret in H as (u7 & w8 & Hh & H).
    apply ret_Ret in H as [_ ->].
    apply handle_successful_challenge_resets in Hh as (c' & ch' & _ & _ & Hh).
    destruct (bool_decide _); [by left | by right].
  - apply bind_Ret in H as (u4 & w5 & Hh & H).
    apply ret_Ret in H as [_ ->].
    apply handle_failed_challenge_resets in Hh. by right.
Qed.

Lemma bidding_apply_state (new_bid : option Z) (g : Game) :
  game_state g = BIDDING →
  game_state (bidding_apply new_bid g) = BIDDING ∨
  game_state (bidding_apply new_bid g) = CHALLENGE.
Proof.
  intros Hst. unfold bidding_apply; cbv zeta.
  set (g1 := match new_bid with
             | Some b => _
             | None => _
             end).
  assert (game_state g1 = BIDDING) as Hst1.
  { unfold g1. by destruct new_bid. }
  destruct (active_bidders g1) as [|c [|c' l]]; [by left | by right | by left].
Qed.

Definition placing_states (g : Game) : Prop :=
  game_state g = CARD_PLACEMENT ∨ game_state g = BIDDING ∨
  game_state g = GAME_OVER.

Local Ltac states_side :=
  intros; unfold placing_states in *;
  rewrite ?start_bidding_phase_state; simpl; tauto.

Lemma card_placement_phase_states :
  keeps placing_states card_placement_phase (λ _, True).
Proof.
  unfold card_placement_phase, placement_apply.
  repeat keeps_step; repeat keeps_step; try states_side.
Qed.

Lemma finish_follows (s : GameState) (w1 : World) :
  follows s (game_state (fst w1)) →
  follows s GAME_OVER →
  follows s (game_state
               (fst (if someone_won (fst w1)
                     then set_world_state GAME_OVER w1 else w1))).
Proof. intros H1 H2. by destruct (someone_won _). Qed.

Lemma play_turn_follows (w : World) (b : bool) (w' : World) :
  play_turn w = Ret b w' →
  follows (game_state (fst w)) (game_state (fst w')).
Proof.
  unfold play_turn. case_bool_decide as Hover.
  { intros [= _ <-]. by rewrite Hover. }
  destruct w as [g e]. cbn [fst] in *.
  assert (follows (game_state g) GAME_OVER) as Hgo.
  { destruct (game_state g); simpl; tauto. }
  assert (∀ (m : M World unit),
            (∀ u w1, m (g, e) = Ret u w1 →
                     follows (game_state g) (game_state (fst w1))) →
            match m (g, e) with
            | Raise KeyboardInterrupt w'0 =>
                Ret false (set_world_state GAME_OVER w'0)
            | Raise e0 w'0 => Raise e0 w'0
            | Blocked => Blocked
            | Ret _ w'0 =>
                if someone_won (fst w'0)
                then Ret false (set_world_state GAME_OVER w'0)
                else Ret (negb (bool_decide (game_state (fst w'0) = GAME_OVER)))
                         w'0
            end = Ret b w' →
            follows (game_state g) (game_state (fst w'))) as Hgen.
  { intros m Hm. destruct (m (g, e)) as [u w1|x w1|]; [| |done].
    - specialize (Hm u w1 eq_refl).
      destruct (someone_won (fst w1)); by intros [= _ <-].
    - destruct x; try done. by intros [= _ <-]. }
  apply Hgen. intros u w1.
  destruct (game_state g) eqn:Hst; cbn [run_phase].
  - intros H. destruct (initial_card_placement_Ret g e u w1 H)
      as [Hs | (Hs & _)]; simpl; tauto.
  - intros H. apply bind_Ret in H as (b1 & w2 & H & [_ <-]%ret_Ret).
    pose proof (card_placement_phase_states (g, e)) as Hk.
    rewrite H in Hk. destruct Hk as [Hk _]; [left; exact Hst|].
    exact Hk.
  - intros H. apply bind_Ret in H as (b1 & w2 & H & [_ <-]%ret_Ret).
    apply bidding_phase_cases in H
      as [[_ ->] | (_ & p & _ & [[_ ->] | (_ & nb & e' & _ & ->)])];
      cbn [fst]; simpl; rewrite ?Hst; try tauto.
    destruct (bidding_apply_state nb g Hst) as [-> | ->]; tauto.
  - intros H. apply bind_Ret in H as (b1 & w2 & H & [_ <-]%ret_Ret).
    destruct (challenge_phase_Ret g e b1 w2 Hst H) as [Hs | [g1 Hg1]].
    + by right.
    + rewrite Hg1. destruct (start_new_round_clean g1) as [Hs | [Hs _]];
        [by right | by left].
  - done.
Qed.

(** The phases follow one another in one order only.  A turn that returns
    takes the initial placement to the card placement, the card placement
    to itself or to the bidding, the bidding to itself or to the challenge
    and the challenge to the initial placement of the next round; from
    every phase it can also end the game, and a game that is over stays
    over. *)
Theorem phases_follow_in_order (w : World) (b : bool) (w' : World) :
  play_turn w = Ret b w' →
  match game_state (fst w) with
  | INITIAL_PLACEMENT =>
      game_state (fst w') = CARD_PLACEMENT ∨ game_state (fst w') = GAME_OVER
  | CARD_PLACEMENT =>
      game_state (fst w') = CARD_PLACEMENT ∨ game_state (fst w') = BIDDING ∨
      game_state (fst w') = GAME_OVER
  | BIDDING =>
      game_state (fst w') = BIDDING ∨ game_state (fst w') = CHALLENGE ∨
      game_state (fst w') = GAME_OVER
  | CHALLENGE =>
      game_state (fst w') = INITIAL_PLACEMENT ∨
      game_state (fst w') = GAME_OVER
  | GAME_OVER => w' = w
  end.
Proof.
  intros H. pose proof (play_turn_follows w b w' H) as Hf.
  destruct (game_state (fst w)) eqn:Hst; try exact Hf.
  rewrite play_turn_game_over in H by done. by injection H as _ <-.
Qed.

(** Ann opens the bidding on the sample table. *)
Lemma phases_follow_in_order_witness :
  ∃ w', play_turn (sample_game table 0 CARD_PLACEMENT 0 None,
                   sample_env [Line Tb]) = Ret true w' ∧
        (game_state (fst w') = CARD_PLACEMENT ∨ game_state (fst w') = BIDDING ∨
         game_state (fst w') = GAME_OVER).
Proof.
  destruct (play_turn (sample_game table 0 CARD_PLACEMENT 0 None,
                       sample_env [Line Tb])) as [[|] w'| |] eqn:Hrun;
    [|vm_compute in Hrun; discriminate..].
  exists w'. split; [done|].
  exact (phases_follow_in_order _ _ _ Hrun).
Defined.

(** ** The bid and the cards on the table *)

Definition total_of (ps : list Player) : nat :=
  sum_list ((λ p, length (played_cards p))
            <$> filter (λ p, is_eliminated p = false) ps).

Lemma total_of_cons (p : Player) (ps : list Player) :
  total_of (p :: ps)
    = (if is_eliminated p then 0 else length (played_cards p)) + total_of ps.
Proof.
  unfold total_of. rewrite filter_cons.
  destruct (is_eliminated p); by destruct (decide _).
Qed.

Lemma total_of_mono (ps ps' : list Player) :
  Forall2 (λ p p', is_eliminated p' = is_eliminated p ∧
                   length (played_cards p) ≤ length (played_cards p'))
          ps ps' →
  total_of ps ≤ total_of ps'.
Proof.
  induction 1 as [|p p' ps ps' [He Hl] _ IH]; [done|].
  rewrite !total_of_cons, He. destruct (is_eliminated p); lia.
Qed.

Lemma total_of_ge (ps : list Player) (i : nat) (p : Player) :
  ps !! i = Some p → is_eliminated p = false →
  length (played_cards p) ≤ total_of ps.
Proof.
  revert i. induction ps as [|q ps IH]; intros [|i] Hp He; try done;
    rewrite total_of_cons.
  - injection Hp as ->. rewrite He. lia.
  - simpl in Hp. specialize (IH i Hp He). lia.
Qed.

Lemma total_of_alter (f : Player → Player) (i : nat) (ps : list Player) :
  (∀ p, is_eliminated (f p) = is_eliminated p ∧
        length (played_cards p) ≤ length (played_cards (f p))) →
  total_of ps ≤ total_of (alter f i ps).
Proof.
  intros Hf. apply total_of_mono. apply Forall2_alter_r.
  - apply Forall_Forall2_diag, Forall_true. by intros p.
  - intros p p' _ _ [He Hl]. destruct (Hf p') as [He' Hl'].
    split; [congruence | lia].
Qed.

Lemma total_of_alter_same (f : Player → Player) (i : nat) (ps : list Player) :
  (∀ p, is_eliminated (f p) = is_eliminated p ∧
        played_cards (f p) = played_cards p) →
  total_of (alter f i ps) = total_of ps.
Proof.
  intros Hf. apply Nat.le_antisymm.
  - apply total_of_mono. apply Forall2_alter_l.
    + apply Forall_Forall2_diag, Forall_true. by intros p.
    + intros p p' _ _ [He Hl]. destruct (Hf p) as [He' Hl'].
      split; [congruence|]. rewrite Hl'. lia.
  - apply total_of_alter. intros p. destruct (Hf p) as [He Hl].
    split; [done|]. by rewrite Hl.
Qed.

Lemma play_card_stack_grows (c : Card) (p : Player) :
  is_eliminated (snd (play_card c p)) = is_eliminated p ∧
  length (played_cards p) ≤ length (played_cards (snd (play_card c p))).
Proof.
  unfold play_card. case_bool_decide; [|done].
  destruct (remove_first c (hand p)); [|done].
  destruct (is_skull c); simpl; rewrite length_app; simpl; split; (done || lia).
Qed.

(** The invariant of [card_placement_phase]. *)
Definition on_table (g : Game) : Prop :=
  placing_states g ∧ 1 ≤ total_of (players g) ∧
  (game_state g = BIDDING → current_bid g = 1%Z).

Lemma on_table_same (g g' : Game) :
  players g' = players g → game_state g' = game_state g →
  current_bid g' = current_bid g → on_table g → on_table g'.
Proof. unfold on_table, placing_states. by intros -> -> ->. Qed.

Lemma on_table_play (i : nat) (c : Card) (g : Game) :
  on_table g → on_table (upd i (λ p, snd (play_card c p)) g).
Proof.
  intros (Hs & Ht & Hb). split_and!; [done| |done]. simpl.
  etrans; [exact Ht|]. apply total_of_alter. intros p.
  apply play_card_stack_grows.
Qed.

Lemma start_bidding_phase_current_bid (g : Game) :
  current_bid (start_bidding_phase g) = 1%Z.
Proof.
  unfold start_bidding_phase; cbv zeta. by destruct (get_current_player _).
Qed.

Lemma on_table_start_bidding_phase (g : Game) :
  on_table g → on_table (start_bidding_phase g).
Proof.
  intros (Hs & Ht & Hb). unfold on_table, placing_states.
  rewrite start_bidding_phase_state, start_bidding_phase_players,
    start_bidding_phase_current_bid.
  split_and!; [tauto | done | done].
Qed.

Lemma on_table_game_over (g : Game) :
  on_table g → on_table (set_game_state GAME_OVER g).
Proof.
  intros (Hs & Ht & Hb). unfold on_table, placing_states. simpl.
  split_and!; [tauto | done | done].
Qed.

Lemma on_table_log (m : LogMsg) (g : Game) : on_table g → on_table (log m g).
Proof. by apply on_table_same. Qed.

Lemma on_table_next_player (g : Game) : on_table g → on_table (next_player g).
Proof. by apply on_table_same. Qed.

Local Ltac on_table_side :=
  intros;
  repeat lazymatch goal with
  | |- on_table (upd _ _ _) => apply on_table_play
  | |- on_table (log _ _) => apply on_table_log
  | |- on_table (next_player _) => apply on_table_next_player
  | |- on_table (start_bidding_phase _) => apply on_table_start_bidding_phase
  | |- on_table (set_game_state GAME_OVER _) => apply on_table_game_over
  | |- on_table _ => assumption
  end.

Lemma card_placement_phase_on_table :
  keeps on_table card_placement_phase (λ _, True).
Proof.
  unfold card_placement_phase, placement_apply.
  repeat keeps_step; repeat keeps_step; try on_table_side.
Qed.

Lemma initial_card_placement_length (g : Game) (e : Env) (u : unit)
    (w' : World) :
  initial_card_placement (g, e) = Ret u w' →
  length (players (fst w')) = length (players g).
Proof.
  intros H.
  pose proof (frame_initial_card_placement
                (λ g0, Forall2 evolves (players g) (players g0))
                (game_step_evolves (players g)) (g, e)
                (Forall2_evolves_refl _)) as Hk.
  rewrite H in Hk. destruct Hk as [Hk _]. symmetry. by eapply Forall2_length.
Qed.

Lemma initial_card_placement_on_table (g : Game) (e : Env) (u : unit)
    (w' : World) :
  initial_card_placement (g, e) = Ret u w' →
  game_state (fst w') = CARD_PLACEMENT →
  1 ≤ total_of (players (fst w')).
Proof.
  intros H Hst. pose proof (initial_card_placement_length g e u w' H) as Hlen.
  destruct (initial_card_placement_Ret g e u w' H)
    as [Hover | (_ & Hact & Hall)]; [congruence|].
  destruct (get_active_players (fst w')) as [|i rest] eqn:Ha;
    [simpl in Hact; lia|].
  assert (i ∈ active_indices (players (fst w'))) as Hi.
  { rewrite <- get_active_players_eq, Ha. by left. }
  apply active_indices_elem in Hi as (p' & Hp' & He').
  destruct (players g !! i) as [p|] eqn:Hp.
  2:{ apply lookup_ge_None in Hp. apply lookup_lt_Some in Hp'. lia. }
  destruct (Hall i p Hp) as (p1 & Hp1 & Hel & Hpl).
  rewrite Hp' in Hp1. injection Hp1 as <-.
  destruct (is_eliminated p) eqn:He.
  { rewrite (Hel eq_refl) in He'. congruence. }
  destruct (Hpl eq_refl) as [[_ ->] | (c & Hc & ->)]; [done|].
  etrans; [|by eapply total_of_ge].
  unfold play_card. rewrite bool_decide_eq_true_2 by done.
  destruct (remove_first_Some _ _ Hc) as (l1 & l2 & _ & _ & ->).
  destruct (is_skull c); simpl; rewrite length_app; simpl; lia.
Qed.

(** [tidy g]: a round that is beginning is clean, cards lie on the table
    while cards are being placed, and a bid that stands is at least one
    and at most the number of cards on the table. *)
Definition tidy (g : Game) : Prop :=
  (game_state g = INITIAL_PLACEMENT → clean g) ∧
  (game_state g = CARD_PLACEMENT → 1 ≤ total_cards_on_table g) ∧
  (game_state g = BIDDING ∨ game_state g = CHALLENGE →
   (1 ≤ current_bid g ≤ Z.of_nat (total_cards_on_table g))%Z).

Lemma tidy_game_over (g : Game) : game_state g = GAME_OVER → tidy g.
Proof. intros H. unfold tidy. rewrite H. split_and!; intros; try done. by destruct H0. Qed.

Lemma play_turn_tidy (w : World) (b : bool) (w' : World) :
  tidy (fst w) → play_turn w = Ret b w' → tidy (fst w').
Proof.
  intros Ht. unfold play_turn. case_bool_decide as Hover.
  { by intros [= _ <-]. }
  destruct w as [g e]. cbn [fst] in *.
  assert (∀ (m : M World unit),
            (∀ u w1, m (g, e) = Ret u w1 → tidy (fst w1)) →
            match m (g, e) with
            | Raise KeyboardInterrupt w'0 =>
                Ret false (set_world_state GAME_OVER w'0)
            | Raise e0 w'0 => Raise e0 w'0
            | Blocked => Blocked
            | Ret _ w'0 =>
                if someone_won (fst w'0)
                then Ret false (set_world_state GAME_OVER w'0)
                else Ret (negb (bool_decide (game_state (fst w'0) = GAME_OVER)))
                         w'0
            end = Ret b w' → tidy (fst w')) as Hgen.
  { intros m Hm. destruct (m (g, e)) as [u w1|x w1|]; [| |done].
    - specialize (Hm u w1 eq_refl).
      destruct (someone_won (fst w1)); intros [= _ <-]; [|done].
      by apply tidy_game_over.
    - destruct x; try done. intros [= _ <-]. by apply tidy_game_over. }
  apply Hgen. intros u w1. destruct Ht as (Hclean & Hcp & Hbid).
  destruct (game_state g) eqn:Hst; cbn [run_phase].
  - intros H. pose proof (initial_card_placement_on_table g e u w1 H) as Hon.
    destruct (initial_card_placement_Ret g e u w1 H) as [Hs | (Hs & _)].
    + by apply tidy_game_over.
    + unfold tidy. rewrite Hs. split_and!; try done.
      * intros _. by apply Hon.
      * by intros [?|?].
  - intros H. apply bind_Ret in H as (b1 & w2 & H & [_ <-]%ret_Ret).
    pose proof (card_placement_phase_on_table (g, e)) as Hk.
    rewrite H in Hk. destruct Hk as [(Hs & Htot & Hb) _].
    { cbn [fst]. split_and!; [by left | by apply Hcp | intros ?; congruence]. }
    unfold tidy. destruct Hs as [Hs | [Hs | Hs]]; rewrite Hs.
    + split_and!; try done. by intros [?|?].
    + split_and!; try done. intros _. rewrite (Hb Hs).
      unfold total_cards_on_table. fold (total_of (players (fst w2))). lia.
    + split_and!; try done. by intros [?|?].
  - intros H. apply bind_Ret in H as (b1 & w2 & H & [_ <-]%ret_Ret).
    specialize (Hbid (or_introl eq_refl)).
    apply bidding_phase_cases in H
      as [[_ ->] | (_ & p & _ & [[_ ->] | (_ & nb & e' & Hask & ->)])];
      cbn [fst].
    + unfold tidy. rewrite Hst. split_and!; try done.
    + unfold tidy. simpl. rewrite Hst. split_and!; try done.
    + assert (total_cards_on_table (bidding_apply nb g)
              = total_cards_on_table g) as Htot.
      { unfold total_cards_on_table. rewrite bidding_apply_players.
        destruct nb; [done|].
        apply (total_of_alter_same (set_has_passed true)). by intros q. }
      unfold tidy. rewrite Htot, bidding_apply_current_bid.
      destruct (bidding_apply_state nb g Hst) as [-> | ->];
        (split_and!; try done); intros _;
        (destruct nb as [bid|]; [apply ask_bid_legal in Hask; simpl; lia | done]).
  - intros H. apply bind_Ret in H as (b1 & w2 & H & [_ <-]%ret_Ret).
    destruct (challenge_phase_Ret g e b1 w2 Hst H) as [Hs | [g1 Hg1]].
    + by apply tidy_game_over.
    + rewrite Hg1. destruct (start_new_round_clean g1) as [Hs | [Hs Hc]].
      * by apply tidy_game_over.
      * unfold tidy. rewrite Hs. split_and!; try done. by intros [?|?].
  - done.
Qed.

Lemma reachable_tidy (w : World) : reachable w → tidy (fst w).
Proof.
  induction 1 as [ps e g e' Hps Hinit | w b w' _ IH Hturn].
  - unfold InteractiveSkullGame_init in Hinit.
    destruct (_ || _); [done|]. unfold bind, shuffle in Hinit.
    destruct (shuffle_from_returns (length ps - 1) ps e) as (l' & Hl & Hp).
    rewrite Hl in Hinit. injection Hinit as <- _.
    unfold tidy. simpl. split_and!; try done; [|by intros [?|?]].
    intros _. split; [|done]. simpl. rewrite Hp.
    eapply Forall_impl; [exact Hps|]. by intros p (c & nm & ai & fresh & ->).
  - by eapply play_turn_tidy.
Qed.

(** In every game the program can be in, a bid that stands fits the table:
    during the bidding and the challenge [current_bid] is at least 1 and
    at most the number of cards on the table, and during the card
    placement at least one card lies on the table. *)
Theorem reachable_bid_fits_the_table (w : World) :
  reachable w →
  (game_state (fst w) = BIDDING ∨ game_state (fst w) = CHALLENGE →
   (1 ≤ current_bid (fst w) ≤ Z.of_nat (total_cards_on_table (fst w)))%Z) ∧
  (game_state (fst w) = CARD_PLACEMENT → 1 ≤ total_cards_on_table (fst w)).
Proof. intros (_ & Hcp & Hbid)%reachable_tidy. by split. Qed.

Lemma reachable_bid_fits_the_table_witness :
  ∃ g0 e0 w,
    InteractiveSkullGame_init [ann; bob; cat]
      (sample_env [Line (Tint 1); Line Tb; Line Tpass]) = Ret g0 e0 ∧
    turns 6 (g0, e0) = Ret tt w ∧
    game_state (fst w) = CHALLENGE ∧
    (1 ≤ current_bid (fst w) ≤ Z.of_nat (total_cards_on_table (fst w)))%Z.
Proof.
  destruct a_reachable_challenge as (g0 & e0 & g & e & Hinit & Hturns & Hst & _).
  exists g0, e0, (g, e). split; [exact Hinit|]. split; [exact Hturns|].
  split; [exact Hst|].
  apply (reachable_bid_fits_the_table (g, e)); [|by right].
  by eapply sample_turns_reachable.
Defined.

(** In every game the program can be in, a round begins clean: in the
    initial placement no card lies on any stack, nobody has passed, the
    bid is 0 and neither a challenger nor a skull revealer is set. *)
Theorem reachable_rounds_start_clean (w : World) :
  reachable w → game_state (fst w) = INITIAL_PLACEMENT →
  Forall (λ p, played_cards p = [] ∧ has_passed p = false)
         (players (fst w)) ∧
  current_bid (fst w) = 0%Z ∧ challenger (fst w) = None ∧
  skull_revealer (fst w) = None ∧ total_cards_on_table (fst w) = 0.
Proof.
  intros (Hclean & _)%reachable_tidy Hst.
  destruct (Hclean Hst) as (Hpl & Hb & Hc & Hr). split_and!; try done.
  unfold total_cards_on_table. induction Hpl as [|p ps [Hp _] _ IH]; [done|].
  rewrite filter_cons. destruct (decide _); [|done].
  simpl. rewrite Hp. simpl. exact IH.
Qed.

(** The sample game after seven turns: Cat has lost the first challenge and
    the second round begins with nothing on the table. *)
Lemma reachable_rounds_start_clean_witness :
  ∃ g0 e0 w,
    InteractiveSkullGame_init [ann; bob; cat]
      (sample_env [Line (Tint 1); Line Tb; Line Tpass]) = Ret g0 e0 ∧
    turns 7 (g0, e0) = Ret tt w ∧
    round_number (fst w) = 2 ∧ total_cards_on_table (fst w) = 0.
Proof.
  pose (env0 := sample_env [Line (Tint 1); Line Tb; Line Tpass]).
  let r := eval vm_compute in (InteractiveSkullGame_init [ann; bob; cat] env0) in
  lazymatch r with
  | Ret ?g0 ?e0 =>
      let r' := eval vm_compute in (turns 7 (g0, e0)) in
      lazymatch r' with
      | Ret _ ?w =>
          assert (InteractiveSkullGame_init [ann; bob; cat] env0 = Ret g0 e0)
            as Hinit by (vm_compute; reflexivity);
          assert (turns 7 (g0, e0) = Ret tt w)
            as Hturns by (vm_compute; reflexivity);
          exists g0, e0, w
      end
  end.
  split; [exact Hinit|]. split; [exact Hturns|]. split; [reflexivity|].
  eapply reachable_rounds_start_clean; [|reflexivity].
  by eapply sample_turns_reachable.
Defined.

(** ** A successful challenge turns over the whole bid *)

Lemma total_of_reveal (ps : list Player) (t : nat) (tp : Player)
    (card : Card) (rest : list Card) :
  ps !! t = Some tp → played_cards tp = rest ++ [card] →
  is_eliminated tp = false →
  total_of ps = total_of (alter (reveal_top card rest) t ps) + 1.
Proof.
  revert t. induction ps as [|q ps IH]; intros [|t] Ht Hs He; try done.
  - injection Ht as ->. cbn [alter list_alter]. rewrite !total_of_cons.
    simpl. rewrite He, Hs, length_app. simpl. lia.
  - cbn [alter list_alter]. rewrite !total_of_cons.
    simpl in Ht. rewrite (IH t Ht Hs He).
    change (list_alter (reveal_top card rest) t ps)
      with (alter (reveal_top card rest) t ps). lia.
Qed.

Lemma total_of_bump (c : nat) (ps : list Player) :
  total_of (alter (λ p, set_stats (incr_challenges_lost (stats p)) p) c ps)
    = total_of ps.
Proof. apply total_of_alter_same. by intros p. Qed.

Lemma total_of_zero (ps : list Player) :
  (∀ i p, ps !! i = Some p → is_eliminated p = false → played_cards p = []) →
  total_of ps = 0.
Proof.
  induction ps as [|q ps IH]; intros H; [done|].
  rewrite total_of_cons, IH.
  - destruct (is_eliminated q) eqn:He; [done|].
    by rewrite (H 0 q eq_refl He).
  - intros i p Hp. by apply (H (S i)).
Qed.

(** What the first revealing loop leaves: the count of the cards on the
    table, the other players, and a challenger with an empty stack when
    cards are still to be revealed. *)
Lemma reveal_own_count (c n : nat) :
  ∀ (g : Game) (ch : Player),
    players g !! c = Some ch → is_eliminated ch = false →
    total_of (players g)
      = total_of (players (reveal_own c n g).2) + length (reveal_own c n g).1.1 ∧
    (∀ o, o ≠ c → players (reveal_own c n g).2 !! o = players g !! o) ∧
    (∃ ch', players (reveal_own c n g).2 !! c = Some ch' ∧
            is_eliminated ch' = false ∧
            ∀ m, (reveal_own c n g).1.2 = Pending m →
                 m + length (reveal_own c n g).1.1 = n ∧
                 (m = 0 ∨ played_cards ch' = [])).
Proof.
  induction n as [|n IH]; intros g ch Hch He; simpl.
  { split; [lia|]. split; [done|]. exists ch. split; [done|]. split; [done|].
    intros m [= <-]. by split; [|left]. }
  rewrite Hch.
  destruct (pop (played_cards ch)) as [[card rest]|] eqn:Hpop.
  2:{ apply pop_None in Hpop. simpl. split; [lia|]. split; [done|].
      exists ch. split; [done|]. split; [done|].
      intros m [= <-]. split; [simpl; lia | by right]. }
  apply pop_Some in Hpop.
  pose proof (total_of_reveal (players g) c ch card rest Hch Hpop He) as Htot.
  assert (alter (reveal_top card rest) c (players g) !! c
          = Some (reveal_top card rest ch)) as Hc1.
  { by rewrite list_lookup_alter_eq, Hch. }
  destruct (negb _).
  { simpl. split; [lia|]. split.
    - intros o Ho. by rewrite list_lookup_alter_ne.
    - eexists. split; [exact Hc1|]. by split. }
  destruct (is_skull card).
  - simpl. rewrite total_of_bump. split; [lia|]. split.
    + intros o Ho. by rewrite !list_lookup_alter_ne.
    + eexists. rewrite list_lookup_alter_eq, Hc1. split; [done|]. by split.
  - set (g2 := log (LRevealed (card_type card))
                   (upd c (reveal_top card rest) g)).
    destruct (IH g2 (reveal_top card rest ch) Hc1 He)
      as (Ht2 & Ho2 & ch' & Hch' & He' & Hm2).
    destruct (reveal_own c n g2) as [[tr en] g'] eqn:Hrun. simpl in *.
    split; [lia|]. split.
    + intros o Ho. rewrite (Ho2 o Ho). by rewrite list_lookup_alter_ne.
    + exists ch'. split; [done|]. split; [done|].
      intros m Hm. destruct (Hm2 m Hm) as [Hlen Hempty]. split; [lia | done].
Qed.

(** The list of the second loop holds every active player other than the
    challenger who has a card on the stack. *)
Definition others_full (c : nat) (others : list nat) (ps : list Player)
    : Prop :=
  ∀ o p, o ≠ c → ps !! o = Some p → is_eliminated p = false →
         played_cards p ≠ [] → o ∈ others.

Lemma other_players_full (c : nat) (g : Game) :
  others_full c (other_players c g) (players g).
Proof.
  intros o p Hne Hp He Hpl. unfold other_players.
  apply list_elem_of_filter. split.
  - split; [done|]. unfold has_played_at. rewrite Hp.
    by apply bool_decide_eq_true.
  - rewrite get_active_players_eq. apply active_indices_elem. eauto.
Qed.

Lemma remove_player_other (t o : nat) (l : list nat) :
  o ≠ t → o ∈ l → o ∈ remove_player t l.
Proof.
  intros Hne. induction l as [|i l IH]; simpl; [done|].
  intros [->|Hin]%elem_of_cons.
  - rewrite decide_False by done. by left.
  - destruct (decide (i = t)); [done|]. right. by apply IH.
Qed.

Lemma reveal_others_count (c n : nat) :
  ∀ (others : list nat) (g : Game) (e : Env),
    others_ok c others (players g) → others_full c others (players g) →
    match reveal_others c n others g e with
    | Ret (tr, en, g') _ =>
        total_of (players g) = total_of (players g') + length tr ∧
        (∀ p, players g !! c = Some p →
              ∃ p', players g' !! c = Some p' ∧
                    played_cards p' = played_cards p ∧
                    is_eliminated p' = is_eliminated p) ∧
        ∀ m, en = Pending m →
             m + length tr = n ∧
             (m = 0 ∨
              ∀ o p, o ≠ c → players g' !! o = Some p →
                     is_eliminated p = false → played_cards p = [])
    | _ => True
    end.
Proof.
  induction n as [|n IH]; intros others g e Hok Hfull.
  { simpl. split; [lia|]. split; [eauto|]. intros m [= <-]. by split; [|left]. }
  destruct others as [|o0 others0] eqn:Hothers.
  { simpl. split; [lia|]. split; [eauto|]. intros m [= <-].
    split; [simpl; lia|]. right. intros o p Hne Hp He.
    destruct (played_cards p) eqn:Hpl; [done|]. exfalso.
    assert (o ∈ []) as Hin by (eapply Hfull; [done..|by rewrite Hpl]).
    by apply elem_of_nil in Hin. }
  rewrite <- Hothers in *.
  destruct (random_choice_elem (rng e (rpos e)) others) as (t & Hr & Hin);
    [by rewrite Hothers|].
  destruct Hok as [Hnd Hok]. pose proof (Hok t Hin) as (Htc & tp & Htp & Hpl & He).
  destruct (pop (played_cards tp)) as [[card rest]|] eqn:Hpop;
    [|by apply pop_None in Hpop].
  rewrite (reveal_others_step c n t others g e tp card rest Hr Htp Hpop).
  cbv zeta. apply pop_Some in Hpop.
  pose proof (total_of_reveal (players g) t tp card rest Htp Hpop He) as Htot.
  assert (∀ p, players g !! c = Some p →
               alter (reveal_top card rest) t (players g) !! c = Some p) as Hc1.
  { intros p Hp. by rewrite list_lookup_alter_ne. }
  destruct (is_skull card).
  - simpl. rewrite total_of_bump. split; [lia|]. split; [|done].
    intros p Hp. eexists. rewrite list_lookup_alter_eq, (Hc1 p Hp).
    split; [done|]. by split.
  - set (others' := match rest with
                    | [] => remove_player t others
                    | _ :: _ => others
                    end).
    set (g2 := log _ (upd t (reveal_top card rest) g)).
    assert (others_ok c others' (players g2)) as Hok'.
    { apply others_ok_step. by split. }
    assert (others_full c others' (players g2)) as Hfull'.
    { intros o p Hne Hp Hel Hst. simpl in Hp.
      destruct (decide (o = t)) as [->|Hot].
      - rewrite list_lookup_alter_eq, Htp in Hp. injection Hp as <-.
        simpl in Hst. unfold others'. by destruct rest.
      - rewrite list_lookup_alter_ne in Hp by done.
        pose proof (Hfull o p Hne Hp Hel Hst) as Ho.
        unfold others'. destruct rest; [by apply remove_player_other | done]. }
    specialize (IH others' g2 (mkEnv (stdin e) (rng e) (S (rpos e))) Hok' Hfull').
    destruct (reveal_others c n others' g2 _) as [[[tr en] g'] e'| |];
      [|done|done].
    destruct IH as (Ht2 & Hc2 & Hm2). simpl in Ht2. split; [simpl; lia|].
    split.
    + intros p Hp. apply Hc2. simpl. by apply Hc1.
    + intros m Hm. destruct (Hm2 m Hm) as [Hlen Hempty].
      split; [simpl; lia | done].
Qed.

(** A challenge cannot succeed for want of cards.  For a challenger who is
    not eliminated and passes the card count test, and a bid that is not
    above the number of cards on the table, the revealing loops that end
    without a skull have turned over exactly [current_bid] cards, all
    roses, and the cards left on the table are [current_bid] fewer. *)
Theorem successful_challenge_turns_over_the_bid (g : Game) (e : Env)
    (c : nat) (ch : Player) (tr : list (nat * Card)) (m : nat) (g' : Game)
    (e' : Env) :
  challenger g = Some c → players g !! c = Some ch →
  is_eliminated ch = false →
  length (hand ch) + length (played_cards ch) + challenges_lost (stats ch) = 4 →
  (0 ≤ current_bid g ≤ Z.of_nat (total_cards_on_table g))%Z →
  resolve c g e = Ret (tr, Pending m, g') e' →
  m = 0 ∧ Z.of_nat (length tr) = current_bid g ∧
  Forall (λ x, card_type x.2 = ROSE) tr ∧
  total_cards_on_table g = total_cards_on_table g' + length tr.
Proof.
  intros Hc Hch He Hsum Hbid Hrun.
  destruct (resolve_spec g e c ch Hc Hch Hsum)
    as (own & oth & en & g0 & e0 & Hrun' & _ & _ & _ & _ & _ & _ & Hen).
  rewrite Hrun in Hrun'. injection Hrun' as -> <- <- <-.
  destruct Hen as (Hroses & _ & _).
  unfold resolve in Hrun.
  destruct (reveal_own_count c (Z.to_nat (current_bid g)) g ch Hch He)
    as (Ht1 & Ho1 & ch1 & Hch1 & He1 & Hm1).
  destruct (reveal_own c (Z.to_nat (current_bid g)) g) as [[tr1 en1] g1].
  simpl in *. destruct en1 as [m1| |x]; [|done|done].
  destruct (Hm1 m1 eq_refl) as [Hlen1 Hempty1].
  pose proof (reveal_others_count c m1 (other_players c g1) g1 e
                (other_players_ok c g1) (other_players_full c g1)) as H2.
  unfold bind in Hrun.
  destruct (reveal_others c m1 (other_players c g1) g1 e)
    as [[[tr2 en2] g2] e2| |]; [|done|done].
  injection Hrun as Htr -> -> ->.
  destruct H2 as (Ht2 & Hc2 & Hm2).
  destruct (Hm2 m eq_refl) as [Hlen2 Hempty2].
  assert (length (own ++ oth) = length tr1 + length tr2) as Hlen.
  { by rewrite <- Htr, length_app. }
  unfold total_cards_on_table in *.
  fold (total_of (players g)) in *. fold (total_of (players g')) in *.
  assert (m = 0) as ->.
  { destruct Hempty2 as [->|Hothers]; [done|].
    destruct (decide (m1 = 0)) as [->|Hm1']; [lia|].
    destruct Hempty1 as [->|Hown]; [done|].
    destruct (Hc2 ch1 Hch1) as (ch2 & Hch2 & Hpl2 & Hel2).
    assert (total_of (players g') = 0) as Hzero.
    { apply total_of_zero. intros i p Hp Hel.
      destruct (decide (i = c)) as [->|Hne].
      - rewrite Hch2 in Hp. injection Hp as <-. congruence.
      - by eapply Hothers. }
    lia. }
  split; [done|]. split; [lia|]. split; [done|]. lia.
Qed.

(** On the sample table Ann, bidding 2, turns over her own rose and one
    more card, a rose, and the challenge succeeds. *)
Lemma successful_challenge_turns_over_the_bid_witness :
  let g := sample_game table 0 CHALLENGE 2 (Some 0) in
  ∃ tr g' e', resolve 0 g (sample_env []) = Ret (tr, Pending 0, g') e' ∧
              length tr = 2 ∧ total_cards_on_table g' = 2.
Proof.
  intros g.
  destruct (resolve 0 g (sample_env [])) as [[[tr en] g'] e'| |] eqn:Hrun;
    [|vm_compute in Hrun; discriminate..].
  assert (en = Pending 0) as ->.
  { vm_compute in Hrun. by injection Hrun as _ <- _ _. }
  destruct (successful_challenge_turns_over_the_bid g (sample_env []) 0
              (plays [0] ann)
              tr 0 g' e' eq_refl eq_refl eq_refl eq_refl) as (_ & Hlen & _ & Htot);
    [vm_compute; split; discriminate | exact Hrun |].
  exists tr, g', e'. split; [done|].
  change (current_bid g) with 2%Z in Hlen.
  change (total_cards_on_table g) with 4 in Htot. split; lia.
Defined.

(** ** The sample game of [create_interactive_game] *)

(** Whatever is typed and whatever is drawn, [create_interactive_game]
    gets its game: the constructor accepts the four players and seats them
    in an order drawn with three draws, and the game is played by the
    driver.  However the game ends, the four seats still hold the four
    players of the list and the cards of each add up to four. *)
Theorem create_interactive_game_plays (e : Env) :
  let four :=
    [InteractiveHumanPlayer_init "Human Player" 0;
     SimpleAIPlayer_init "AI Alice" "balanced" 4;
     SimpleAIPlayer_init "AI Bob" "aggressive" 8;
     SimpleAIPlayer_init "AI Charlie" "conservative" 12] in
  ∃ game e',
    InteractiveSkullGame_init four e = Ret game e' ∧
    players game ≡ₚ four ∧ rpos e' = rpos e + 3 ∧ stdin e' = stdin e ∧
    create_interactive_game e = inr (play_interactive_game (game, e')) ∧
    match play_interactive_game (game, e') with
    | Reported _ r w' =>
        r = print_final_results (fst w') ∧ all_conserved (fst w') ∧
        name <$> players (fst w') = name <$> players game
    | GameError _ w' | Interrupted w' =>
        all_conserved (fst w') ∧
        name <$> players (fst w') = name <$> players game
    | Waiting => True
    end.
Proof.
  intros four.
  destruct (shuffle_from_returns 3 four e) as (l' & Hl & Hp).
  assert (InteractiveSkullGame_init four e
          = Ret (mkGame l' 0 INITIAL_PLACEMENT 0%Z None None 1 []
                        (mkGameStats 0 0 0 0))
                (mkEnv (stdin e) (rng e) (rpos e + 3))) as Hinit.
  { unfold InteractiveSkullGame_init. cbn [length four bool_decide orb].
    change (bool_decide (4 < 2) || bool_decide (6 < 4)) with false.
    cbv iota. unfold bind, shuffle.
    change (length four - 1) with 3. by rewrite Hl. }
  eexists _, _. split; [exact Hinit|]. split; [done|]. split; [done|].
  split; [done|]. split.
  { unfold create_interactive_game. fold four. by rewrite Hinit. }
  set (w := (mkGame l' 0 INITIAL_PLACEMENT 0%Z None None 1 []
                    (mkGameStats 0 0 0 0),
             mkEnv (stdin e) (rng e) (rpos e + 3))).
  assert (all_conserved (fst w)) as Hcons.
  { unfold all_conserved. simpl. rewrite Hp. by repeat constructor. }
  pose proof (game_loop_conserved max_turns w Hcons) as Hloop.
  pose proof (game_loop_evolves max_turns w) as Hev.
  assert (∀ w' : World,
            Forall2 evolves (players (fst w)) (players (fst w')) →
                name <$> players (fst w') = name <$> players (fst w)) as Hnames.
  { intros w' H. generalize dependent (players (fst w')).
    generalize (players (fst w)). clear.
    induction 1 as [|p p' ps ps' ((Hn & _) & _) _ IH]; [done|].
    rewrite !fmap_cons. by rewrite Hn, IH. }
  unfold play_interactive_game.
  destruct (game_loop max_turns w) as [limit w'|x w'|]; [| |done].
  - split; [done|]. split; [done|]. by apply Hnames.
  - destruct x; (split; [done|]); by apply Hnames.
Qed.

(** ** A turn of the card placement *)

Lemma placement_apply_card (i : nat) (p : Player) (c : Card) (g : Game)
    (e : Env) :
  players g !! i = Some p → c ∈ hand p →
  placement_apply i p (Some c) (g, e)
    = Ret true
        (next_player
           (log (LPlayedAnother (name p) (length (played_cards p) + 1))
                (upd i (λ q, snd (play_card c q)) g)), e).
Proof.
  intros Hp Hc. unfold placement_apply, bind at 1, modify at 1. cbn [fst snd].
  destruct (upd_lookup i (λ q, snd (play_card c q)) g p Hp) as [Hi _].
  unfold bind at 1, player_at. cbn [fst snd]. rewrite Hi.
  assert (name (snd (play_card c p)) = name p ∧
          cards_played_count (snd (play_card c p))
            = length (played_cards p) + 1) as [-> ->]; [|done].
  unfold play_card, cards_played_count.
  rewrite bool_decide_eq_true_2 by done.
  destruct (remove_first_Some _ _ Hc) as (l1 & l2 & _ & _ & ->).
  destruct (is_skull c); simpl; by rewrite length_app.
Qed.

(** What one call of [card_placement_phase] does for the player whose turn
    it is.  A player with an empty hand opens the bidding, and nothing is
    read or drawn.  Otherwise the call ends in one of three ways: the
    bidding is opened; or exactly one card of the player's hand goes onto
    the player's stack, which is logged with the new height of the stack,
    and the turn passes to the next active player; or, for a human player
    who quits at the card prompt, the game is over and [False] is
    returned. *)
Theorem card_placement_turn (g : Game) (e : Env) (p : Player) (b : bool)
    (w' : World) :
  game_state g = CARD_PLACEMENT →
  get_current_player g = Some p →
  card_placement_phase (g, e) = Ret b w' →
  (hand p = [] → w' = (start_bidding_phase g, e)) ∧
  ((b = true ∧ fst w' = start_bidding_phase g) ∨
   (b = true ∧
    ∃ c, c ∈ hand p ∧
         fst w' = next_player
                    (log (LPlayedAnother (name p)
                            (length (played_cards p) + 1))
                         (upd (current_player_index g)
                              (λ q, snd (play_card c q)) g))) ∨
   (b = false ∧ cls p = InteractiveHumanPlayer ∧
    fst w' = set_game_state GAME_OVER g)).
Proof.
  intros Hst Hp H. unfold get_current_player in Hp.
  unfold card_placement_phase in H.
  apply bind_Ret in H as (g0 & w0 & [-> ->]%get_game_Ret & H).
  cbn [fst] in H. rewrite bool_decide_eq_true_2 in H by done. cbn [negb] in H.
  apply bind_Ret in H as (p0 & w0 & [Hp0 ->]%player_at_Ret & H).
  cbn [fst] in Hp0. rewrite Hp in Hp0. injection Hp0 as <-.
  destruct (has_cards_to_play p) eqn:Hhas; cbn [negb] in H.
  2:{ apply has_cards_to_play_false in Hhas.
      apply bind_Ret in H as (u & w1 & ->%modify_Ret & [<- <-]%ret_Ret).
      split; [done|]. by left. }
  assert (hand p ≠ []) as Hne.
  { intros Hnil. unfold has_cards_to_play in Hhas. by rewrite Hnil in Hhas. }
  split; [done|].
  apply bind_Ret in H as (should_bid & [g1 e1] & Hdec & H).
  assert (g1 = g) as ->.
  { destruct (cls p); apply lift_Ret in Hdec as (? & _ & [= -> _]); done. }
  destruct should_bid.
  { apply bind_Ret in H as (u & w1 & ->%modify_Ret & [<- <-]%ret_Ret).
    by left. }
  assert (Hcard : ∀ c e2, c ∈ hand p →
            placement_apply (current_player_index g) p (Some c) (g, e2)
              = Ret b w' →
            b = true ∧
            ∃ c, c ∈ hand p ∧
                 fst w' = next_player
                            (log (LPlayedAnother (name p)
                                    (length (played_cards p) + 1))
                                 (upd (current_player_index g)
                                      (λ q, snd (play_card c q)) g))).
  { intros c e2 Hc Hrun. rewrite (placement_apply_card _ _ _ _ _ Hp Hc) in Hrun.
    injection Hrun as <- <-. split; [done|]. by exists c. }
  destruct (cls p) as [| |strategy] eqn:Hcls.
  - destruct (hand p) as [|c0 h0] eqn:Hh; [done|].
    apply bind_Ret in H as (c & w1 & (e2 & Hc & ->)%lift_Ret & H).
    destruct (choice_elem c0 (c0 :: h0) e1) as (x & Hx & Hrun); [done|].
    cbn [snd] in Hc. rewrite Hrun in Hc. injection Hc as <- <-.
    right; left. eapply Hcard; [|exact H]. by rewrite ?Hh.
  - apply bind_Ret in H as (card & w1 & (e2 & Hc & ->)%lift_Ret & H).
    cbn [fst snd] in *. destruct card as [c|].
    + right; left. eapply Hcard; [|exact H].
      unfold human_choose_card_to_play in Hc.
      destruct (hand p) as [|c0 h0] eqn:Hh; [done|]. rewrite <- ?Hh in *.
      destruct (human_card_prompt _ (stdin e1)) as [[o rest]|] eqn:E; [|done].
      injection Hc as -> _. rewrite <- ?Hh.
      eapply human_card_prompt_in_hand. exact E.
    + apply bind_Ret in H as (u & w1 & ->%modify_Ret & [<- <-]%ret_Ret).
      right; right. by split_and!.
  - apply bind_Ret in H as (card & w1 & (e2 & Hc & ->)%lift_Ret & H).
    cbn [fst snd] in *. destruct card as [c|].
    + right; left. eapply Hcard; [|exact H]. by eapply ai_choose_card_in_hand.
    + exfalso. unfold ai_choose_card_to_play in Hc.
      destruct (hand p) as [|c0 h0] eqn:Hh; [done|].
      unfold bind in Hc. rewrite random_lt_run in Hc.
      repeat (destruct (_ && _) || destruct (bool_decide _));
        rewrite choice_run in Hc; done.
Qed.

(** Ann plays her second card on the sample table and it is Bob's turn. *)
Lemma card_placement_turn_witness :
  let g := sample_game table 0 CARD_PLACEMENT 0 None in
  ∃ w', card_placement_phase (g, sample_env [Line Tp; Line (Tint 3)])
          = Ret true w' ∧
        game_state (fst w') = CARD_PLACEMENT ∧
        current_player_index (fst w') = 1.
Proof.
  intros g.
  destruct (card_placement_phase (g, sample_env [Line Tp; Line (Tint 3)]))
    as [[|] w'| |] eqn:Hrun; [|vm_compute in Hrun; discriminate..].
  exists w'. split; [done|].
  destruct (card_placement_turn g _ (plays [0] ann) true w' eq_refl eq_refl Hrun)
    as [_ [[_ Hbid] | [(_ & c & _ & ->) | (Hf & _)]]]; [| |done].
  - vm_compute in Hrun. injection Hrun as <-. vm_compute in Hbid. discriminate.
  - by split.
Defined.
